(** * Russian-roulette duel engine: game state, items, modifiers, turn loop

    A shallow embedding of [game.py] and its English twin [game_en.py].
    The two scripts share every line of control flow; they differ in their
    message strings, in the keywords they compare against, and in one
    divisor inside [initialize_gun].  The embedding is therefore one engine
    indexed by a [Locale].

    Python integers are unbounded, so positions and counters are [Z];
    [//] and [%] are floor division and floor modulus, which is what
    [Z.div] and [Z.modulo] compute.  Exceptions are explicit: every
    operation that can raise returns a [result].  Calls to the [random]
    module take the raw draw as an argument; replies of the language-model
    backends are inputs of the turn, already parsed for the acting player
    and verbatim for the opponent of a negotiation.  A backend that fails
    raises out of the match; the embedding covers the runs in which the
    backends answer.  What creating a backend meets outside the program
    (the configuration file, the environment, the client libraries) is a
    [World], an argument of [setup_game].  What the controller prints about the course of the
    match is kept as a list, [console]. *)

From stdpp Require Import base list strings pretty sorting.
From Stdlib Require Import ZArith Ascii Lia.

Open Scope Z_scope.

(** ** Exceptions *)

Inductive exn :=
| ValueError | TypeError | ZeroDivisionError | IndexError | AttributeError
| FileNotFoundError
| OtherException (class_name : string).  (* any other class, raised outside the program *)

Inductive result (A : Type) : Type :=
| Ok (a : A)
| Raise (e : exn).
Arguments Ok {A} a.
Arguments Raise {A} e.

#[global] Instance result_ret : MRet result := fun A a => Ok a.
#[global] Instance result_bind : MBind result := fun A B f m =>
  match m with
  | Ok a => f a
  | Raise e => Raise e
  end.

(** [a % b] on Python integers. *)
Definition py_mod (a b : Z) : result Z :=
  if decide (b = 0) then Raise ZeroDivisionError else Ok (a `mod` b).

(** ** Strings *)

(** [needle in hay] on Python strings. *)
Fixpoint str_contains (needle hay : string) : bool :=
  String.prefix needle hay ||
  match hay with
  | EmptyString => false
  | String _ rest => str_contains needle rest
  end.

Definition lower_ascii (c : ascii) : ascii :=
  let n := nat_of_ascii c in
  if ((65 <=? n) && (n <=? 90))%nat then ascii_of_nat (n + 32) else c.

(** [s.lower()].  Strings are byte strings here (UTF-8); the ASCII capitals
    are folded and every other byte is kept.  Python also folds capitals
    outside ASCII, but none of them yields a letter of "agree" or a character
    of the Chinese keyword, so the keyword tests answer alike. *)
Fixpoint lower (s : string) : string :=
  match s with
  | EmptyString => EmptyString
  | String c rest => String (lower_ascii c) (lower rest)
  end.

(** [", ".join(l)]. *)
Fixpoint join (sep : string) (l : list string) : string :=
  match l with
  | [] => ""
  | [x] => x
  | x :: rest => x +:+ sep +:+ join sep rest
  end.

(** How an f-string renders a list of integers. *)
Definition repr_list (l : list Z) : string :=
  "[" +:+ join ", " (pretty <$> l) +:+ "]".

(** ** The string table *)

Inductive Locale := ZH | EN.

Definition item_bullet (loc : Locale) : string :=
  match loc with ZH => "子弹" | EN => "Bullet" end.
Definition item_check (loc : Locale) : string :=
  match loc with ZH => "查看" | EN => "Check" end.
Definition item_reverse (loc : Locale) : string :=
  match loc with ZH => "反转" | EN => "Reverse" end.
Definition item_contract (loc : Locale) : string :=
  match loc with ZH => "契约" | EN => "Contract" end.
Definition item_push (loc : Locale) : string :=
  match loc with ZH => "推动" | EN => "Push" end.

(** The five kinds, in the order of the pool that [setup_game] deals from. *)
Definition five_items (loc : Locale) : list string :=
  [item_bullet loc; item_check loc; item_reverse loc; item_contract loc; item_push loc].

Definition comm_negotiate (loc : Locale) : string :=
  match loc with ZH => "协商" | EN => "Negotiate" end.
Definition comm_talk (loc : Locale) : string :=
  match loc with ZH => "谈话" | EN => "Talk" end.

Definition target_self (loc : Locale) : string :=
  match loc with ZH => "自己" | EN => "Self" end.
Definition target_opponent (loc : Locale) : string :=
  match loc with ZH => "对面" | EN => "Opponent" end.

Definition accept_keyword (loc : Locale) : string :=
  match loc with ZH => "同意" | EN => "agree" end.

(** The divisor of [random.randint(1, self.chamber_count // d)] in
    [initialize_gun]: 2 in [game.py], 3 in [game_en.py]. *)
Definition bullet_divisor (loc : Locale) : Z :=
  match loc with ZH => 2 | EN => 3 end.

Definition msg_init_spec (loc : Locale) (k : Z) (bs : list Z) (pos : Z) : string :=
  match loc with
  | ZH => "游戏初始化: " +:+ pretty k +:+ "个子弹被随机装入位置 "
          +:+ repr_list ((fun p => p + 1) <$> bs)
          +:+ "，初始扳机位置为" +:+ pretty (pos + 1)
  | EN => "Game initialized: " +:+ pretty k +:+ " bullets randomly loaded at positions "
          +:+ repr_list ((fun p => p + 1) <$> bs)
          +:+ ", initial trigger position is " +:+ pretty (pos + 1)
  end.

Definition msg_init_player (loc : Locale) (k : Z) (pos : Z) : string :=
  match loc with
  | ZH => "游戏初始化: " +:+ pretty k +:+ "个子弹被随机装入，初始扳机位置为" +:+ pretty (pos + 1)
  | EN => "Game initialized: " +:+ pretty k
          +:+ " bullets randomly loaded, initial trigger position is " +:+ pretty (pos + 1)
  end.

Definition msg_bullet_added_spec (loc : Locale) (new_bullet : Z) : string :=
  match loc with
  | ZH => "子弹被添加到位置 " +:+ pretty (new_bullet + 1)
  | EN => "Bullet added to position " +:+ pretty (new_bullet + 1)
  end.

Definition msg_bullet_added_player (loc : Locale) : string :=
  match loc with
  | ZH => "一个额外的子弹被添加到枪中"
  | EN => "An extra bullet has been added to the gun"
  end.

Definition msg_chambers_full (loc : Locale) : string :=
  match loc with
  | ZH => "所有弹巢都已有子弹"
  | EN => "All chambers already have bullets"
  end.

Definition msg_check_chamber (loc : Locale) (player_name : string) (position : Z)
    (has_bullet : bool) : string :=
  match loc with
  | ZH => player_name +:+ " 查看位置 " +:+ pretty (position + 1) +:+ ": "
          +:+ (if has_bullet then "有子弹" else "空弹巢")
  | EN => player_name +:+ " checks position " +:+ pretty (position + 1) +:+ ": "
          +:+ (if has_bullet then "has bullet" else "empty chamber")
  end.

Definition msg_move (loc : Locale) (pos : Z) : string :=
  match loc with
  | ZH => "扳机移动到位置 " +:+ pretty (pos + 1)
  | EN => "Trigger moved to position " +:+ pretty (pos + 1)
  end.

Definition msg_contract (loc : Locale) : string :=
  match loc with
  | ZH => "契约已激活，持续3回合"
  | EN => "Contract activated, lasts for 3 turns"
  end.

Definition msg_reverse (loc : Locale) : string :=
  match loc with
  | ZH => "反转效果已激活，将影响下一回合"
  | EN => "Reverse effect activated, will affect next turn"
  end.

Definition msg_fire (loc : Locale) (pos : Z) (was_bullet : bool) : string :=
  match loc with
  | ZH => "在位置 " +:+ pretty (pos + 1) +:+ " 开火，结果: "
          +:+ (if was_bullet then "命中" else "空弹")
  | EN => "Fired at position " +:+ pretty (pos + 1) +:+ ", result: "
          +:+ (if was_bullet then "hit" else "empty")
  end.

Definition msg_contract_ended (loc : Locale) : string :=
  match loc with
  | ZH => "契约效果已结束"
  | EN => "Contract effect has ended"
  end.

Definition msg_invalid_item (loc : Locale) : string :=
  match loc with
  | ZH => "无效道具或未使用道具"
  | EN => "Invalid item or no item used"
  end.

Definition msg_invalid_position (loc : Locale) (n : Z) : string :=
  match loc with
  | ZH => "无效位置，应为1-" +:+ pretty n
  | EN => "Invalid position, should be 1-" +:+ pretty n
  end.

Definition msg_checked_spec (loc : Locale) (player_name : string) (position : Z) : string :=
  match loc with
  | ZH => player_name +:+ " 查看位置 " +:+ pretty (position + 1)
  | EN => player_name +:+ " checks position " +:+ pretty (position + 1)
  end.

Definition msg_checked_player (loc : Locale) (position : Z) (has_bullet : bool) : string :=
  match loc with
  | ZH => "位置 " +:+ pretty (position + 1) +:+ " 是"
          +:+ (if has_bullet then "有" else "空") +:+ "弹"
  | EN => "Position " +:+ pretty (position + 1) +:+ " "
          +:+ (if has_bullet then "has a bullet" else "is empty")
  end.

Definition msg_check_needs_param (loc : Locale) : string :=
  match loc with
  | ZH => "查看道具需要一个有效的位置参数"
  | EN => "Check item requires a valid position parameter"
  end.

Definition msg_used_spec (loc : Locale) (player_name item spec_message : string) : string :=
  match loc with
  | ZH => player_name +:+ " 使用了 " +:+ item +:+ "：" +:+ spec_message
  | EN => player_name +:+ " used " +:+ item +:+ ": " +:+ spec_message
  end.

Definition msg_used_player (loc : Locale) (player_name item : string) : string :=
  match loc with
  | ZH => player_name +:+ " 使用了 " +:+ item
  | EN => player_name +:+ " used " +:+ item
  end.

Definition msg_proposes (loc : Locale) (player_name message : string) : string :=
  match loc with
  | ZH => player_name +:+ " 提出协商: " +:+ message
  | EN => player_name +:+ " proposes negotiation: " +:+ message
  end.

Definition msg_responds (loc : Locale) (opponent_name response : string) : string :=
  match loc with
  | ZH => opponent_name +:+ " 回应: " +:+ response
  | EN => opponent_name +:+ " responds: " +:+ response
  end.

Definition msg_says (loc : Locale) (player_name message : string) : string :=
  match loc with
  | ZH => player_name +:+ " 说: " +:+ message
  | EN => player_name +:+ " says: " +:+ message
  end.

Definition msg_silent (loc : Locale) (player_name : string) : string :=
  match loc with
  | ZH => player_name +:+ " 选择保持沉默"
  | EN => player_name +:+ " chooses to remain silent"
  end.

(** ** The [random] module

    Every call takes the raw draw of the generator as an argument and
    reduces it into the range the call asks for. *)

(** [random.randint(a, b)]: an integer of [a..b], [ValueError] on an empty range. *)
Definition randint (a b : Z) (r : nat) : result Z :=
  if decide (a <= b) then Ok (a + Z.of_nat r `mod` (b - a + 1)) else Raise ValueError.

(** [random.choice(l)]: [IndexError] on an empty list. *)
Definition choice {A} (l : list A) (r : nat) : result A :=
  match l !! (r mod length l)%nat with
  | Some x => Ok x
  | None => Raise IndexError
  end.

(** [x[i], x[j] = x[j], x[i]]. *)
Definition swap {A} (i j : nat) (l : list A) : list A :=
  match l !! i, l !! j with
  | Some xi, Some xj => <[j := xi]> (<[i := xj]> l)
  | _, _ => l
  end.

(** The loop of [random.shuffle]:
    [for i in reversed(range(1, len(x))): j = randbelow(i + 1); swap]. *)
Fixpoint shuffle_from {A} (i : nat) (draw : nat -> nat) (l : list A) : list A :=
  match i with
  | O => l
  | S i' => shuffle_from i' draw (swap i (draw i mod S i)%nat l)
  end.

Definition shuffle {A} (draw : nat -> nat) (l : list A) : list A :=
  shuffle_from (length l - 1) draw l.

(** [l[:k]]. *)
Definition py_take {A} (k : Z) (l : list A) : list A :=
  if decide (0 <= k) then take (Z.to_nat k) l
  else take (length l - Z.to_nat (- k)) l.

(** [l[a:b]]: negative bounds count from the end, all bounds are clamped. *)
Definition py_slice {A} (a b : Z) (l : list A) : list A :=
  let len := Z.of_nat (length l) in
  let norm i := if decide (i < 0) then Z.max 0 (i + len) else Z.min i len in
  take (Z.to_nat (norm b - norm a)) (drop (Z.to_nat (norm a)) l).

(** [sorted(l)] on integers. *)
Definition sorted (l : list Z) : list Z := merge_sort Z.le l.

(** ** [int(param)] *)

(** A Python string is a sequence of code points; the strings of this
    development are their UTF-8 encoding.  [code_points] reads the code
    points back: one to four bytes each, shortest form only, no
    surrogates, nothing above U+10FFFF.  Bytes that encode no string give
    [None]. *)
Definition byte_of (c : ascii) : Z := Z.of_nat (nat_of_ascii c).

Definition continuation (c : ascii) : option Z :=
  let n := byte_of c in
  if (128 <=? n) && (n <=? 191) then Some (n - 128) else None.

Fixpoint code_points (s : string) : option (list Z) :=
  match s with
  | EmptyString => Some []
  | String c0 s1 =>
      let n := byte_of c0 in
      if n <? 128 then
        match code_points s1 with Some l => Some (n :: l) | None => None end
      else if n <? 194 then None
      else if n <? 224 then
        match s1 with
        | String c1 s2 =>
            match continuation c1, code_points s2 with
            | Some x1, Some l => Some ((n - 192) * 64 + x1 :: l)
            | _, _ => None
            end
        | _ => None
        end
      else if n <? 240 then
        match s1 with
        | String c1 (String c2 s3) =>
            match continuation c1, continuation c2, code_points s3 with
            | Some x1, Some x2, Some l =>
                let cp := ((n - 224) * 64 + x1) * 64 + x2 in
                if (cp <? 2048) || ((55296 <=? cp) && (cp <=? 57343)) then None
                else Some (cp :: l)
            | _, _, _ => None
            end
        | _ => None
        end
      else if n <? 245 then
        match s1 with
        | String c1 (String c2 (String c3 s4)) =>
            match continuation c1, continuation c2, continuation c3, code_points s4 with
            | Some x1, Some x2, Some x3, Some l =>
                let cp := (((n - 240) * 64 + x1) * 64 + x2) * 64 + x3 in
                if (cp <? 65536) || (1114111 <? cp) then None else Some (cp :: l)
            | _, _, _, _ => None
            end
        | _ => None
        end
      else None
  end.

(** [Py_UNICODE_ISSPACE]: the code points that [str.isspace] accepts. *)
Definition unicode_isspace (cp : Z) : bool :=
  ((9 <=? cp) && (cp <=? 13)) || ((28 <=? cp) && (cp <=? 32))
  || (cp =? 0x85) || (cp =? 0xA0) || (cp =? 0x1680)
  || ((0x2000 <=? cp) && (cp <=? 0x200A))
  || (cp =? 0x2028) || (cp =? 0x2029) || (cp =? 0x202F) || (cp =? 0x205F)
  || (cp =? 0x3000).

(** The characters with a decimal digit value (Unicode 14.0, the table of
    CPython 3.11): first code point and length of every run; the digit of
    a character is its offset in the run modulo 10. *)
Definition decimal_runs : list (Z * Z) :=
  [(0x30, 10); (0x660, 10); (0x6F0, 10); (0x7C0, 10); (0x966, 10); (0x9E6, 10);
   (0xA66, 10); (0xAE6, 10); (0xB66, 10); (0xBE6, 10); (0xC66, 10); (0xCE6, 10);
   (0xD66, 10); (0xDE6, 10); (0xE50, 10); (0xED0, 10); (0xF20, 10); (0x1040, 10);
   (0x1090, 10); (0x17E0, 10); (0x1810, 10); (0x1946, 10); (0x19D0, 10);
   (0x1A80, 10); (0x1A90, 10); (0x1B50, 10); (0x1BB0, 10); (0x1C40, 10);
   (0x1C50, 10); (0xA620, 10); (0xA8D0, 10); (0xA900, 10); (0xA9D0, 10);
   (0xA9F0, 10); (0xAA50, 10); (0xABF0, 10); (0xFF10, 10); (0x104A0, 10);
   (0x10D30, 10); (0x11066, 10); (0x110F0, 10); (0x11136, 10); (0x111D0, 10);
   (0x112F0, 10); (0x11450, 10); (0x114D0, 10); (0x11650, 10); (0x116C0, 10);
   (0x11730, 10); (0x118E0, 10); (0x11950, 10); (0x11C50, 10); (0x11D50, 10);
   (0x11DA0, 10); (0x16A60, 10); (0x16AC0, 10); (0x16B50, 10); (0x1D7CE, 50);
   (0x1E140, 10); (0x1E2F0, 10); (0x1E950, 10); (0x1FBF0, 10)].

(** [Py_UNICODE_TODECIMAL]. *)
Definition unicode_todecimal (cp : Z) : option Z :=
  match List.find (fun run => (fst run <=? cp) && (cp <? fst run + snd run)) decimal_runs with
  | Some run => Some ((cp - fst run) `mod` 10)
  | None => None
  end.

(** What [int] makes of one character before it parses: ASCII stays, any
    other white space becomes a blank, any other decimal digit its ASCII
    digit, and the rest a question mark. *)
Definition to_ascii (cp : Z) : Z :=
  if cp <? 127 then cp
  else if unicode_isspace cp then 32
  else match unicode_todecimal cp with
       | Some d => 48 + d
       | None => 63
       end.

(** [Py_ISSPACE]: blank, tab, line feed, vertical tab, form feed, carriage
    return. *)
Definition ascii_isspace (c : Z) : bool :=
  (c =? 32) || ((9 <=? c) && (c <=? 13)).

Fixpoint skip_spaces (l : list Z) : list Z :=
  match l with
  | c :: rest => if ascii_isspace c then skip_spaces rest else l
  | [] => []
  end.

(** The digits of the literal, single underscores allowed between two
    digits: the value, the number of digits, and what follows them. *)
Fixpoint scan_digits (acc digits : Z) (after_digit : bool) (l : list Z)
    : option (Z * Z * list Z) :=
  match l with
  | c :: rest =>
      if (48 <=? c) && (c <=? 57) then scan_digits (10 * acc + (c - 48)) (digits + 1) true rest
      else if c =? 95 then
        if after_digit then scan_digits acc digits false rest else None
      else if after_digit then Some (acc, digits, l) else None
  | [] => if after_digit then Some (acc, digits, []) else None
  end.

(** The longest literal [int] converts (the interpreter's default limit). *)
Definition max_str_digits : Z := 4300.

(** Base 10: white space, an optional sign, the digits, white space. *)
Definition long_from_string (l : list Z) : option Z :=
  let l := skip_spaces l in
  let '(sign, l) :=
    match l with
    | c :: rest => if c =? 43 then (1, rest) else if c =? 45 then (-1, rest) else (1, l)
    | [] => (1, l)
    end in
  match scan_digits 0 0 false l with
  | Some (n, digits, rest) =>
      if (digits <=? max_str_digits) && bool_decide (skip_spaces rest = []) then Some (sign * n)
      else None
  | None => None
  end.

(** [int(param)] for the values [parse_response] can hand over, as
    CPython 3.11 computes it: [None] raises [TypeError]; a string may carry
    white space at both ends and a sign, and must then be a decimal
    literal of at most 4300 digits, else [ValueError]. *)
Definition py_int (param : option string) : result Z :=
  match param with
  | None => Raise TypeError
  | Some s =>
      match code_points s with
      | Some cps =>
          match long_from_string (to_ascii <$> cps) with
          | Some n => Ok n
          | None => Raise ValueError
          end
      | None => Raise ValueError
      end
  end.

(** ** [class GameState] *)

Record GameState := mkGameState {
  chamber_count : Z;
  bullets : list Z;
  current_position : Z;
  logs : list string;           (* full log, for spectators *)
  player_logs : list string;    (* restricted log, for the players *)
  contract_active : bool;
  contract_turns_left : Z;
  reverse_active : bool;
  last_active_player : option nat;  (* index into the roster; [None] is Python's None *)
  reset_reverse : option bool;      (* attribute created on first use; [None]: absent *)
}.

Definition set_bullets (bs : list Z) (gs : GameState) : GameState :=
  mkGameState (chamber_count gs) bs (current_position gs) (logs gs) (player_logs gs)
    (contract_active gs) (contract_turns_left gs) (reverse_active gs)
    (last_active_player gs) (reset_reverse gs).

Definition set_current_position (p : Z) (gs : GameState) : GameState :=
  mkGameState (chamber_count gs) (bullets gs) p (logs gs) (player_logs gs)
    (contract_active gs) (contract_turns_left gs) (reverse_active gs)
    (last_active_player gs) (reset_reverse gs).

(** [self.logs.append(m)] *)
Definition append_log (m : string) (gs : GameState) : GameState :=
  mkGameState (chamber_count gs) (bullets gs) (current_position gs) (logs gs ++ [m])
    (player_logs gs) (contract_active gs) (contract_turns_left gs) (reverse_active gs)
    (last_active_player gs) (reset_reverse gs).

(** [self.player_logs.append(m)] *)
Definition append_player_log (m : string) (gs : GameState) : GameState :=
  mkGameState (chamber_count gs) (bullets gs) (current_position gs) (logs gs)
    (player_logs gs ++ [m]) (contract_active gs) (contract_turns_left gs) (reverse_active gs)
    (last_active_player gs) (reset_reverse gs).

Definition set_contract (active : bool) (turns : Z) (gs : GameState) : GameState :=
  mkGameState (chamber_count gs) (bullets gs) (current_position gs) (logs gs)
    (player_logs gs) active turns (reverse_active gs)
    (last_active_player gs) (reset_reverse gs).

Definition set_reverse_active (b : bool) (gs : GameState) : GameState :=
  mkGameState (chamber_count gs) (bullets gs) (current_position gs) (logs gs)
    (player_logs gs) (contract_active gs) (contract_turns_left gs) b
    (last_active_player gs) (reset_reverse gs).

Definition set_last_active_player (p : option nat) (gs : GameState) : GameState :=
  mkGameState (chamber_count gs) (bullets gs) (current_position gs) (logs gs)
    (player_logs gs) (contract_active gs) (contract_turns_left gs) (reverse_active gs)
    p (reset_reverse gs).

Definition set_reset_reverse (b : option bool) (gs : GameState) : GameState :=
  mkGameState (chamber_count gs) (bullets gs) (current_position gs) (logs gs)
    (player_logs gs) (contract_active gs) (contract_turns_left gs) (reverse_active gs)
    (last_active_player gs) b.

(** [GameState.__init__] *)
Definition GameState_init (n : Z) : GameState :=
  mkGameState n [] 0 [] [] false 0 false None None.

Definition initialize_gun (loc : Locale) (r_count : nat) (r_shuffle : nat -> nat)
    (r_pos : nat) (gs : GameState) : result GameState :=
  bullet_count ← randint 1 (chamber_count gs `div` bullet_divisor loc) r_count;
  let all_positions := shuffle r_shuffle (seqZ 0 (chamber_count gs)) in
  let gs := set_bullets (sorted (py_take bullet_count all_positions)) gs in
  pos ← randint 0 (chamber_count gs - 1) r_pos;
  let gs := set_current_position pos gs in
  let gs := append_log (msg_init_spec loc bullet_count (bullets gs) (current_position gs)) gs in
  let gs := append_player_log (msg_init_player loc bullet_count (current_position gs)) gs in
  Ok gs.

Definition add_bullet (loc : Locale) (r : nat) (gs : GameState)
    : result (string * string * GameState) :=
  let empty_chambers := filter (fun i => i ∉ bullets gs) (seqZ 0 (chamber_count gs)) in
  match empty_chambers with
  | [] => Ok (msg_chambers_full loc, msg_chambers_full loc, gs)
  | _ =>
      new_bullet ← choice empty_chambers r;
      let gs := set_bullets (sorted (bullets gs ++ [new_bullet])) gs in
      Ok (msg_bullet_added_spec loc new_bullet, msg_bullet_added_player loc, gs)
  end.

Definition check_chamber (loc : Locale) (position : Z) (player_name : string)
    (gs : GameState) : result (bool * GameState) :=
  if decide (position < 0 ∨ position >= chamber_count gs) then Raise ValueError
  else
    let has_bullet := bool_decide (position ∈ bullets gs) in
    let gs := append_log (msg_check_chamber loc player_name position has_bullet) gs in
    Ok (has_bullet, gs).

Definition move_position (loc : Locale) (gs : GameState) : result (string * GameState) :=
  p ← py_mod (current_position gs + 1) (chamber_count gs);
  let gs := set_current_position p gs in
  Ok (msg_move loc (current_position gs), gs).

Definition activate_contract (loc : Locale) (gs : GameState) : string * GameState :=
  (msg_contract loc, set_contract true 3 gs).

Definition activate_reverse (loc : Locale) (gs : GameState) : string * GameState :=
  (msg_reverse loc, set_reverse_active true gs).

Definition fire (loc : Locale) (gs : GameState) : result (bool * GameState) :=
  let was_bullet := bool_decide (current_position gs ∈ bullets gs) in
  let gs := append_log (msg_fire loc (current_position gs) was_bullet) gs in
  let gs := append_player_log (msg_fire loc (current_position gs) was_bullet) gs in
  p ← py_mod (current_position gs + 1) (chamber_count gs);
  let gs := set_current_position p gs in
  let gs :=
    if contract_active gs then
      let gs := set_contract (contract_active gs) (contract_turns_left gs - 1) gs in
      if decide (contract_turns_left gs <= 0) then
        let gs := set_contract false (contract_turns_left gs) gs in
        let gs := append_log (msg_contract_ended loc) gs in
        append_player_log (msg_contract_ended loc) gs
      else gs
    else gs in
  Ok (was_bullet, gs).

Definition add_player_communication (message : string) (gs : GameState) : GameState :=
  append_player_log message (append_log message gs).

(** ** [class Player] *)

Record Player := mkPlayer {
  name : string;
  llm_client : option string;   (* [None]: the player has no backend *)
  items : list string;
  alive : bool;
}.

(** ** [llm_client.py]: creating a backend *)

(** What [create_llm_client] meets outside the program.  [load_config] is
    the outcome of opening [config.json] and decoding it ([None]: it
    loaded).  [api_key] is, for a provider, the outcome of looking up the
    name of its variable in the configuration and reading that variable
    from the environment: an exception, no value, or the key.
    [new_client] is the outcome of the constructor of the provider's SDK
    client on that key ([None]: it returned). *)
Record World := mkWorld {
  load_config : option exn;
  api_key : string → result (option string);
  new_client : string → string → option exn;
}.

(** [create_llm_client(provider)].  The client object is represented by
    the name of its provider, which fixes its class; the game reads
    nothing else of it and only calls its [send_message], whose replies
    are the inputs of the turns. *)
Definition create_llm_client (w : World) (provider : string) : result string :=
  match load_config w with
  | Some e => Raise e
  | None =>
      if decide (provider ∈ ["deepseek"; "openai"; "anthropic"]) then
        key ← api_key w provider;
        match key with
        | None | Some "" => Raise ValueError
        | Some k =>
            match new_client w provider k with
            | Some e => Raise e
            | None => Ok provider
            end
        end
      else Raise ValueError
  end.

(** [Player.__init__]; role and style only feed the prompts. *)
Definition Player_init (w : World) (n : string) (llm_type : option string)
    : result Player :=
  client ← match llm_type with
           | None => Ok None
           | Some provider =>
               match create_llm_client w provider with
               | Ok cl => Ok (Some cl)
               | Raise e => Raise e
               end
           end;
  Ok (mkPlayer n client [] true).

Definition set_items (l : list string) (p : Player) : Player :=
  mkPlayer (name p) (llm_client p) l (alive p).

Definition set_alive (b : bool) (p : Player) : Player :=
  mkPlayer (name p) (llm_client p) (items p) b.

Definition add_item (item : string) (p : Player) : Player :=
  set_items (items p ++ [item]) p.

(** [list.remove(x)]: drops the first occurrence. *)
Fixpoint list_remove (x : string) (l : list string) : list string :=
  match l with
  | [] => []
  | y :: rest => if decide (x = y) then rest else y :: list_remove x rest
  end.

Definition remove_item (item : string) (p : Player) : bool * Player :=
  if decide (item ∈ items p) then (true, set_items (list_remove item (items p)) p)
  else (false, p).

(** ** [class GameController] *)

(** What the controller writes to the terminal about the course of the
    match.  Debug dumps, prompts and timings are left out. *)
Inductive Printed :=
| PNegotiationSuccess
| PNegotiationRejected (opponent_name : string)
| PReverseApplied (player_name target : string)
| PShoot (player_name target : string)
| PHit
| PHitSelf (player_name : string)
| PHitOpponent (opponent_name : string)
| PMiss
| PContractTriggered
| PGameOver
| PDrawAllDead
| PDrawMaxTurns
| PWins (player_name : string).

#[global] Instance Printed_eq_dec : EqDecision Printed.
Proof. solve_decision. Defined.

Record GameController := mkGameController {
  ctl_chamber_count : Z;
  game_state : GameState;
  players : list Player;
  current_player_idx : nat;
  console : list Printed;
}.

Definition set_game_state (gs : GameState) (c : GameController) : GameController :=
  mkGameController (ctl_chamber_count c) gs (players c) (current_player_idx c) (console c).

Definition set_players (ps : list Player) (c : GameController) : GameController :=
  mkGameController (ctl_chamber_count c) (game_state c) ps (current_player_idx c) (console c).

Definition set_current_player_idx (i : nat) (c : GameController) : GameController :=
  mkGameController (ctl_chamber_count c) (game_state c) (players c) i (console c).

Definition print (p : Printed) (c : GameController) : GameController :=
  mkGameController (ctl_chamber_count c) (game_state c) (players c) (current_player_idx c)
    (console c ++ [p]).

(** [GameController.__init__] *)
Definition GameController_init (n : Z) : GameController :=
  mkGameController n (GameState_init n) [] 0 [].

Definition add_player (w : World) (n : string) (llm_type : option string)
    (c : GameController) : result GameController :=
  player ← Player_init w n llm_type;
  Ok (set_players (players c ++ [player]) c).

(** [for config in player_configs: self.add_player(...)] *)
Fixpoint add_players (w : World) (player_configs : list (string * option string))
    (c : GameController) : result GameController :=
  match player_configs with
  | [] => Ok c
  | config :: rest =>
      c ← add_player w (fst config) (snd config) c;
      add_players w rest c
  end.

(** [self.players[i]] *)
Definition get_player (i : nat) (c : GameController) : result Player :=
  match players c !! i with
  | Some p => Ok p
  | None => Raise IndexError
  end.

(** A method call on the player object at index [i] that mutates it. *)
Definition update_player (i : nat) (f : Player -> Player) (c : GameController)
    : GameController :=
  set_players (alter f i (players c)) c.

(** A method call on [self.game_state] that mutates it and cannot raise. *)
Definition update_game_state (f : GameState -> GameState) (c : GameController)
    : GameController :=
  set_game_state (f (game_state c)) c.

(** [setup_game(player_configs)]: a configuration (a dictionary with its
    four keys) is a name and the identifier of a backend, or None for a
    player without one; the draws are those of [initialize_gun], of the
    shuffle of the item pool and of the choice of who goes first. *)
Definition setup_game (w : World) (loc : Locale)
    (player_configs : list (string * option string))
    (r_count : nat) (r_shuffle : nat -> nat) (r_pos : nat)
    (r_items : nat -> nat) (r_first : nat) (c : GameController)
    : result GameController :=
  c ← add_players w player_configs c;
  gs ← initialize_gun loc r_count r_shuffle r_pos (game_state c);
  let c := set_game_state gs c in
  let available_items :=
    shuffle r_items (mjoin (replicate (length (players c) + 2) (five_items loc))) in
  let item_count := (ctl_chamber_count c + 2) `div` 3 in
  let deal i p :=
    foldl (fun p item => add_item item p) p
      (py_slice (Z.of_nat i * item_count) ((Z.of_nat i + 1) * item_count) available_items) in
  let c := set_players (imap deal (players c)) c in
  first ← randint 0 (Z.of_nat (length (players c)) - 1) r_first;
  Ok (set_current_player_idx (Z.to_nat first) c).

(** The body of the [try] block of the Check branch. *)
Definition check_branch (loc : Locale) (player_idx : nat) (player : Player)
    (param : option string) (c : GameController)
    : result (string * string * GameController) :=
  n ← py_int param;
  let position := n - 1 in
  if decide (position < 0 ∨ position >= chamber_count (game_state c)) then
    Ok (msg_invalid_position loc (chamber_count (game_state c)),
        msg_invalid_position loc (chamber_count (game_state c)), c)
  else
    '(has_bullet, gs) ← check_chamber loc position (name player) (game_state c);
    let c := set_game_state gs c in
    let c := update_player player_idx (fun p => snd (remove_item (item_check loc) p)) c in
    Ok (msg_checked_spec loc (name player) position,
        msg_checked_player loc position has_bullet, c).

(** [handle_item_usage(player, item, param)]; the player is named by its
    index in the roster, [r] is the draw for [random.choice] in
    [add_bullet]. *)
Definition handle_item_usage (loc : Locale) (r : nat) (player_idx : nat)
    (item : option string) (param : option string) (c : GameController)
    : result (string * GameController) :=
  player ← get_player player_idx c;
  match item with
  | None => Ok (msg_invalid_item loc, c)
  | Some item =>
      if decide (item ∉ items player) then Ok (msg_invalid_item loc, c)
      else
        '(spec_message, player_message, c) ←
          (if decide (item = item_bullet loc) then
             let c := update_player player_idx
                        (fun p => snd (remove_item (item_bullet loc) p)) c in
             '(spec_msg, player_msg, gs) ← add_bullet loc r (game_state c);
             Ok (spec_msg, player_msg, set_game_state gs c)
           else if decide (item = item_check loc) then
             (* no mutation precedes a raise inside the try block, so the
                handler resumes from the state at its entry *)
             match check_branch loc player_idx player param c with
             | Raise ValueError | Raise TypeError =>
                 Ok (msg_check_needs_param loc, msg_check_needs_param loc, c)
             | other => other
             end
           else if decide (item = item_reverse loc) then
             let c := update_player player_idx
                        (fun p => snd (remove_item (item_reverse loc) p)) c in
             let '(msg, gs) := activate_reverse loc (game_state c) in
             let gs := set_last_active_player (Some player_idx) gs in
             Ok (msg, msg, set_game_state gs c)
           else if decide (item = item_contract loc) then
             let c := update_player player_idx
                        (fun p => snd (remove_item (item_contract loc) p)) c in
             let '(msg, gs) := activate_contract loc (game_state c) in
             Ok (msg, msg, set_game_state gs c)
           else if decide (item = item_push loc) then
             let c := update_player player_idx
                        (fun p => snd (remove_item (item_push loc) p)) c in
             '(msg, gs) ← move_position loc (game_state c);
             Ok (msg, msg, set_game_state gs c)
           else Ok ("", "", c));
        let c := update_game_state
                   (append_log (msg_used_spec loc (name player) item spec_message)) c in
        let c := update_game_state
                   (append_player_log (msg_used_player loc (name player) item)) c in
        Ok (player_message, c)
  end.

(** [get_opponent]: the roster holds distinct objects, so
    [self.players.index(player)] is the player's own index. *)
Definition get_opponent (player_idx : nat) (c : GameController) : nat :=
  ((player_idx + 1) mod length (players c))%nat.

(** The dictionary returned by [parse_response]; [None] stands for a key
    that is absent or maps to None.  ([parse_response] maps "message" to
    None only together with a silent communication, where the message is
    not read.) *)
Record Parsed := mkParsed {
  p_item : option string;
  p_item_param : option string;
  p_communication : option string;
  p_message : option string;
  p_target : option string;
}.

(** Everything a turn receives from outside: the parsed decision of the
    acting backend, the reply of the opposing backend should it be asked
    about a negotiation, and the draw for [random.choice]. *)
Record TurnInput := mkTurnInput {
  parsed : Parsed;
  opponent_response : string;
  r_choice : nat;
}.

(** [# 1. Item usage] *)
Definition item_step (loc : Locale) (inp : TurnInput) (player_idx : nat)
    (c : GameController) : result GameController :=
  match p_item (parsed inp) with
  | Some item =>
      if decide (item = "") then Ok c
      else
        '(_, c) ← handle_item_usage loc (r_choice inp) player_idx (Some item)
                    (p_item_param (parsed inp)) c;
        Ok c
  | None => Ok c
  end.

(** [# 2. Communication]; the boolean tells whether the turn goes on. *)
Definition communication_step (loc : Locale) (inp : TurnInput) (player_idx opp_idx : nat)
    (player : Player) (c : GameController) : result (bool * GameController) :=
  let message := default "" (p_message (parsed inp)) in
  if decide (p_communication (parsed inp) = Some (comm_negotiate loc)) then
    let c := update_game_state
               (add_player_communication (msg_proposes loc (name player) message)) c in
    opponent ← get_player opp_idx c;
    match llm_client opponent with
    | None => Raise AttributeError
    | Some _ =>
        let c := update_game_state
                   (add_player_communication
                      (msg_responds loc (name opponent) (opponent_response inp))) c in
        if str_contains (accept_keyword loc) (lower (opponent_response inp)) then
          Ok (false, print PNegotiationSuccess c)
        else Ok (true, print (PNegotiationRejected (name opponent)) c)
    end
  else if decide (p_communication (parsed inp) = Some (comm_talk loc)) then
    Ok (true, update_game_state
                (add_player_communication (msg_says loc (name player) message)) c)
  else
    Ok (true, update_game_state
                (add_player_communication (msg_silent loc (name player))) c).

(** The target after the Reverse rule, and whether it was flipped. *)
Definition reversed_target (loc : Locale) (player_idx : nat) (target : string)
    (gs : GameState) : bool * string :=
  if reverse_active gs && negb (bool_decide (last_active_player gs = Some player_idx)) then
    (true, if decide (target = target_opponent loc) then target_self loc
           else target_opponent loc)
  else (false, target).

(** [# 3. Fire] *)
Definition fire_step (loc : Locale) (inp : TurnInput) (player_idx opp_idx : nat)
    (player : Player) (c : GameController) : result (bool * GameController) :=
  let target := default (target_opponent loc) (p_target (parsed inp)) in
  let '(flipped, target) := reversed_target loc player_idx target (game_state c) in
  let c :=
    if flipped then
      update_game_state (set_reset_reverse (Some true))
        (print (PReverseApplied (name player) target) c)
    else c in
  let c :=
    match reset_reverse (game_state c) with
    | Some true =>
        update_game_state
          (fun gs => set_reset_reverse (Some false) (set_reverse_active false gs)) c
    | _ => c
    end in
  let c := print (PShoot (name player) target) c in
  '(was_hit, gs) ← fire loc (game_state c);
  let c := set_game_state gs c in
  if (was_hit : bool) then
    let c := print PHit c in
    if decide (target = target_self loc) then
      let c := update_player player_idx (set_alive false) c in
      Ok (false, print (PHitSelf (name player)) c)
    else
      opponent ← get_player opp_idx c;
      let c := update_player opp_idx (set_alive false) c in
      Ok (false, print (PHitOpponent (name opponent)) c)
  else Ok (true, print PMiss c).

(** [process_player_turn(player_idx)]: the boolean is Python's return
    value, [True] if the game should continue. *)
Definition process_player_turn (loc : Locale) (inp : TurnInput) (player_idx : nat)
    (c : GameController) : result (bool * GameController) :=
  player ← get_player player_idx c;
  let opp_idx := get_opponent player_idx c in
  match llm_client player with
  | None => Ok (true, c)
  | Some _ =>
      c ← item_step loc inp player_idx c;
      '(go_on, c) ← communication_step loc inp player_idx opp_idx player c;
      if (go_on : bool) then fire_step loc inp player_idx opp_idx player c
      else Ok (false, c)
  end.

Definition check_contract_effect (c : GameController) : bool * GameController :=
  if contract_active (game_state c) then
    let dead_players := filter (fun p => alive p = false) (players c) in
    match dead_players with
    | [] => (true, c)
    | _ => (false, set_players (set_alive false <$> players c) (print PContractTriggered c))
    end
  else (true, c).

Definition max_turns : nat := 30.

(** The variables of [run_game] when its loop is left. *)
Record LoopExit := mkLoopExit {
  game_active : bool;
  turn_count : nat;
  turns_played : nat;   (* instrumentation: calls of [process_player_turn] *)
  ctl : GameController;
}.

(** The [while] loop of [run_game].  [agent] gives the input of each turn
    by its number.  The recursion is on [fuel]; [None] means the fuel ran
    out before the loop was left. *)
Fixpoint game_loop (loc : Locale) (agent : nat -> TurnInput) (fuel : nat)
    (game_active : bool) (turn_count turns_played : nat) (c : GameController)
    : option (result LoopExit) :=
  match fuel with
  | O => None
  | S fuel' =>
      if game_active && (turn_count <? max_turns)%nat then
        match process_player_turn loc (agent turn_count) (current_player_idx c) c with
        | Raise e => Some (Raise e)
        | Ok (game_active, c) =>
            if negb game_active then
              let c :=
                if contract_active (game_state c) then snd (check_contract_effect c)
                else c in
              Some (Ok (mkLoopExit game_active turn_count (S turns_played) c))
            else
              match length (players c) with
              | O => Some (Raise ZeroDivisionError)
              | _ =>
                  let c := set_current_player_idx
                             ((current_player_idx c + 1) mod length (players c))%nat c in
                  game_loop loc agent fuel' game_active (S turn_count) (S turns_played) c
              end
        end
      else Some (Ok (mkLoopExit game_active turn_count turns_played c))
  end.

(** The verdict printed after the loop. *)
Definition announce (c : GameController) : GameController :=
  let c := print PGameOver c in
  let alive_players := filter (fun p => alive p = true) (players c) in
  match alive_players with
  | [] => print PDrawAllDead c
  | _ =>
      if decide (length alive_players = length (players c)) then print PDrawMaxTurns c
      else foldl (fun c p => print (PWins (name p)) c) c alive_players
  end.

Definition run_game (loc : Locale) (agent : nat -> TurnInput) (fuel : nat)
    (c : GameController) : option (result LoopExit) :=
  match game_loop loc agent fuel true 0 0 c with
  | Some (Ok ex) =>
      Some (Ok (mkLoopExit (game_active ex) (turn_count ex) (turns_played ex)
                  (announce (ctl ex))))
  | Some (Raise e) => Some (Raise e)
  | None => None
  end.

(** ** Notions used in the statements *)

(** The counter of an active contract is positive. *)
Definition contract_ok (gs : GameState) : Prop :=
  contract_active gs = true → 0 < contract_turns_left gs.

(** The flag [reset_reverse] is only raised inside the fire step. *)
Definition reset_ok (gs : GameState) : Prop := reset_reverse gs ≠ Some true.

(** The two entries that close [handle_item_usage]. *)
Definition record_item_use (loc : Locale) (player_name item spec_message : string)
    (c : GameController) : GameController :=
  update_game_state (append_player_log (msg_used_player loc player_name item))
    (update_game_state (append_log (msg_used_spec loc player_name item spec_message)) c).

(** The shots announced on the terminal, oldest first: who fired at what. *)
Definition shots (out : list Printed) : list (string * string) :=
  omap (fun p => match p with PShoot n t => Some (n, t) | _ => None end) out.

(** Self for Opponent, Opponent for anything else. *)
Definition flip_target (loc : Locale) (target : string) : string :=
  if decide (target = target_opponent loc) then target_self loc else target_opponent loc.

(** The target a decision declares. *)
Definition declared_target (loc : Locale) (inp : TurnInput) : string :=
  default (target_opponent loc) (p_target (parsed inp)).

(** The target the fire step settles on, and whether Reverse flipped it. *)
Definition is_flipped (idx : nat) (gs : GameState) : bool :=
  reverse_active gs && negb (bool_decide (last_active_player gs = Some idx)).

Definition final_target (loc : Locale) (inp : TurnInput) (idx : nat) (gs : GameState)
    : string :=
  if is_flipped idx gs then flip_target loc (declared_target loc inp)
  else declared_target loc inp.

(** The fields of the game state other than its two logs. *)
Definition frame (gs : GameState) :=
  (chamber_count gs, bullets gs, current_position gs, contract_active gs,
   contract_turns_left gs, reverse_active gs, last_active_player gs, reset_reverse gs).

(** What an activation of item [it] by player [idx] can do to the game
    state before the two closing entries are written. *)
Inductive item_effect (loc : Locale) (idx : nat) : string → GameState → GameState → Prop :=
| ie_none it gs :
    item_effect loc idx it gs gs
| ie_bullet gs bs :
    item_effect loc idx (item_bullet loc) gs (set_bullets bs gs)
| ie_check gs m :
    item_effect loc idx (item_check loc) gs (append_log m gs)
| ie_reverse gs :
    item_effect loc idx (item_reverse loc) gs
      (set_last_active_player (Some idx) (set_reverse_active true gs))
| ie_contract gs :
    item_effect loc idx (item_contract loc) gs (set_contract true 3 gs)
| ie_push gs p :
    item_effect loc idx (item_push loc) gs (set_current_position p gs).

(** The opposing backend accepts the proposal of this turn. *)
Definition accepted (loc : Locale) (inp : TurnInput) : bool :=
  bool_decide (p_communication (parsed inp) = Some (comm_negotiate loc))
  && str_contains (accept_keyword loc) (lower (opponent_response inp)).

(** The decision activates Reverse and the player holds one. *)
Definition activates_reverse (loc : Locale) (inp : TurnInput) (player : Player) : Prop :=
  p_item (parsed inp) = Some (item_reverse loc) ∧ item_reverse loc ∈ items player.

(** The ways an activation fails. *)
Inductive failed_activation (loc : Locale) (player : Player) (gs : GameState)
    : option string → option string → Prop :=
| fa_none param :
    failed_activation loc player gs None param
| fa_absent item param :
    item ∉ items player →
    failed_activation loc player gs (Some item) param
| fa_unrecognized item param :
    item ∈ items player → item ∉ five_items loc →
    failed_activation loc player gs (Some item) param
| fa_malformed param e :
    item_check loc ∈ items player → py_int param = Raise e →
    failed_activation loc player gs (Some (item_check loc)) param
| fa_out_of_range param n :
    item_check loc ∈ items player → py_int param = Ok n →
    n - 1 < 0 ∨ n - 1 >= chamber_count gs →
    failed_activation loc player gs (Some (item_check loc)) param.

(** Every backend that the configurations name can be created. *)
Definition backends_created (w : World) (configs : list (string * option string)) : Prop :=
  Forall (fun config => ∀ provider, snd config = Some provider →
                          create_llm_client w provider = Ok provider) configs.

(** The player that [Player.__init__] returns. *)
Definition new_player (config : string * option string) : Player :=
  mkPlayer (fst config) (snd config) [] true.

(** ** Sample states *)

(** A world in which the configuration loads, every provider has its key
    and every client can be built. *)
Definition sample_world : World :=
  mkWorld None (fun _ => Ok (Some "sk-sample")) (fun _ _ => None).

(** A world without [config.json]. *)
Definition bare_world : World :=
  mkWorld (Some FileNotFoundError) (fun _ => Ok None) (fun _ _ => None).

(** Six chambers, bullets in chambers 0 and 2, trigger on chamber 0. *)
Definition sample_gun : GameState :=
  set_current_position 0 (set_bullets [0; 2] (GameState_init 6)).

(** Bill and Lee, both backed by a model, holding the given items. *)
Definition sample_duel (gs : GameState) (bill_items lee_items : list string)
    : GameController :=
  mkGameController 6 gs
    [mkPlayer "Bill" (Some "anthropic") bill_items true;
     mkPlayer "Lee" (Some "openai") lee_items true]
    0 [].

(** A decision: item, parameter, communication, message, target. *)
Definition decision (item param comm msg target : option string) (response : string)
    : TurnInput :=
  mkTurnInput (mkParsed item param comm msg target) response 0.

(** Bill holds one Check; the gun is [sample_gun]. *)
Definition check_duel (loc : Locale) : GameController :=
  sample_duel sample_gun [item_check loc] [].

(** Bill holds one ExtraBullet. *)
Definition bullet_duel (loc : Locale) : GameController :=
  sample_duel sample_gun [item_bullet loc] [].

(** The contract is on its last turn and the trigger is on a bullet. *)
Definition last_contract_turn_duel : GameController :=
  sample_duel (set_contract true 1 sample_gun) [] [].

(** No item, silence, fire at the opponent: what [parse_response] yields
    for a reply without any section. *)
Definition default_decision : TurnInput := decision None None None None None "".

(** Bill proposes a draw and Lee's reply spells the keyword in capitals. *)
Definition accepted_negotiation : TurnInput :=
  decision None None (Some "Negotiate") (Some "shall we call it a draw?") None "I AGREE.".

(** A gun without bullets: every shot misses. *)
Definition empty_duel : GameController := sample_duel (GameState_init 6) [] [].

(** One bullet in chamber 3, trigger on 0; Bill and Lee hold one Reverse each. *)
Definition reverse_duel (loc : Locale) : GameController :=
  sample_duel (set_bullets [3] (GameState_init 6)) [item_reverse loc] [item_reverse loc].

(** Activate Reverse, stay silent, fire at the opponent. *)
Definition reverse_decision (loc : Locale) : TurnInput :=
  decision (Some (item_reverse loc)) None None None (Some (target_opponent loc)) "".

(** ** Notions used in the further properties *)

(** A well-formed gun: it has chambers, the trigger is on one of them, the
    bullets sit in distinct chambers and are kept in ascending order. *)
Definition gun_ok (gs : GameState) : Prop :=
  0 < chamber_count gs
  ∧ 0 <= current_position gs < chamber_count gs
  ∧ Forall (fun b => 0 <= b < chamber_count gs) (bullets gs)
  ∧ NoDup (bullets gs)
  ∧ Sorted Z.le (bullets gs).

(** [n] calls of [fire] in a row, with their outcomes in order. *)
Fixpoint fires (loc : Locale) (n : nat) (gs : GameState) : result (list bool * GameState) :=
  match n with
  | O => Ok ([], gs)
  | S n' =>
      '(hit, gs) ← fire loc gs;
      '(hits, gs) ← fires loc n' gs;
      Ok (hit :: hits, gs)
  end.

(** What a step may do to the roster: every player keeps its place, its
    name and its backend, and nobody who is dead comes back to life. *)
Definition roster_kept (before after : list Player) : Prop :=
  length after = length before
  ∧ ∀ i p, before !! i = Some p →
      ∃ p', after !! i = Some p' ∧ name p' = name p ∧ llm_client p' = llm_client p
        ∧ (alive p = false → alive p' = false).

(** What a step may do to the game state: the chamber count is fixed, no
    bullet is taken out, both logs only grow at their end, and a
    well-formed gun stays well formed. *)
Definition state_kept (before after : GameState) : Prop :=
  chamber_count after = chamber_count before
  ∧ (∀ b, b ∈ bullets before → b ∈ bullets after)
  ∧ logs before `prefix_of` logs after
  ∧ player_logs before `prefix_of` player_logs after
  ∧ (gun_ok before → gun_ok after).

(** Bill and Lee without backends. *)
Definition human_duel : GameController :=
  mkGameController 6 sample_gun
    [mkPlayer "Bill" None ["Push"] true; mkPlayer "Lee" None [] true] 0 [].

(** Bill has a backend, Lee has none. *)
Definition mixed_duel : GameController :=
  mkGameController 6 sample_gun
    [mkPlayer "Bill" (Some "openai") [] true; mkPlayer "Lee" None [] true] 0 [].

(** Two chambers, both loaded. *)
Definition full_gun : GameState := set_bullets [0; 1] (GameState_init 2).

(** * Properties *)

(** ** The chamber *)

Lemma py_mod_Ok a b : b ≠ 0 → py_mod a b = Ok (a `mod` b).
Proof. intros Hb. unfold py_mod. by rewrite decide_False. Qed.

Lemma fire_Ok loc gs :
  chamber_count gs ≠ 0 →
  ∃ gs', fire loc gs = Ok (bool_decide (current_position gs ∈ bullets gs), gs')
    ∧ chamber_count gs' = chamber_count gs
    ∧ bullets gs' = bullets gs
    ∧ current_position gs' = (current_position gs + 1) `mod` chamber_count gs
    ∧ reverse_active gs' = reverse_active gs
    ∧ last_active_player gs' = last_active_player gs
    ∧ reset_reverse gs' = reset_reverse gs.
Proof.
  intros Hn. unfold fire. cbn. rewrite py_mod_Ok by done. cbn.
  eexists. split; [reflexivity|].
  destruct (contract_active gs); [case_decide|]; cbn; done.
Qed.

(** C5. For every gun (chamber count non-zero), [fire] reports a hit
    exactly when the trigger position holds a bullet, and whatever the
    outcome it moves the trigger to the next chamber modulo the chamber
    count.  With six chambers, bullets in 0 and 2 and the trigger on 0, the
    first shot hits and leaves the trigger on 1, the second misses and
    leaves it on 2. *)
Theorem fire_hit_iff_bullet_and_advances loc gs (Hn : chamber_count gs ≠ 0) :
  (∃ hit gs', fire loc gs = Ok (hit, gs')
     ∧ (hit = true ↔ current_position gs ∈ bullets gs)
     ∧ current_position gs' = (current_position gs + 1) `mod` chamber_count gs)
  ∧ (chamber_count gs = 6 → bullets gs = [0; 2] → current_position gs = 0 →
     ∃ gs1 gs2, fire loc gs = Ok (true, gs1) ∧ current_position gs1 = 1
       ∧ fire loc gs1 = Ok (false, gs2) ∧ current_position gs2 = 2).
Proof.
  split.
  - destruct (fire_Ok loc gs Hn) as (gs' & Hf & _ & _ & Hp & _).
    exists (bool_decide (current_position gs ∈ bullets gs)), gs'.
    split; [done|]. split; [|done]. apply bool_decide_eq_true.
  - intros H6 Hb H0.
    destruct (fire_Ok loc gs Hn) as (gs1 & Hf1 & Hc1 & Hb1 & Hp1 & _).
    assert (Hn1 : chamber_count gs1 ≠ 0) by congruence.
    destruct (fire_Ok loc gs1 Hn1) as (gs2 & Hf2 & _ & _ & Hp2 & _).
    rewrite H6, H0 in Hp1. change ((0 + 1) `mod` 6) with 1 in Hp1.
    rewrite Hc1, H6, Hp1 in Hp2. change ((1 + 1) `mod` 6) with 2 in Hp2.
    exists gs1, gs2. rewrite Hf1, Hf2, Hb1, Hp1, Hb, H0.
    repeat split; done.
Qed.

Lemma fire_hit_iff_bullet_and_advances_witness :
  (∃ hit gs', fire EN sample_gun = Ok (hit, gs')
     ∧ (hit = true ↔ current_position sample_gun ∈ bullets sample_gun)
     ∧ current_position gs' = (current_position sample_gun + 1) `mod` chamber_count sample_gun)
  ∧ (chamber_count sample_gun = 6 → bullets sample_gun = [0; 2] →
     current_position sample_gun = 0 →
     ∃ gs1 gs2, fire EN sample_gun = Ok (true, gs1) ∧ current_position gs1 = 1
       ∧ fire EN gs1 = Ok (false, gs2) ∧ current_position gs2 = 2).
Proof. apply (fire_hit_iff_bullet_and_advances EN sample_gun). vm_compute. discriminate. Defined.




(** ** The contract *)

Lemma fire_contract loc gs :
  chamber_count gs ≠ 0 → contract_active gs = true →
  ∃ gs', fire loc gs = Ok (bool_decide (current_position gs ∈ bullets gs), gs')
    ∧ contract_turns_left gs' = contract_turns_left gs - 1
    ∧ contract_active gs' = negb (bool_decide (contract_turns_left gs - 1 <= 0)).
Proof.
  intros Hn Ha. unfold fire. cbn. rewrite py_mod_Ok by done. cbn. rewrite Ha.
  eexists. split; [reflexivity|].
  case_decide; cbn; [rewrite bool_decide_eq_true_2|rewrite bool_decide_eq_false_2]; done.
Qed.

Lemma fire_no_contract loc gs :
  chamber_count gs ≠ 0 → contract_active gs = false →
  ∃ gs', fire loc gs = Ok (bool_decide (current_position gs ∈ bullets gs), gs')
    ∧ contract_turns_left gs' = contract_turns_left gs
    ∧ contract_active gs' = false.
Proof.
  intros Hn Ha. unfold fire. cbn. rewrite py_mod_Ok by done. cbn. rewrite Ha.
  eexists. split; [reflexivity|]. done.
Qed.

Lemma activate_contract_ok loc gs : contract_ok (snd (activate_contract loc gs)).
Proof. unfold contract_ok. cbn. lia. Qed.

Lemma fire_Ok_chambers loc gs r : fire loc gs = Ok r → chamber_count gs ≠ 0.
Proof.
  intros Hf H0. unfold fire in Hf. cbn in Hf. unfold py_mod in Hf.
  rewrite decide_True in Hf by done. discriminate.
Qed.

Lemma fire_contract_ok loc gs hit gs' :
  contract_ok gs → fire loc gs = Ok (hit, gs') → contract_ok gs'.
Proof.
  intros Hok Hf. pose proof (fire_Ok_chambers _ _ _ Hf) as Hn.
  unfold contract_ok. destruct (contract_active gs) eqn:Ha.
  - destruct (fire_contract loc gs Hn Ha) as (g & Hg & Ht & Hact).
    rewrite Hf in Hg. injection Hg as _ ->. rewrite Hact, Ht.
    intros Hb. apply negb_true_iff, bool_decide_eq_false in Hb. lia.
  - destruct (fire_no_contract loc gs Hn Ha) as (g & Hg & _ & Hact).
    rewrite Hf in Hg. injection Hg as _ ->. by rewrite Hact.
Qed.

(** ** Items *)

Lemma five_items_NoDup loc : NoDup (five_items loc).
Proof. destruct loc; apply (bool_decide_unpack _); by vm_compute. Qed.

Lemma check_not_bullet loc : item_check loc ≠ item_bullet loc.
Proof. destruct loc; discriminate. Qed.

(** [int] on some parameters: underscores and blanks, full-width and
    Arabic-Indic digits, a no-break space; the separator U+001C, a doubled
    underscore, a sign apart from its digits, 4301 digits, None. *)
Lemma py_int_samples :
  py_int (Some " 1_2 ") = Ok 12
  ∧ py_int (Some "３") = Ok 3
  ∧ py_int (Some "-٣٤") = Ok (-34)
  ∧ py_int (Some (String "194" (String "160" "7"))) = Ok 7
  ∧ py_int (Some (String "028" "3")) = Raise ValueError
  ∧ py_int (Some "1__2") = Raise ValueError
  ∧ py_int (Some "- 3") = Raise ValueError
  ∧ py_int (Some "") = Raise ValueError
  ∧ py_int (Some (String.concat "" (replicate 4300 "0"))) = Ok 0
  ∧ py_int (Some (String.concat "" (replicate 4301 "0"))) = Raise ValueError
  ∧ py_int None = Raise TypeError.
Proof. split_and!; by vm_compute. Qed.

Lemma py_int_raises param e : py_int param = Raise e → e = ValueError ∨ e = TypeError.
Proof.
  unfold py_int. destruct param as [s|]; [|intros [= <-]; by right].
  destruct (code_points s) as [cps|]; [|intros [= <-]; by left].
  destruct (long_from_string _); [discriminate|intros [= <-]; by left].
Qed.

(** An item the player does not hold: nothing happens. *)
Lemma handle_item_usage_absent loc r idx player item param c :
  get_player idx c = Ok player → item ∉ items player →
  handle_item_usage loc r idx (Some item) param c = Ok (msg_invalid_item loc, c).
Proof.
  intros Hp Hi. unfold handle_item_usage. rewrite Hp. cbn.
  by rewrite decide_True.
Qed.

(** A held item that is none of the five: only the two closing entries. *)
Lemma handle_item_usage_unrecognized loc r idx player item param c :
  get_player idx c = Ok player → item ∈ items player → item ∉ five_items loc →
  handle_item_usage loc r idx (Some item) param c
    = Ok ("", record_item_use loc (name player) item "" c).
Proof.
  intros Hp Hi Hn. unfold handle_item_usage. rewrite Hp. cbn.
  rewrite decide_False by (by intros ?).
  unfold five_items in Hn. rewrite !not_elem_of_cons in Hn.
  destruct Hn as (H1 & H2 & H3 & H4 & H5 & _).
  rewrite !(decide_False (P := item = _)) by done. reflexivity.
Qed.

(** Check with a parameter that [int] rejects. *)
Lemma handle_item_usage_malformed loc r idx player param e c :
  get_player idx c = Ok player → item_check loc ∈ items player →
  py_int param = Raise e →
  handle_item_usage loc r idx (Some (item_check loc)) param c
    = Ok (msg_check_needs_param loc,
          record_item_use loc (name player) (item_check loc) (msg_check_needs_param loc) c).
Proof.
  intros Hp Hi He. unfold handle_item_usage. rewrite Hp. cbn.
  rewrite decide_False by (by intros ?).
  rewrite decide_False by apply check_not_bullet.
  rewrite decide_True by done.
  unfold check_branch. rewrite He. cbn.
  destruct (py_int_raises _ _ He) as [-> | ->]; reflexivity.
Qed.

(** Check with a position outside the chambers. *)
Lemma handle_item_usage_out_of_range loc r idx player param n c :
  get_player idx c = Ok player → item_check loc ∈ items player →
  py_int param = Ok n → n - 1 < 0 ∨ n - 1 >= chamber_count (game_state c) →
  handle_item_usage loc r idx (Some (item_check loc)) param c
    = Ok (msg_invalid_position loc (chamber_count (game_state c)),
          record_item_use loc (name player) (item_check loc)
            (msg_invalid_position loc (chamber_count (game_state c))) c).
Proof.
  intros Hp Hi He Hr. unfold handle_item_usage. rewrite Hp. cbn.
  rewrite decide_False by (by intros ?).
  rewrite decide_False by apply check_not_bullet.
  rewrite decide_True by done.
  unfold check_branch. rewrite He. cbn.
  rewrite decide_True by done. reflexivity.
Qed.

(** Every failed activation returns a message and leaves the controller
    as it was, up to the two closing log entries. *)
Lemma handle_item_usage_failed loc r idx player item param c :
  get_player idx c = Ok player →
  failed_activation loc player (game_state c) item param →
  ∃ msg c', handle_item_usage loc r idx item param c = Ok (msg, c')
    ∧ (c' = c ∨ ∃ it spec_message, item = Some it
                 ∧ c' = record_item_use loc (name player) it spec_message c).
Proof.
  intros Hp Hf. destruct Hf.
  - exists (msg_invalid_item loc), c. unfold handle_item_usage. rewrite Hp. cbn. by split; [|left].
  - eexists _, _. split; [by eapply handle_item_usage_absent|by left].
  - eexists _, _. split; [by eapply handle_item_usage_unrecognized|right; eauto].
  - eexists _, _. split; [by eapply handle_item_usage_malformed|right; eauto].
  - eexists _, _. split; [by eapply handle_item_usage_out_of_range|right; eauto].
Qed.

Lemma record_item_use_players loc n it m c :
  players (record_item_use loc n it m c) = players c.
Proof. reflexivity. Qed.

(** C8, as the code has it.  A failed activation (no item, an item the
    player does not hold, a held item that is none of the five, Check with
    a parameter that [int] rejects, Check with a position outside the
    chambers) raises nothing; no item is consumed, both inventories, the
    gun (chamber count, bullets, trigger position) and the contract and
    reverse state are as before; and the turn goes on with its
    communication and fire steps.  When no item is named or the named item
    is not held, nothing at all changes and the answer is the invalid-item
    message.  In the other cases the attempt is recorded: the participant
    log gains "<player> used <item>" and the spectator log the same
    followed by the answer, which is the empty string for an item that is
    none of the five, the request for a valid position when [int] rejects
    the parameter of a Check, and the range 1-N when the position is
    outside the chambers. *)
Theorem failed_activation_changes_logs_only loc inp idx player c
    (Hp : get_player idx c = Ok player)
    (Hllm : is_Some (llm_client player))
    (Hf : failed_activation loc player (game_state c)
            (p_item (parsed inp)) (p_item_param (parsed inp))) :
  ∃ msg c1,
    handle_item_usage loc (r_choice inp) idx (p_item (parsed inp))
      (p_item_param (parsed inp)) c = Ok (msg, c1)
    ∧ players c1 = players c
    ∧ chamber_count (game_state c1) = chamber_count (game_state c)
    ∧ bullets (game_state c1) = bullets (game_state c)
    ∧ current_position (game_state c1) = current_position (game_state c)
    ∧ contract_active (game_state c1) = contract_active (game_state c)
    ∧ contract_turns_left (game_state c1) = contract_turns_left (game_state c)
    ∧ reverse_active (game_state c1) = reverse_active (game_state c)
    ∧ last_active_player (game_state c1) = last_active_player (game_state c)
    ∧ (∀ it, p_item (parsed inp) = Some it → it ∉ items player →
         c1 = c ∧ msg = msg_invalid_item loc)
    ∧ (p_item (parsed inp) = None → c1 = c ∧ msg = msg_invalid_item loc)
    ∧ (∀ it, p_item (parsed inp) = Some it → it ∈ items player →
         logs (game_state c1)
           = logs (game_state c) ++ [msg_used_spec loc (name player) it msg]
         ∧ player_logs (game_state c1)
             = player_logs (game_state c) ++ [msg_used_player loc (name player) it]
         ∧ (it ∉ five_items loc → msg = "")
         ∧ (it = item_check loc →
            (∀ e, py_int (p_item_param (parsed inp)) = Raise e →
                  msg = msg_check_needs_param loc)
            ∧ (∀ n, py_int (p_item_param (parsed inp)) = Ok n →
                    msg = msg_invalid_position loc (chamber_count (game_state c)))))
    ∧ ∃ c2, item_step loc inp idx c = Ok c2 ∧ (c2 = c ∨ c2 = c1)
        ∧ process_player_turn loc inp idx c =
            '(go_on, c3) ← communication_step loc inp idx (get_opponent idx c) player c2;
            if (go_on : bool) then fire_step loc inp idx (get_opponent idx c) player c3
            else Ok (false, c3).
Proof.
  assert (Hgo : ∀ msg c1,
            handle_item_usage loc (r_choice inp) idx (p_item (parsed inp))
              (p_item_param (parsed inp)) c = Ok (msg, c1) →
            ∃ c2, item_step loc inp idx c = Ok c2 ∧ (c2 = c ∨ c2 = c1)
              ∧ process_player_turn loc inp idx c =
                  '(go_on, c3) ← communication_step loc inp idx (get_opponent idx c) player c2;
                  if (go_on : bool) then fire_step loc inp idx (get_opponent idx c) player c3
                  else Ok (false, c3)).
  { intros msg c1 Hh.
    assert (Hturn : ∃ c2, item_step loc inp idx c = Ok c2 ∧ (c2 = c ∨ c2 = c1)).
    { unfold item_step. destruct (p_item (parsed inp)) as [it|]; [|by eauto].
      case_decide; [by eauto|]. rewrite Hh. cbn. eauto. }
    destruct Hturn as (c2 & Hs & Hc2). exists c2. do 2 (split; [done|]).
    unfold process_player_turn. rewrite Hp. cbn. destruct Hllm as [l ->].
    rewrite Hs. reflexivity. }
  assert (Hfive : item_check loc ∈ five_items loc).
  { unfold five_items. rewrite !elem_of_cons. auto. }
  remember (p_item (parsed inp)) as item eqn:Hitem.
  remember (p_item_param (parsed inp)) as param eqn:Hparam.
  destruct Hf as [param | item param Hnin | item param Hin Hun
                 | param e Hin He | param n Hin Hn Hr].
  - assert (Hh : handle_item_usage loc (r_choice inp) idx None param c
                 = Ok (msg_invalid_item loc, c)).
    { unfold handle_item_usage. rewrite Hp. reflexivity. }
    exists (msg_invalid_item loc), c. split; [done|].
    repeat (split; [done|]). exact (Hgo _ _ Hh).
  - pose proof (handle_item_usage_absent loc (r_choice inp) idx player item param c Hp Hnin)
      as Hh.
    exists (msg_invalid_item loc), c. split; [done|].
    do 8 (split; [done|]). split; [done|]. split; [done|]. split; [|exact (Hgo _ _ Hh)].
    intros it [= <-] Hit. done.
  - pose proof (handle_item_usage_unrecognized loc (r_choice inp) idx player item param c
                  Hp Hin Hun) as Hh.
    eexists _, _. split; [exact Hh|].
    do 8 (split; [reflexivity|]). split; [by intros it [= <-] Hit|].
    split; [done|]. split; [|exact (Hgo _ _ Hh)].
    intros it [= <-] _. do 3 (split; [reflexivity|]).
    intros ->. done.
  - pose proof (handle_item_usage_malformed loc (r_choice inp) idx player param e c
                  Hp Hin He) as Hh.
    eexists _, _. split; [exact Hh|].
    do 8 (split; [reflexivity|]). split; [by intros it [= <-] Hit|].
    split; [done|]. split; [|exact (Hgo _ _ Hh)].
    intros it [= <-] _. do 2 (split; [reflexivity|]).
    split; [done|]. intros _. split; [done|]. intros n Hn. congruence.
  - pose proof (handle_item_usage_out_of_range loc (r_choice inp) idx player param n c
                  Hp Hin Hn Hr) as Hh.
    eexists _, _. split; [exact Hh|].
    do 8 (split; [reflexivity|]). split; [by intros it [= <-] Hit|].
    split; [done|]. split; [|exact (Hgo _ _ Hh)].
    intros it [= <-] _. do 2 (split; [reflexivity|]).
    split; [done|]. intros _. split; [|done]. intros e He. congruence.
Qed.

Lemma failed_activation_changes_logs_only_witness :
  ∃ msg c1,
    handle_item_usage EN 0 0 (Some "Check") (Some "7") (check_duel EN) = Ok (msg, c1)
    ∧ players c1 = players (check_duel EN)
    ∧ bullets (game_state c1) = [0; 2]
    ∧ msg = "Invalid position, should be 1-6".
Proof.
  destruct (failed_activation_changes_logs_only EN
              (decision (Some "Check") (Some "7") None None None "") 0
              (mkPlayer "Bill" (Some "anthropic") ["Check"] true) (check_duel EN))
    as (msg & c1 & Hh & Hpl & _ & Hb & _ & _ & _ & _ & _ & _ & _ & Hheld & _).
  - reflexivity.
  - eexists. reflexivity.
  - apply fa_out_of_range with (n := 7).
    + apply list_elem_of_here.
    + reflexivity.
    + right. cbn. lia.
  - exists msg, c1. split; [exact Hh|]. split; [exact Hpl|]. split; [exact Hb|].
    destruct (Hheld "Check" eq_refl (list_elem_of_here _ _)) as (_ & _ & _ & Hcheck).
    destruct (Hcheck eq_refl) as (_ & Hrange). exact (Hrange 7 eq_refl).
Defined.

(** C8, as the spec words it, fails: Check with position 7 on a
    six-chamber gun fails, the item stays in the inventory, and yet the
    activation is no no-op, for both logs record that Bill used Check.
    And an item that Bill holds but that is none of the five kinds is
    recorded in the same way and answered with the empty string, which
    describes nothing. *)
Lemma out_of_range_check_is_logged :
  (∃ msg c1,
     handle_item_usage EN 0 0 (Some "Check") (Some "7") (check_duel EN) = Ok (msg, c1)
     ∧ items <$> players c1 = [["Check"]; []]
     ∧ logs (game_state (check_duel EN)) = []
     ∧ player_logs (game_state (check_duel EN)) = []
     ∧ logs (game_state c1) = ["Bill used Check: Invalid position, should be 1-6"]
     ∧ player_logs (game_state c1) = ["Bill used Check"]
     ∧ c1 ≠ check_duel EN)
  ∧ (∃ c1,
       handle_item_usage EN 0 0 (Some "Knife") None (sample_duel sample_gun ["Knife"] [])
         = Ok ("", c1)
       ∧ items <$> players c1 = [["Knife"]; []]
       ∧ logs (game_state c1) = ["Bill used Knife: "]
       ∧ player_logs (game_state c1) = ["Bill used Knife"]).
Proof.
  split.
  - eexists _, _. split; [vm_compute; reflexivity|].
    repeat split; try reflexivity. discriminate.
  - eexists. split; [vm_compute; reflexivity|]. by repeat split.
Qed.

(** C2, on the code.  A successful Check or ExtraBullet appends to the
    participant log the entry "<player> used <item>", which spells out the
    item: in both variants, after Bill's Check of chamber 3 the participant
    log reads "Bill used Check", and after his ExtraBullet it reads "Bill
    used Bullet". *)
Theorem participant_log_names_the_item :
  (∃ msg c1,
     handle_item_usage EN 0 0 (Some "Check") (Some "3") (check_duel EN) = Ok (msg, c1)
     ∧ items <$> players c1 = [[]; []]
     ∧ player_logs (game_state c1) = ["Bill used Check"]
     ∧ str_contains (item_check EN) "Bill used Check" = true)
  ∧ (∃ msg c1,
     handle_item_usage EN 0 0 (Some "Bullet") None (bullet_duel EN) = Ok (msg, c1)
     ∧ items <$> players c1 = [[]; []]
     ∧ player_logs (game_state c1) = ["Bill used Bullet"]
     ∧ str_contains (item_bullet EN) "Bill used Bullet" = true)
  ∧ (∃ msg c1,
     handle_item_usage ZH 0 0 (Some "查看") (Some "3") (check_duel ZH) = Ok (msg, c1)
     ∧ items <$> players c1 = [[]; []]
     ∧ player_logs (game_state c1) = ["Bill 使用了 查看"]
     ∧ str_contains (item_check ZH) "Bill 使用了 查看" = true)
  ∧ (∃ msg c1,
     handle_item_usage ZH 0 0 (Some "子弹") None (bullet_duel ZH) = Ok (msg, c1)
     ∧ items <$> players c1 = [[]; []]
     ∧ player_logs (game_state c1) = ["Bill 使用了 子弹"]
     ∧ str_contains (item_bullet ZH) "Bill 使用了 子弹" = true).
Proof.
  repeat split; eexists _, _; (split; [vm_compute; reflexivity|]);
    repeat split; reflexivity.
Qed.

(** ** Loading the gun *)

Lemma randint_range a b r n : randint a b r = Ok n → a <= n <= b.
Proof.
  unfold randint. case_decide; [|done]. intros [= <-].
  pose proof (Z.mod_pos_bound (Z.of_nat r) (b - a + 1)). lia.
Qed.

Lemma randint_Ok a b r : a <= b → ∃ n, randint a b r = Ok n ∧ a <= n <= b.
Proof.
  intros Hab. unfold randint. rewrite decide_True by done.
  eexists. split; [done|].
  pose proof (Z.mod_pos_bound (Z.of_nat r) (b - a + 1)). lia.
Qed.

(** C3, on the code of [game_en.py].  With two chambers [initialize_gun]
    asks for [random.randint(1, 2 // 3)], an empty range, and raises
    [ValueError] whatever the generator draws; with six chambers it never
    loads the three bullets that floor(6/2) allows. *)
Theorem initialize_gun_en_divides_by_three :
  (∀ r_count r_shuffle r_pos,
     initialize_gun EN r_count r_shuffle r_pos (GameState_init 2) = Raise ValueError)
  ∧ (∀ r_count r_shuffle r_pos gs',
     initialize_gun EN r_count r_shuffle r_pos (GameState_init 6) = Ok gs' →
     (length (bullets gs') ≤ 2)%nat).
Proof.
  split; [reflexivity|].
  intros r_count r_shuffle r_pos gs'. unfold initialize_gun.
  change (chamber_count (GameState_init 6) `div` bullet_divisor EN) with 2.
  destruct (randint 1 2 r_count) as [k|] eqn:Hk; [|done]. cbn.
  destruct (randint 0 (6 - 1) r_pos) as [pos|]; [|done]. cbn.
  intros [= <-]. cbn. apply randint_range in Hk.
  unfold sorted. rewrite merge_sort_Permutation.
  unfold py_take. rewrite decide_True by lia. rewrite length_take. lia.
Qed.

(** ** The fire step *)

(** Everything [fire] does to the fields other than the logs. *)
Lemma fire_fields loc gs :
  chamber_count gs ≠ 0 →
  ∃ gs', fire loc gs = Ok (bool_decide (current_position gs ∈ bullets gs), gs')
    ∧ chamber_count gs' = chamber_count gs
    ∧ bullets gs' = bullets gs
    ∧ current_position gs' = (current_position gs + 1) `mod` chamber_count gs
    ∧ contract_turns_left gs'
        = (if contract_active gs then contract_turns_left gs - 1 else contract_turns_left gs)
    ∧ contract_active gs'
        = contract_active gs && negb (bool_decide (contract_turns_left gs - 1 <= 0))
    ∧ reverse_active gs' = reverse_active gs
    ∧ last_active_player gs' = last_active_player gs
    ∧ reset_reverse gs' = reset_reverse gs.
Proof.
  intros Hn.
  destruct (fire_Ok loc gs Hn) as (gs' & Hf & Hc & Hb & Hp & Hr & Hl & Hrr).
  exists gs'. repeat (split; [assumption|]).
  destruct (contract_active gs) eqn:Ha.
  - destruct (fire_contract loc gs Hn Ha) as (g & Hg & Ht & Hact).
    rewrite Hf in Hg. injection Hg as <-. by rewrite Ht, Hact.
  - destruct (fire_no_contract loc gs Hn Ha) as (g & Hg & Ht & Hact).
    rewrite Hf in Hg. injection Hg as <-. by rewrite Ht, Hact.
Qed.

Lemma shots_app l1 l2 : shots (l1 ++ l2) = shots l1 ++ shots l2.
Proof. unfold shots. apply omap_app. Qed.

Lemma fire_step_spec loc inp idx opp player c :
  chamber_count (game_state c) ≠ 0 → (opp < length (players c))%nat →
  reset_ok (game_state c) →
  let gs := game_state c in
  let target := final_target loc inp idx gs in
  let hit := bool_decide (current_position gs ∈ bullets gs) in
  ∃ c', fire_step loc inp idx opp player c = Ok (negb hit, c')
    ∧ shots (console c') = shots (console c) ++ [(name player, target)]
    ∧ players c'
        = (if hit then
             alter (set_alive false)
               (if decide (target = target_self loc) then idx else opp) (players c)
           else players c)
    ∧ reverse_active (game_state c') = (if is_flipped idx gs then false else reverse_active gs)
    ∧ last_active_player (game_state c') = last_active_player gs
    ∧ reset_ok (game_state c')
    ∧ chamber_count (game_state c') = chamber_count gs
    ∧ bullets (game_state c') = bullets gs
    ∧ current_position (game_state c') = (current_position gs + 1) `mod` chamber_count gs
    ∧ contract_turns_left (game_state c')
        = (if contract_active gs then contract_turns_left gs - 1 else contract_turns_left gs)
    ∧ contract_active (game_state c')
        = contract_active gs && negb (bool_decide (contract_turns_left gs - 1 <= 0))
    ∧ current_player_idx c' = current_player_idx c
    ∧ (if hit then PHit ∈ console c' else True)
    ∧ (∃ out, console c' = console c ++ out).
Proof.
  intros Hn Hopp Hrs gs target hit.
  destruct (lookup_lt_is_Some_2 (players c) opp Hopp) as [opponent Hopponent].
  unfold fire_step, reversed_target.
  fold (declared_target loc inp). fold (flip_target loc (declared_target loc inp)).
  fold (is_flipped idx (game_state c)).
  subst target. unfold final_target. fold gs.
  destruct (is_flipped idx gs) eqn:Hfl; cbn -[fire].
  - destruct (fire_fields loc
                (set_reset_reverse (Some false)
                   (set_reverse_active false (set_reset_reverse (Some true) gs))))
      as (gs' & Hf & Hc & Hb & Hp & Ht & Ha & Hr & Hl & Hrr); [done|].
    fold gs. cbn -[fire] in Hf. fold hit in Hf. rewrite Hf.
    cbn in Hc, Hb, Hp, Ht, Ha, Hr, Hl, Hrr.
    destruct hit; cbn;
      [destruct (decide (flip_target loc (declared_target loc inp) = target_self loc));
       [|unfold get_player; cbn; rewrite Hopponent; cbn]|];
      (eexists; split; [reflexivity|]; cbn; rewrite !shots_app; cbn;
       rewrite ?app_nil_r; unfold reset_ok; rewrite Hrr; split_and!; try done;
       lazymatch goal with
       | |- ∃ _, _ => eexists; rewrite <- ?app_assoc; reflexivity
       | |- _ => repeat (apply elem_of_app;
                         first [right; apply list_elem_of_singleton; reflexivity | left])
       end).
  - assert (Hm : match reset_reverse gs with
                 | Some true =>
                     update_game_state
                       (fun gs => set_reset_reverse (Some false) (set_reverse_active false gs)) c
                 | _ => c
                 end = c).
    { unfold reset_ok in Hrs. fold gs in Hrs. by destruct (reset_reverse gs) as [[]|]. }
    fold gs. rewrite Hm. cbn -[fire]. fold gs.
    destruct (fire_fields loc gs Hn)
      as (gs' & Hf & Hc & Hb & Hp & Ht & Ha & Hr & Hl & Hrr).
    fold hit in Hf. rewrite Hf.
    destruct hit; cbn;
      [destruct (decide (declared_target loc inp = target_self loc));
       [|unfold get_player; cbn; rewrite Hopponent; cbn]|];
      (eexists; split; [reflexivity|]; cbn; rewrite !shots_app; cbn;
       rewrite ?app_nil_r; unfold reset_ok; rewrite Hrr; split_and!; try done;
       lazymatch goal with
       | |- ∃ _, _ => eexists; rewrite <- ?app_assoc; reflexivity
       | |- _ => repeat (apply elem_of_app;
                         first [right; apply list_elem_of_singleton; reflexivity | left])
       end).
Qed.

(** ** What a turn can change *)

Lemma fmap_alter_same {A B} (f : A → B) (g : A → A) (i : nat) (l : list A) :
  (∀ x, f (g x) = f x) → f <$> alter g i l = f <$> l.
Proof.
  intros Hfg. revert i. induction l as [|x l IH]; intros [|i]; cbn; f_equal; auto.
Qed.

Lemma remove_item_alive it p : alive (snd (remove_item it p)) = alive p.
Proof. unfold remove_item. by case_decide. Qed.

Lemma remove_item_name it p : name (snd (remove_item it p)) = name p.
Proof. unfold remove_item. by case_decide. Qed.

Lemma remove_item_llm it p : llm_client (snd (remove_item it p)) = llm_client p.
Proof. unfold remove_item. by case_decide. Qed.

Lemma add_bullet_shape loc r gs s1 s2 gs' :
  add_bullet loc r gs = Ok (s1, s2, gs') → gs' = gs ∨ ∃ bs, gs' = set_bullets bs gs.
Proof.
  unfold add_bullet.
  destruct (filter _ _) as [|e es]; [intros [= _ _ <-]; by left|].
  destruct (choice (e :: es) r) as [nb|]; [|done]. cbn.
  intros [= _ _ <-]. right. eauto.
Qed.

Lemma move_position_shape loc gs m gs' :
  move_position loc gs = Ok (m, gs') → ∃ p, gs' = set_current_position p gs.
Proof.
  unfold move_position. destruct (py_mod _ _) as [p|]; [|done]. cbn.
  intros [= _ <-]. eauto.
Qed.

Lemma check_branch_shape loc idx player param c s1 s2 c' :
  check_branch loc idx player param c = Ok (s1, s2, c') →
  c' = c ∨ ∃ m, c' = set_players (alter (fun p => snd (remove_item (item_check loc) p)) idx
                                   (players c))
                       (set_game_state (append_log m (game_state c)) c).
Proof.
  unfold check_branch. destruct (py_int param) as [n|]; [|done]. cbn.
  case_decide; [intros [= _ _ <-]; by left|].
  unfold check_chamber. rewrite decide_False by done. cbn.
  intros [= _ _ <-]. right. eauto.
Qed.

(** The shape of every successful return of [handle_item_usage]. *)
Lemma handle_item_usage_shape loc r idx player item param c msg c' :
  get_player idx c = Ok player →
  handle_item_usage loc r idx item param c = Ok (msg, c') →
  c' = c ∨
  ∃ it spec_message gs1 ps1,
    item = Some it ∧ it ∈ items player
    ∧ item_effect loc idx it (game_state c) gs1
    ∧ (ps1 = players c ∨ ps1 = alter (fun p => snd (remove_item it p)) idx (players c))
    ∧ c' = record_item_use loc (name player) it spec_message
             (set_players ps1 (set_game_state gs1 c)).
Proof.
  intros Hp. unfold handle_item_usage. rewrite Hp. cbn.
  destruct item as [it|]; [|intros [= _ <-]; by left].
  case_decide as Hin; [intros [= _ <-]; by left|].
  intros Hh. right.
  destruct (decide (it = item_bullet loc)) as [->|Hb].
  { destruct (add_bullet loc r _) as [[[s1 s2] gs']|] eqn:Ha; [|done].
    cbn in Hh. injection Hh as _ <-.
    apply add_bullet_shape in Ha. cbn in Ha.
    destruct Ha as [-> | [bs ->]]; eexists _, _, _, _;
      (split; [done|]); (split; [done|]);
      (split; [|split; [right; reflexivity|reflexivity]]); constructor. }
  destruct (decide (it = item_check loc)) as [->|Hc].
  { destruct (check_branch loc idx player param c) as [[[s1 s2] c1]|e] eqn:Hcb.
    - cbn in Hh. injection Hh as _ <-.
      apply check_branch_shape in Hcb. destruct Hcb as [-> | [m ->]].
      + eexists _, _, (game_state c), (players c).
        do 2 (split; [done|]). split; [constructor|]. split; [by left|]. by destruct c.
      + eexists _, _, _, _. do 2 (split; [done|]).
        split; [apply ie_check|]. split; [by right|]. reflexivity.
    - destruct e; try done; cbn in Hh; injection Hh as _ <-;
        eexists _, _, (game_state c), (players c);
        (do 2 (split; [done|])); (split; [constructor|]); (split; [by left|]);
        by destruct c. }
  destruct (decide (it = item_reverse loc)) as [->|Hr].
  { cbn in Hh. injection Hh as _ <-. eexists _, _, _, _. do 2 (split; [done|]).
    split; [apply ie_reverse|]. split; [by right|]. reflexivity. }
  destruct (decide (it = item_contract loc)) as [->|Hct].
  { cbn in Hh. injection Hh as _ <-. eexists _, _, _, _. do 2 (split; [done|]).
    split; [apply ie_contract|]. split; [by right|]. reflexivity. }
  destruct (decide (it = item_push loc)) as [->|Hpu].
  { destruct (move_position loc _) as [[m gs']|] eqn:Hm; [|done].
    cbn in Hh. injection Hh as _ <-.
    apply move_position_shape in Hm. destruct Hm as [p ->].
    eexists _, _, _, _. do 2 (split; [done|]).
    split; [apply ie_push|]. split; [by right|]. reflexivity. }
  cbn in Hh. injection Hh as _ <-.
  eexists _, _, (game_state c), (players c).
  do 2 (split; [done|]). split; [constructor|]. split; [by left|]. by destruct c.
Qed.

Lemma item_effect_frame loc idx it gs gs1 :
  item_effect loc idx it gs gs1 →
  chamber_count gs1 = chamber_count gs
  ∧ reset_reverse gs1 = reset_reverse gs
  ∧ (contract_ok gs → contract_ok gs1)
  ∧ (it ≠ item_reverse loc →
     reverse_active gs1 = reverse_active gs
     ∧ last_active_player gs1 = last_active_player gs).
Proof.
  destruct 1; cbn; repeat split; try done.
Qed.

Lemma item_step_inv loc inp idx player c c1 :
  get_player idx c = Ok player → item_step loc inp idx c = Ok c1 →
  alive <$> players c1 = alive <$> players c
  ∧ name <$> players c1 = name <$> players c
  ∧ llm_client <$> players c1 = llm_client <$> players c
  ∧ chamber_count (game_state c1) = chamber_count (game_state c)
  ∧ reset_reverse (game_state c1) = reset_reverse (game_state c)
  ∧ (contract_ok (game_state c) → contract_ok (game_state c1))
  ∧ current_player_idx c1 = current_player_idx c
  ∧ console c1 = console c
  ∧ (p_item (parsed inp) ≠ Some (item_reverse loc) →
     reverse_active (game_state c1) = reverse_active (game_state c)
     ∧ last_active_player (game_state c1) = last_active_player (game_state c)).
Proof.
  intros Hp. unfold item_step.
  destruct (p_item (parsed inp)) as [it|] eqn:Hit; [|intros [= <-]; done].
  case_decide; [intros [= <-]; done|].
  destruct (handle_item_usage _ _ _ _ _ _) as [[msg c']|] eqn:Hh; [|done].
  cbn. intros [= <-].
  destruct (handle_item_usage_shape _ _ _ _ _ _ _ _ _ Hp Hh)
    as [-> | (it' & sm & gs1 & ps1 & [= <-] & Hin & He & Hps & ->)]; [done|].
  destruct (item_effect_frame _ _ _ _ _ He) as (Hc & Hrr & Hok & Hrev). cbn.
  assert (Hpl : alive <$> ps1 = alive <$> players c
              ∧ name <$> ps1 = name <$> players c
              ∧ llm_client <$> ps1 = llm_client <$> players c).
  { destruct Hps as [-> | ->]; [done|].
    rewrite !fmap_alter_same;
      auto using remove_item_alive, remove_item_name, remove_item_llm. }
  destruct Hpl as (? & ? & ?). split_and!; try done.
  intros Hne. apply Hrev. congruence.
Qed.

(** A turn whose decision does not activate Reverse leaves the flag and
    its owner alone during the item step. *)
Lemma item_step_no_reverse loc inp idx player c c1 :
  get_player idx c = Ok player → ¬ activates_reverse loc inp player →
  item_step loc inp idx c = Ok c1 →
  reverse_active (game_state c1) = reverse_active (game_state c)
  ∧ last_active_player (game_state c1) = last_active_player (game_state c).
Proof.
  intros Hp Hna Hs.
  destruct (decide (p_item (parsed inp) = Some (item_reverse loc))) as [Hit|Hit].
  - assert (Hnin : item_reverse loc ∉ items player).
    { intros Hin. apply Hna. by split. }
    unfold item_step in Hs. rewrite Hit in Hs. case_decide; [by injection Hs as <-|].
    erewrite handle_item_usage_absent in Hs by done. cbn in Hs. by injection Hs as <-.
  - by apply (item_step_inv _ _ _ _ _ _ Hp Hs).
Qed.

(** A successful activation of Reverse raises the flag for the player. *)
Lemma item_step_reverse loc inp idx player c :
  get_player idx c = Ok player → activates_reverse loc inp player →
  ∃ c1, item_step loc inp idx c = Ok c1
    ∧ reverse_active (game_state c1) = true
    ∧ last_active_player (game_state c1) = Some idx.
Proof.
  intros Hp [Hit Hin]. unfold item_step. rewrite Hit.
  rewrite decide_False by (destruct loc; discriminate).
  unfold handle_item_usage. rewrite Hp. cbn.
  rewrite decide_False by (by intros ?).
  rewrite decide_False by (destruct loc; discriminate).
  rewrite decide_False by (destruct loc; discriminate).
  rewrite decide_True by done. cbn.
  eexists. split; [reflexivity|]. done.
Qed.

Lemma choice_cons_Ok {A} (x : A) l r : ∃ y, choice (x :: l) r = Ok y.
Proof.
  unfold choice.
  destruct (lookup_lt_is_Some_2 (x :: l) (r mod length (x :: l))%nat) as [y Hy].
  { apply Nat.mod_upper_bound. done. }
  rewrite Hy. eauto.
Qed.

(** With a gun that has chambers, the item step raises nothing. *)
Lemma item_step_Ok loc inp idx player c :
  get_player idx c = Ok player → chamber_count (game_state c) ≠ 0 →
  ∃ c1, item_step loc inp idx c = Ok c1.
Proof.
  intros Hp Hn. unfold item_step.
  destruct (p_item (parsed inp)) as [it|]; [|eauto].
  case_decide as Hemp; [eauto|].
  unfold handle_item_usage. rewrite Hp. cbn.
  case_decide as Hin; [cbn; eauto|].
  destruct (decide (it = item_bullet loc)) as [Hb|Hb].
  { unfold add_bullet. cbn.
    destruct (filter _ _) as [|x xs]; [cbn; eauto|].
    destruct (choice_cons_Ok x xs (r_choice inp)) as [y ->]. cbn. eauto. }
  destruct (decide (it = item_check loc)) as [Hc|Hc].
  { unfold check_branch. destruct (py_int _) as [k|e] eqn:He; cbn.
    - case_decide as Hrg; [cbn; eauto|].
      unfold check_chamber. rewrite decide_False by done. cbn. eauto.
    - destruct (py_int_raises _ _ He) as [-> | ->]; cbn; eauto. }
  destruct (decide (it = item_reverse loc)) as [Hr|Hr]; [cbn; eauto|].
  destruct (decide (it = item_contract loc)) as [Hct|Hct]; [cbn; eauto|].
  destruct (decide (it = item_push loc)) as [Hpu|Hpu]; [|cbn; eauto].
  unfold move_position. cbn. rewrite py_mod_Ok by done. cbn. eauto.
Qed.

(** ** Communication and negotiation *)

Lemma communication_step_inv loc inp idx opp player c b c' :
  communication_step loc inp idx opp player c = Ok (b, c') →
  b = negb (accepted loc inp)
  ∧ players c' = players c
  ∧ frame (game_state c') = frame (game_state c)
  ∧ shots (console c') = shots (console c)
  ∧ current_player_idx c' = current_player_idx c
  ∧ (b = false → console c' = console c ++ [PNegotiationSuccess])
  ∧ (∃ entries, logs (game_state c') = logs (game_state c) ++ entries
      ∧ player_logs (game_state c') = player_logs (game_state c) ++ entries)
  ∧ (∃ out, console c' = console c ++ out).
Proof.
  unfold communication_step, accepted.
  destruct (decide (p_communication (parsed inp) = Some (comm_negotiate loc))) as [Hn|Hn].
  - rewrite bool_decide_eq_true_2 by done. cbn.
    unfold get_player. cbn. destruct (players c !! opp) as [o|]; [|done]. cbn.
    destruct (llm_client o); [|done].
    destruct (str_contains _ _); intros [= <- <-]; cbn; rewrite ?shots_app, ?app_nil_r;
      (split_and!; try done); [|by eexists| |by eexists];
      eexists [_; _]; rewrite <- !app_assoc; done.
  - rewrite bool_decide_eq_false_2 by done. cbn.
    case_decide; intros [= <- <-]; cbn; (split_and!; try done);
      [by eexists [_]|exists []; by rewrite app_nil_r|by eexists [_]
      |exists []; by rewrite app_nil_r].
Qed.

Lemma communication_step_Ok loc inp idx opp player c :
  (p_communication (parsed inp) = Some (comm_negotiate loc) →
   ∃ o, players c !! opp = Some o ∧ is_Some (llm_client o)) →
  ∃ c', communication_step loc inp idx opp player c = Ok (negb (accepted loc inp), c').
Proof.
  intros Hopp.
  assert (∃ r, communication_step loc inp idx opp player c = Ok r) as [[b c'] Hr].
  { unfold communication_step. case_decide as Hn.
    - destruct (Hopp Hn) as (o & Ho & [l Hl]). unfold get_player. cbn. rewrite Ho. cbn.
      rewrite Hl. destruct (str_contains _ _); eauto.
    - case_decide; eauto. }
  exists c'. rewrite Hr. by destruct (communication_step_inv _ _ _ _ _ _ _ _ Hr) as [-> _].
Qed.

(** The entries a negotiation writes to both logs. *)
Lemma communication_step_negotiate loc inp idx opp player opponent c :
  p_communication (parsed inp) = Some (comm_negotiate loc) →
  players c !! opp = Some opponent → is_Some (llm_client opponent) →
  ∃ c', communication_step loc inp idx opp player c = Ok (negb (accepted loc inp), c')
    ∧ logs (game_state c')
        = logs (game_state c)
            ++ [msg_proposes loc (name player) (default "" (p_message (parsed inp)));
                msg_responds loc (name opponent) (opponent_response inp)]
    ∧ player_logs (game_state c')
        = player_logs (game_state c)
            ++ [msg_proposes loc (name player) (default "" (p_message (parsed inp)));
                msg_responds loc (name opponent) (opponent_response inp)].
Proof.
  intros Hn Ho [l Hl]. unfold communication_step, accepted.
  rewrite decide_True by done. rewrite bool_decide_eq_true_2 by done. cbn.
  unfold get_player. cbn. rewrite Ho. cbn. rewrite Hl.
  destruct (str_contains _ _); eexists; (split; [reflexivity|]); cbn;
    rewrite <- !app_assoc; done.
Qed.

(** ** The loop *)

(** One round of the loop. *)
Lemma game_loop_S loc agent fuel ga tc tp c :
  game_loop loc agent (S fuel) ga tc tp c =
    if ga && (tc <? max_turns)%nat then
      match process_player_turn loc (agent tc) (current_player_idx c) c with
      | Raise e => Some (Raise e)
      | Ok (ga', c') =>
          if negb ga' then
            Some (Ok (mkLoopExit ga' tc (S tp)
                        (if contract_active (game_state c')
                         then snd (check_contract_effect c') else c')))
          else
            match length (players c') with
            | O => Some (Raise ZeroDivisionError)
            | _ =>
                game_loop loc agent fuel ga' (S tc) (S tp)
                  (set_current_player_idx
                     ((current_player_idx c' + 1) mod length (players c'))%nat c')
            end
      end
    else Some (Ok (mkLoopExit ga tc tp c)).
Proof. reflexivity. Qed.

(** A turn that returns [False] ends the loop at once: the turn counter is
    not advanced, no further turn is played. *)
Lemma game_loop_stops loc agent fuel tc tp c c' :
  (tc < max_turns)%nat →
  process_player_turn loc (agent tc) (current_player_idx c) c = Ok (false, c') →
  game_loop loc agent (S fuel) true tc tp c
    = Some (Ok (mkLoopExit false tc (S tp)
                  (if contract_active (game_state c') then snd (check_contract_effect c')
                   else c'))).
Proof.
  intros Htc Ht. rewrite game_loop_S.
  apply Nat.ltb_lt in Htc. rewrite Htc, Ht. reflexivity.
Qed.

Lemma check_contract_effect_shots c :
  shots (console (snd (check_contract_effect c))) = shots (console c).
Proof.
  unfold check_contract_effect. destruct (contract_active _); [|done].
  destruct (filter _ _); [done|]. cbn. rewrite shots_app. cbn. by rewrite app_nil_r.
Qed.

Lemma process_player_turn_unfold loc inp idx player c c1 :
  get_player idx c = Ok player → is_Some (llm_client player) →
  item_step loc inp idx c = Ok c1 →
  process_player_turn loc inp idx c =
    '(go_on, c2) ← communication_step loc inp idx (get_opponent idx c) player c1;
    if (go_on : bool) then fire_step loc inp idx (get_opponent idx c) player c2
    else Ok (false, c2).
Proof.
  intros Hp [l Hl] Hs. unfold process_player_turn. rewrite Hp. cbn. rewrite Hl, Hs.
  reflexivity.
Qed.

Lemma lookup_fmap_eq {A B} (f : A → B) (l1 l2 : list A) i x :
  f <$> l1 = f <$> l2 → l2 !! i = Some x → ∃ y, l1 !! i = Some y ∧ f y = f x.
Proof.
  intros Heq Hx. apply (f_equal (fun l => l !! i)) in Heq.
  rewrite !list_lookup_fmap, Hx in Heq. cbn in Heq.
  destruct (l1 !! i) as [y|]; [|done]. injection Heq as Heq. eauto.
Qed.

Lemma get_opponent_lt idx player c :
  get_player idx c = Ok player → (get_opponent idx c < length (players c))%nat.
Proof.
  unfold get_player, get_opponent. destruct (players c !! idx) eqn:Hl; [|done].
  intros _. apply lookup_lt_Some in Hl. apply Nat.mod_upper_bound. lia.
Qed.

(** X21. The negotiation inside a turn.  On a turn whose communication
    is a negotiation, the proposal and the opponent's reply are appended
    to both logs and nothing else of the game state changes.  If the
    lower-cased reply contains the accept keyword, the turn returns
    [False] right there: the negotiated draw is
    announced, no shot is fired, and the loop of [run_game] is left at once
    without advancing the turn counter.  If the reply lacks the keyword,
    the turn is exactly its fire step, run on that state: one shot is
    fired and decides how the turn ends. *)
Theorem negotiation_accept_ends_decline_fires loc inp idx c player opponent
    (Hp : get_player idx c = Ok player)
    (Hllm : is_Some (llm_client player))
    (Hopp : players c !! get_opponent idx c = Some opponent)
    (Hollm : is_Some (llm_client opponent))
    (Hn : chamber_count (game_state c) ≠ 0)
    (Hrs : reset_ok (game_state c))
    (Hneg : p_communication (parsed inp) = Some (comm_negotiate loc)) :
  let keyword_found := str_contains (accept_keyword loc) (lower (opponent_response inp)) in
  ∃ c1 c2,
    item_step loc inp idx c = Ok c1
    ∧ communication_step loc inp idx (get_opponent idx c) player c1 = Ok (negb keyword_found, c2)
    ∧ logs (game_state c2)
        = logs (game_state c1)
            ++ [msg_proposes loc (name player) (default "" (p_message (parsed inp)));
                msg_responds loc (name opponent) (opponent_response inp)]
    ∧ player_logs (game_state c2)
        = player_logs (game_state c1)
            ++ [msg_proposes loc (name player) (default "" (p_message (parsed inp)));
                msg_responds loc (name opponent) (opponent_response inp)]
    ∧ frame (game_state c2) = frame (game_state c1)
    ∧ players c2 = players c1
    ∧ (keyword_found = true →
         process_player_turn loc inp idx c = Ok (false, c2)
         ∧ console c2 = console c ++ [PNegotiationSuccess]
         ∧ shots (console c2) = shots (console c)
         ∧ ∀ agent fuel tc tp,
             (tc < max_turns)%nat → agent tc = inp → current_player_idx c = idx →
             ∃ c', game_loop loc agent (S fuel) true tc tp c
                     = Some (Ok (mkLoopExit false tc (S tp) c'))
               ∧ game_state c' = game_state c2
               ∧ shots (console c') = shots (console c)
               ∧ PNegotiationSuccess ∈ console c')
    ∧ (keyword_found = false →
         process_player_turn loc inp idx c
           = fire_step loc inp idx (get_opponent idx c) player c2
         ∧ ∃ c3, process_player_turn loc inp idx c
                   = Ok (negb (bool_decide (current_position (game_state c1)
                                              ∈ bullets (game_state c1))), c3)
             ∧ shots (console c3)
                 = shots (console c)
                     ++ [(name player, final_target loc inp idx (game_state c1))]).
Proof.
  intros kw.
  destruct (item_step_Ok loc inp idx player c Hp Hn) as [c1 Hs].
  destruct (item_step_inv _ _ _ _ _ _ Hp Hs)
    as (Hal & Hnm & Hll & Hcc & Hrr & _ & _ & Hco & _).
  destruct (lookup_fmap_eq name _ _ _ _ Hnm Hopp) as (o1 & Ho1 & Hn1).
  destruct (lookup_fmap_eq llm_client _ _ _ _ Hll Hopp) as (o1' & Ho1' & Hl1).
  rewrite Ho1 in Ho1'. injection Ho1' as <-.
  assert (Hol : is_Some (llm_client o1)) by (by rewrite Hl1).
  destruct (communication_step_negotiate loc inp idx _ player o1 c1 Hneg Ho1 Hol)
    as (c2 & Hc & Hlg & Hplg).
  assert (Hacc : accepted loc inp = kw).
  { unfold accepted. by rewrite bool_decide_eq_true_2. }
  rewrite Hacc, Hn1 in *.
  destruct (communication_step_inv _ _ _ _ _ _ _ _ Hc)
    as (_ & Hpl & Hfr & Hsh & Hidx & Hcon & _).
  pose proof (process_player_turn_unfold _ _ _ _ _ _ Hp Hllm Hs) as Hturn.
  rewrite Hc in Hturn. cbn in Hturn.
  exists c1, c2. split_and!; try done.
  - intros Hkw. rewrite Hkw in *. cbn in Hturn.
    specialize (Hcon eq_refl). rewrite Hco in Hcon, Hsh.
    split_and!; try done.
    intros agent fuel tc tp Htc Hag Hcur. subst inp idx.
    rewrite (game_loop_stops _ _ _ _ _ _ c2 Htc Hturn).
    eexists. split; [reflexivity|]. split_and!.
    + unfold check_contract_effect.
      destruct (contract_active (game_state c2)); [|done]. by destruct (filter _ _).
    + destruct (contract_active (game_state c2)); [|done].
      by rewrite check_contract_effect_shots.
    + assert (PNegotiationSuccess ∈ console c2).
      { rewrite Hcon. apply elem_of_app. right. by apply list_elem_of_singleton. }
      unfold check_contract_effect.
      destruct (contract_active (game_state c2)); [|done].
      destruct (filter _ _); [done|]. cbn. apply elem_of_app. by left.
  - intros Hkw. rewrite Hkw in *. cbn in Hturn. split; [done|].
    assert (Hfe : ∀ gs1 gs2, frame gs1 = frame gs2 →
              chamber_count gs1 = chamber_count gs2 ∧ bullets gs1 = bullets gs2
              ∧ current_position gs1 = current_position gs2
              ∧ reverse_active gs1 = reverse_active gs2
              ∧ last_active_player gs1 = last_active_player gs2
              ∧ reset_reverse gs1 = reset_reverse gs2).
    { intros gs1 gs2 [= -> -> -> _ _ -> -> ->]. done. }
    destruct (Hfe _ _ Hfr) as (Hf1 & Hf2 & Hf3 & Hf4 & Hf5 & Hf6).
    destruct (fire_step_spec loc inp idx (get_opponent idx c) player c2)
      as (c3 & Hfs & Hshots & _).
    + by rewrite Hf1, Hcc.
    + rewrite Hpl, <- (length_fmap name), Hnm, length_fmap.
      by eapply get_opponent_lt.
    + unfold reset_ok. by rewrite Hf6, Hrr.
    + exists c3. rewrite Hturn, Hfs. rewrite Hf2, Hf3. split; [done|].
      rewrite Hshots, Hsh, Hco. unfold final_target, is_flipped.
      by rewrite Hf4, Hf5.
Qed.

Lemma negotiation_accept_ends_decline_fires_witness :
  ∃ c2,
    process_player_turn EN accepted_negotiation 0 (sample_duel sample_gun [] [])
      = Ok (false, c2)
    ∧ console c2 = [PNegotiationSuccess]
    ∧ shots (console c2) = [].
Proof.
  destruct (negotiation_accept_ends_decline_fires EN accepted_negotiation 0
              (sample_duel sample_gun [] [])
              (mkPlayer "Bill" (Some "anthropic") [] true)
              (mkPlayer "Lee" (Some "openai") [] true))
    as (c1 & c2 & _ & _ & _ & _ & _ & _ & Hacc & _).
  - reflexivity.
  - eexists. reflexivity.
  - reflexivity.
  - eexists. reflexivity.
  - discriminate.
  - discriminate.
  - reflexivity.
  - destruct (Hacc eq_refl) as (Ht & Hc & Hs & _). exists c2. repeat split; assumption.
Defined.

(** C4, on the code.  Bill proposes a draw on the first turn and Lee's
    reply contains the accept keyword.  The turn ends the match at once,
    without a shot, and announces the negotiated draw; but the verdict
    that [run_game] then prints, with no turn completed out of
    [max_turns] = 30 and both players alive, is the one of a match that
    reached the maximum number of turns.  In both variants. *)
Theorem accepted_negotiation_is_closed_as_draw_on_turns :
  (∃ ex,
     run_game EN (fun _ => accepted_negotiation) 31 (sample_duel sample_gun [] [])
       = Some (Ok ex)
     ∧ game_active ex = false
     ∧ turn_count ex = 0%nat
     ∧ console (ctl ex) = [PNegotiationSuccess; PGameOver; PDrawMaxTurns]
     ∧ shots (console (ctl ex)) = []
     ∧ alive <$> players (ctl ex) = [true; true])
  ∧ (∃ ex,
       run_game ZH
         (fun _ => decision None None (Some "协商") (Some "平局如何") None "我同意。")
         31 (sample_duel sample_gun [] [])
         = Some (Ok ex)
       ∧ game_active ex = false
       ∧ turn_count ex = 0%nat
       ∧ console (ctl ex) = [PNegotiationSuccess; PGameOver; PDrawMaxTurns]
       ∧ shots (console (ctl ex)) = []
       ∧ alive <$> players (ctl ex) = [true; true])
  ∧ (0 < max_turns)%nat.
Proof.
  split; [|split].
  - eexists. split; [vm_compute; reflexivity|]. by repeat split.
  - eexists. split; [vm_compute; reflexivity|]. by repeat split.
  - unfold max_turns. lia.
Qed.

(** ** The contract, continued *)

Lemma handle_item_usage_contract loc r idx player param c :
  get_player idx c = Ok player → item_contract loc ∈ items player →
  ∃ msg c1,
    handle_item_usage loc r idx (Some (item_contract loc)) param c = Ok (msg, c1)
    ∧ contract_active (game_state c1) = true
    ∧ contract_turns_left (game_state c1) = 3.
Proof.
  intros Hp Hin. unfold handle_item_usage. rewrite Hp. cbn.
  rewrite decide_False by (by intros ?).
  rewrite decide_False by (destruct loc; discriminate).
  rewrite decide_False by (destruct loc; discriminate).
  rewrite decide_False by (destruct loc; discriminate).
  rewrite decide_True by done. cbn.
  eexists _, _. split; [reflexivity|]. done.
Qed.

(** C7. Activating the Contract item sets the contract to (active, 3).
    While the contract is active every resolution of a fire, hit or miss,
    takes exactly one off the counter, and the contract is inactive
    afterwards exactly when the counter has reached 0; so the three fires
    after an activation leave (2, active), (1, active), (0, inactive).
    From a counter of 1 a fire step that misses leaves the counter at 0,
    the contract inactive, and the players as they were. *)
Theorem contract_counts_down_and_expires loc inp idx opp player c
    (Hn : chamber_count (game_state c) ≠ 0)
    (Hopp : (opp < length (players c))%nat)
    (Hrs : reset_ok (game_state c)) :
  let gs := game_state c in
  (contract_active (snd (activate_contract loc gs)) = true
   ∧ contract_turns_left (snd (activate_contract loc gs)) = 3)
  ∧ (∀ r param, get_player idx c = Ok player → item_contract loc ∈ items player →
       ∃ msg c1,
         handle_item_usage loc r idx (Some (item_contract loc)) param c = Ok (msg, c1)
         ∧ contract_active (game_state c1) = true
         ∧ contract_turns_left (game_state c1) = 3)
  ∧ (contract_active gs = true → 0 < contract_turns_left gs →
       ∃ hit gs', fire loc gs = Ok (hit, gs')
         ∧ contract_turns_left gs' = contract_turns_left gs - 1
         ∧ (contract_active gs' = false ↔ contract_turns_left gs' = 0))
  ∧ (∃ h1 gs1 h2 gs2 h3 gs3,
       fire loc (snd (activate_contract loc gs)) = Ok (h1, gs1)
       ∧ fire loc gs1 = Ok (h2, gs2)
       ∧ fire loc gs2 = Ok (h3, gs3)
       ∧ (contract_turns_left gs1, contract_active gs1) = (2, true)
       ∧ (contract_turns_left gs2, contract_active gs2) = (1, true)
       ∧ (contract_turns_left gs3, contract_active gs3) = (0, false))
  ∧ (contract_active gs = true → contract_turns_left gs = 1 →
     current_position gs ∉ bullets gs →
       ∃ c', fire_step loc inp idx opp player c = Ok (true, c')
         ∧ contract_turns_left (game_state c') = 0
         ∧ contract_active (game_state c') = false
         ∧ players c' = players c).
Proof.
  intros gs. split_and!; try done.
  - intros r param Hp Hin. by apply (handle_item_usage_contract _ _ _ player).
  - intros Ha Hpos.
    destruct (fire_fields loc gs Hn) as (gs' & Hf & _ & _ & _ & Ht & Hact & _).
    rewrite Ha in Ht, Hact. cbn in Hact.
    eexists _, gs'. split; [done|]. split; [done|].
    rewrite Hact, Ht, negb_false_iff, bool_decide_eq_true. lia.
  - destruct (fire_fields loc (snd (activate_contract loc gs)))
      as (gs1 & Hf1 & Hc1 & _ & _ & Ht1 & Ha1 & _); [done|].
    cbn in Ht1, Ha1, Hc1.
    destruct (fire_fields loc gs1) as (gs2 & Hf2 & Hc2 & _ & _ & Ht2 & Ha2 & _);
      [by rewrite Hc1|].
    rewrite Ha1, Ht1 in Ht2, Ha2. cbn in Ht2, Ha2.
    destruct (fire_fields loc gs2) as (gs3 & Hf3 & Hc3 & _ & _ & Ht3 & Ha3 & _);
      [by rewrite Hc2, Hc1|].
    rewrite Ha2, Ht2 in Ht3, Ha3. cbn in Ht3, Ha3.
    eexists _, gs1, _, gs2, _, gs3. split_and!; try done.
    + by rewrite Ht1, Ha1.
    + by rewrite Ht2, Ha2.
    + by rewrite Ht3, Ha3.
  - intros Ha H1 Hmiss.
    destruct (fire_step_spec loc inp idx opp player c Hn Hopp Hrs)
      as (c' & Hf & _ & Hpl & _ & _ & _ & _ & _ & _ & Ht & Hact & _).
    fold gs in Hf, Hpl, Ht, Hact.
    rewrite bool_decide_eq_false_2 in Hf, Hpl by done.
    rewrite Ha, H1 in Ht, Hact. exists c'. done.
Qed.

Lemma contract_counts_down_and_expires_witness :
  ∃ c', fire_step EN default_decision 0 1 (mkPlayer "Bill" (Some "anthropic") [] true)
          (sample_duel (set_current_position 1 (set_contract true 1 sample_gun)) [] [])
        = Ok (true, c')
    ∧ contract_turns_left (game_state c') = 0
    ∧ contract_active (game_state c') = false
    ∧ alive <$> players c' = [true; true].
Proof.
  destruct (contract_counts_down_and_expires EN default_decision 0 1
              (mkPlayer "Bill" (Some "anthropic") [] true)
              (sample_duel (set_current_position 1 (set_contract true 1 sample_gun)) [] []))
    as (_ & _ & _ & _ & Hmiss).
  - discriminate.
  - cbn. lia.
  - discriminate.
  - destruct Hmiss as (c' & Hf & Ht & Ha & Hpl).
    + reflexivity.
    + reflexivity.
    + apply (bool_decide_unpack _). by vm_compute.
    + exists c'. rewrite Hpl. repeat split; assumption.
Defined.

(** C1, on the code.  The contract is active with one turn left and the
    trigger is on a bullet when Bill fires at Lee.  [fire] takes the
    counter to 0 and switches the contract off before [run_game] looks at
    [contract_active], so the mutual-death rule is skipped: Lee alone
    dies and Bill is announced the winner.  With two turns left the same
    shot kills both and the match is a draw. *)
Theorem hit_on_last_contract_turn_kills_only_target loc :
  (∃ ex,
     run_game loc (fun _ => default_decision) (S max_turns) last_contract_turn_duel
       = Some (Ok ex)
     ∧ contract_active (game_state last_contract_turn_duel) = true
     ∧ contract_turns_left (game_state last_contract_turn_duel) = 1
     ∧ current_position (game_state last_contract_turn_duel)
         ∈ bullets (game_state last_contract_turn_duel)
     ∧ contract_turns_left (game_state (ctl ex)) = 0
     ∧ alive <$> players (ctl ex) = [true; false]
     ∧ console (ctl ex)
         = [PShoot "Bill" (target_opponent loc); PHit; PHitOpponent "Lee";
            PGameOver; PWins "Bill"])
  ∧ (∃ ex,
     run_game loc (fun _ => default_decision) (S max_turns)
       (sample_duel (set_contract true 2 sample_gun) [] [])
       = Some (Ok ex)
     ∧ alive <$> players (ctl ex) = [false; false]
     ∧ console (ctl ex)
         = [PShoot "Bill" (target_opponent loc); PHit; PHitOpponent "Lee";
            PContractTriggered; PGameOver; PDrawAllDead]).
Proof.
  assert (Hin : current_position (game_state last_contract_turn_duel)
                  ∈ bullets (game_state last_contract_turn_duel))
    by (apply (bool_decide_unpack _); by vm_compute).
  destruct loc; (split; eexists; (split; [vm_compute; reflexivity|]));
    repeat split; done.
Qed.

(** ** Whole turns *)

Lemma fire_Raise loc gs : chamber_count gs = 0 → fire loc gs = Raise ZeroDivisionError.
Proof. intros H0. unfold fire. cbn. unfold py_mod. by rewrite decide_True. Qed.

Lemma fire_step_Ok_chambers loc inp idx opp player c r :
  fire_step loc inp idx opp player c = Ok r → chamber_count (game_state c) ≠ 0.
Proof.
  intros Hf H0. unfold fire_step in Hf.
  destruct (reversed_target _ _ _ _) as [[] target];
    cbn -[fire] in Hf;
    destruct (reset_reverse (game_state c)) as [[]|]; cbn -[fire] in Hf;
    rewrite fire_Raise in Hf by done; done.
Qed.

Lemma frame_eq gs1 gs2 :
  frame gs1 = frame gs2 →
  chamber_count gs1 = chamber_count gs2 ∧ bullets gs1 = bullets gs2
  ∧ current_position gs1 = current_position gs2
  ∧ contract_active gs1 = contract_active gs2
  ∧ contract_turns_left gs1 = contract_turns_left gs2
  ∧ reverse_active gs1 = reverse_active gs2
  ∧ last_active_player gs1 = last_active_player gs2
  ∧ reset_reverse gs1 = reset_reverse gs2.
Proof. intros [= -> -> -> -> -> -> -> ->]. done. Qed.

(** A turn of a player with a backend that is not cut short by an
    accepted negotiation: it fires once, at the target the Reverse rule
    settles on in the state the item step left. *)
Lemma turn_reaching_fire loc inp idx player c :
  get_player idx c = Ok player → is_Some (llm_client player) →
  chamber_count (game_state c) ≠ 0 → reset_ok (game_state c) →
  (p_communication (parsed inp) = Some (comm_negotiate loc) →
   ∃ o, players c !! get_opponent idx c = Some o ∧ is_Some (llm_client o)) →
  accepted loc inp = false →
  ∃ c1 c' hit,
    item_step loc inp idx c = Ok c1
    ∧ process_player_turn loc inp idx c = Ok (negb hit, c')
    ∧ shots (console c')
        = shots (console c) ++ [(name player, final_target loc inp idx (game_state c1))]
    ∧ reverse_active (game_state c')
        = (if is_flipped idx (game_state c1) then false
           else reverse_active (game_state c1))
    ∧ last_active_player (game_state c') = last_active_player (game_state c1)
    ∧ reset_ok (game_state c')
    ∧ hit = bool_decide (current_position (game_state c1) ∈ bullets (game_state c1))
    ∧ players c'
        = (if hit then
             alter (set_alive false)
               (if decide (final_target loc inp idx (game_state c1) = target_self loc)
                then idx else get_opponent idx c) (players c1)
           else players c1)
    ∧ contract_turns_left (game_state c')
        = (if contract_active (game_state c1) then contract_turns_left (game_state c1) - 1
           else contract_turns_left (game_state c1))
    ∧ contract_active (game_state c')
        = contract_active (game_state c1)
          && negb (bool_decide (contract_turns_left (game_state c1) - 1 <= 0))
    ∧ length (players c1) = length (players c).
Proof.
  intros Hp Hllm Hn Hrs Hopp Hacc.
  destruct (item_step_Ok loc inp idx player c Hp Hn) as [c1 Hs].
  destruct (item_step_inv _ _ _ _ _ _ Hp Hs)
    as (Hal & Hnm & Hll & Hcc & Hrr & _ & _ & Hco & _).
  destruct (communication_step_Ok loc inp idx (get_opponent idx c) player c1)
    as [c2 Hc].
  { intros Hneg. destruct (Hopp Hneg) as (o & Ho & Hol).
    destruct (lookup_fmap_eq llm_client _ _ _ _ Hll Ho) as (o1 & Ho1 & Hl1).
    exists o1. split; [done|]. by rewrite Hl1. }
  rewrite Hacc in Hc. cbn in Hc.
  destruct (communication_step_inv _ _ _ _ _ _ _ _ Hc)
    as (_ & Hpl & Hfr & Hsh & _).
  destruct (frame_eq _ _ Hfr) as (Hf1 & Hf2 & Hf3 & Hf4 & Hf5 & Hf6 & Hf7 & Hf8).
  pose proof (process_player_turn_unfold _ _ _ _ _ _ Hp Hllm Hs) as Hturn.
  rewrite Hc in Hturn. cbn in Hturn.
  destruct (fire_step_spec loc inp idx (get_opponent idx c) player c2)
    as (c' & Hfs & Hshots & Hpl' & Hra & Hla & Hro & _ & _ & _ & Hct & Hca & _).
  - by rewrite Hf1, Hcc.
  - rewrite Hpl, <- (length_fmap name), Hnm, length_fmap. by eapply get_opponent_lt.
  - unfold reset_ok. by rewrite Hf8, Hrr.
  - exists c1, c', (bool_decide (current_position (game_state c2) ∈ bullets (game_state c2))).
    split; [done|]. split; [by rewrite Hturn|].
    unfold final_target, is_flipped in *. rewrite Hf2, Hf3, Hf4, Hf5, Hf6, Hf7, Hpl in *.
    rewrite Hshots, Hsh, Hco. split_and!; try done.
    by rewrite <- (length_fmap name), Hnm, length_fmap.
Qed.

(** What every turn that returns leaves in place. *)
Lemma process_player_turn_inv loc inp idx c b c' :
  process_player_turn loc inp idx c = Ok (b, c') → reset_ok (game_state c) →
  ∃ player, get_player idx c = Ok player
    ∧ reset_ok (game_state c')
    ∧ length (players c') = length (players c)
    ∧ chamber_count (game_state c') = chamber_count (game_state c)
    ∧ (b = true → alive <$> players c' = alive <$> players c)
    ∧ (b = false → PHit ∈ console c' ∨ PNegotiationSuccess ∈ console c')
    ∧ (¬ activates_reverse loc inp player → reverse_active (game_state c) = false →
       reverse_active (game_state c') = false)
    ∧ (∃ out, console c' = console c ++ out).
Proof.
  intros Ht Hrs. unfold process_player_turn in Ht.
  destruct (get_player idx c) as [player|] eqn:Hp; [|done]. cbn in Ht.
  exists player. split; [done|].
  destruct (llm_client player) as [l|] eqn:Hl.
  2:{ injection Ht as <- <-. split_and!; try done. exists []. by rewrite app_nil_r. }
  destruct (item_step loc inp idx c) as [c1|] eqn:Hs; [|done]. cbn in Ht.
  destruct (item_step_inv _ _ _ _ _ _ Hp Hs)
    as (Hal & Hnm & Hll & Hcc & Hrr & _ & _ & Hco & _).
  destruct (communication_step _ _ _ _ _ _) as [[go_on c2]|] eqn:Hc; [|done].
  cbn in Ht.
  destruct (communication_step_inv _ _ _ _ _ _ _ _ Hc)
    as (_ & Hpl & Hfr & Hsh & _ & Hneg & _ & [out2 Hout2]).
  destruct (frame_eq _ _ Hfr) as (Hf1 & Hf2 & Hf3 & _ & _ & Hf6 & Hf7 & Hf8).
  assert (Hlen : length (players c1) = length (players c)).
  { by rewrite <- (length_fmap name), Hnm, length_fmap. }
  assert (Hrev : ¬ activates_reverse loc inp player →
                 reverse_active (game_state c) = false →
                 reverse_active (game_state c2) = false).
  { intros Hna H0. rewrite Hf6.
    by destruct (item_step_no_reverse _ _ _ _ _ _ Hp Hna Hs) as [-> _]. }
  destruct go_on.
  - pose proof (fire_step_Ok_chambers _ _ _ _ _ _ _ Ht) as Hn.
    destruct (fire_step_spec loc inp idx (get_opponent idx c) player c2)
      as (c3 & Hfs & _ & Hpl3 & Hra & _ & Hro & Hcc3 & _ & _ & _ & _ & _ & Hhit & [out3 Hout3]).
    + done.
    + rewrite Hpl, Hlen. by eapply get_opponent_lt.
    + unfold reset_ok. by rewrite Hf8, Hrr.
    + rewrite Hfs in Ht. injection Ht as <- <-.
      split_and!.
      * done.
      * rewrite Hpl3. destruct (bool_decide _); [rewrite length_alter|]; congruence.
      * congruence.
      * intros Hb. apply negb_true_iff in Hb. rewrite Hb in Hpl3.
        by rewrite Hpl3, Hpl.
      * intros Hb. apply negb_false_iff in Hb. rewrite Hb in Hhit. by left.
      * intros Hna H0. rewrite Hra. destruct (is_flipped _ _); [done|]. by apply Hrev.
      * exists (out2 ++ out3). by rewrite Hout3, Hout2, Hco, app_assoc.
  - injection Ht as <- <-. split_and!.
    + unfold reset_ok. by rewrite Hf8, Hrr.
    + by rewrite Hpl.
    + congruence.
    + done.
    + intros _. right. rewrite (Hneg eq_refl). apply elem_of_app. right.
      by apply list_elem_of_singleton.
    + done.
    + exists out2. by rewrite Hout2, Hco.
Qed.

(** ** The loop, continued *)

Lemma check_contract_effect_frame c :
  game_state (snd (check_contract_effect c)) = game_state c
  ∧ ∃ out, console (snd (check_contract_effect c)) = console c ++ out.
Proof.
  unfold check_contract_effect.
  destruct (contract_active _); [|split; [done|exists []; by rewrite app_nil_r]].
  destruct (filter _ _); [split; [done|exists []; by rewrite app_nil_r]|].
  cbn. eauto.
Qed.

(** Fuel beyond the turns that remain is never used up. *)
Lemma game_loop_total loc agent fuel :
  ∀ ga tc tp c, (max_turns - tc < fuel)%nat →
    ∃ r, game_loop loc agent fuel ga tc tp c = Some r.
Proof.
  induction fuel as [|fuel IH]; intros ga tc tp c Hf; [lia|].
  rewrite game_loop_S.
  destruct (ga && (tc <? max_turns)%nat) eqn:E; [|eauto].
  destruct (process_player_turn _ _ _ _) as [[ga' c']|]; [|eauto].
  destruct (negb ga'); [eauto|].
  destruct (length (players c')); [eauto|].
  apply IH. apply andb_true_iff in E as [_ E%Nat.ltb_lt]. lia.
Qed.

(** Counting: the loop variable and the number of turns played. *)
Lemma game_loop_count loc agent fuel :
  ∀ tc tp c ex, game_loop loc agent fuel true tc tp c = Some (Ok ex) →
    (tc ≤ max_turns)%nat →
    (turn_count ex ≤ max_turns)%nat
    ∧ (turns_played ex + tc = tp + turn_count ex + (if game_active ex then 0 else 1))%nat
    ∧ (game_active ex = true → turn_count ex = max_turns)
    ∧ (game_active ex = false → (turn_count ex < max_turns)%nat).
Proof.
  induction fuel as [|fuel IH]; intros tc tp c ex Hl Htc; [done|].
  rewrite game_loop_S in Hl. cbn [andb] in Hl.
  destruct (tc <? max_turns)%nat eqn:E.
  - apply Nat.ltb_lt in E.
    destruct (process_player_turn _ _ _ _) as [[[] c']|]; [| |done]; cbn [negb] in Hl.
    + destruct (length (players c')); [done|].
      apply IH in Hl; [|lia]. destruct Hl as (H1 & H2 & H3 & H4).
      split_and!; try done. lia.
    + injection Hl as <-. cbn. split_and!; try done; lia.
  - apply Nat.ltb_ge in E. injection Hl as <-. cbn. split_and!; try done; lia.
Qed.

(** What the loop keeps: a run that is left through its bound has killed
    nobody, a run that is left by a break shows a hit or an accepted
    negotiation on the terminal, and the reverse flag stays down as long
    as no decision names the Reverse item. *)
Lemma game_loop_keeps loc agent fuel :
  ∀ tc tp c ex, game_loop loc agent fuel true tc tp c = Some (Ok ex) →
    reset_ok (game_state c) →
    (game_active ex = true → alive <$> players (ctl ex) = alive <$> players c)
    ∧ (game_active ex = false →
       PHit ∈ console (ctl ex) ∨ PNegotiationSuccess ∈ console (ctl ex))
    ∧ length (players (ctl ex)) = length (players c)
    ∧ ((∀ n, p_item (parsed (agent n)) ≠ Some (item_reverse loc)) →
       reverse_active (game_state c) = false →
       reverse_active (game_state (ctl ex)) = false).
Proof.
  induction fuel as [|fuel IH]; intros tc tp c ex Hl Hrs; [done|].
  rewrite game_loop_S in Hl. cbn [andb] in Hl.
  destruct (tc <? max_turns)%nat; [|injection Hl as <-; done].
  destruct (process_player_turn _ _ _ _) as [[b c']|] eqn:Ht; [|done].
  destruct (process_player_turn_inv _ _ _ _ _ _ Ht Hrs)
    as (player & Hp & Hrs' & Hlen & _ & Hal & Hend & Hrev & _).
  assert (Hna : (∀ n, p_item (parsed (agent n)) ≠ Some (item_reverse loc)) →
                ¬ activates_reverse loc (agent tc) player).
  { intros Hno [Hit _]. by apply (Hno tc). }
  destruct b; cbn [negb] in Hl.
  - destruct (length (players c')) eqn:Hlc; [done|].
    apply IH in Hl; [|done]. destruct Hl as (H1 & H2 & H3 & H4). cbn in H1, H3, H4.
    split_and!.
    + intros Hga. by rewrite (H1 Hga), (Hal eq_refl).
    + done.
    + congruence.
    + intros Hno H0. apply H4; [done|]. by apply Hrev; [apply Hna|].
  - injection Hl as <-. cbn.
    assert (Hcc : ∀ c0, game_state (if contract_active (game_state c')
                                    then snd (check_contract_effect c0) else c0)
                        = game_state c0).
    { intros c0. destruct (contract_active _); [|done].
      apply check_contract_effect_frame. }
    split_and!; try done.
    + intros _. destruct (Hend eq_refl) as [H|H]; [left|right];
        (destruct (contract_active _); [|done]);
        destruct (check_contract_effect_frame c') as [_ [out ->]];
        apply elem_of_app; by left.
    + destruct (contract_active _); [|done]. unfold check_contract_effect.
      destruct (contract_active _); [|done]. destruct (filter _ _); [done|].
      cbn. by rewrite length_fmap.
    + intros Hno H0. rewrite Hcc. by apply Hrev; [apply Hna|].
Qed.

Lemma console_foldl_wins c l :
  console (foldl (fun c p => print (PWins (name p)) c) c l)
    = console c ++ ((fun p => PWins (name p)) <$> l)
  ∧ players (foldl (fun c p => print (PWins (name p)) c) c l) = players c
  ∧ game_state (foldl (fun c p => print (PWins (name p)) c) c l) = game_state c.
Proof.
  revert c. induction l as [|p l IH]; intros c; cbn.
  - by rewrite app_nil_r.
  - destruct (IH (print (PWins (name p)) c)) as (-> & -> & ->). cbn.
    by rewrite <- app_assoc.
Qed.

(** The verdict only prints. *)
Lemma announce_frame c :
  players (announce c) = players c
  ∧ game_state (announce c) = game_state c
  ∧ ∃ out, console (announce c) = console c ++ out.
Proof.
  unfold announce. cbn. destruct (filter _ _) as [|p l].
  - cbn. split_and!; try done. eexists. by rewrite <- app_assoc.
  - case_decide.
    + cbn. split_and!; try done. eexists. by rewrite <- app_assoc.
    + destruct (console_foldl_wins (print PGameOver c) (p :: l)) as (-> & -> & ->).
      cbn. split_and!; try done. eexists. by rewrite <- app_assoc.
Qed.

Lemma filter_all {A} (P : A → Prop) `{∀ x, Decision (P x)} (l : list A) :
  Forall P l → filter P l = l.
Proof.
  induction 1 as [|x l Hx Hl IH]; [done|].
  rewrite filter_cons_True by done. by rewrite IH.
Qed.

(** With everybody alive the verdict is the draw on turns. *)
Lemma announce_all_alive c :
  players c ≠ [] → Forall (fun p => alive p = true) (players c) →
  last (console (announce c)) = Some PDrawMaxTurns.
Proof.
  intros Hne Hall. unfold announce. cbn. rewrite filter_all by done.
  destruct (players c) as [|p l] eqn:Hpl; [done|].
  rewrite decide_True by done. cbn. by rewrite last_snoc.
Qed.

Lemma Forall_alive_fmap (l1 l2 : list Player) :
  alive <$> l1 = alive <$> l2 →
  Forall (fun p => alive p = true) l2 → Forall (fun p => alive p = true) l1.
Proof.
  intros Heq Hall.
  assert (Hb : Forall (fun b => b = true) (alive <$> l1)).
  { rewrite Heq. by apply Forall_fmap. }
  by apply Forall_fmap in Hb.
Qed.

(** C9. Whatever the agents decide and whatever the state the game starts
    from, [run_game] comes to an end (any fuel above [max_turns] is
    enough), and if it ends without an exception it has played at most 30
    turns.  If 30 turns have been played and the terminal shows neither a
    hit nor an accepted negotiation, the loop was left through its bound:
    the counter stands at 30, every player is as alive as at the start, and
    with all of them alive at the start the verdict printed last is the
    draw on turns. *)
Theorem run_game_plays_at_most_max_turns loc agent fuel c
    (Hfuel : (max_turns < fuel)%nat) :
  ∃ r, run_game loc agent fuel c = Some r
    ∧ ∀ ex, r = Ok ex →
        (turns_played ex ≤ 30)%nat
        ∧ (turn_count ex ≤ 30)%nat
        ∧ (reset_ok (game_state c) →
           (turns_played ex = 30%nat → PHit ∉ console (ctl ex) →
            PNegotiationSuccess ∉ console (ctl ex) → turn_count ex = 30%nat)
           ∧ (turn_count ex = 30%nat →
              game_active ex = true
              ∧ alive <$> players (ctl ex) = alive <$> players c
              ∧ (players c ≠ [] → Forall (fun p => alive p = true) (players c) →
                 Forall (fun p => alive p = true) (players (ctl ex))
                 ∧ last (console (ctl ex)) = Some PDrawMaxTurns))).
Proof.
  destruct (game_loop_total loc agent fuel true 0 0 c) as [r Hr]; [lia|].
  unfold run_game. rewrite Hr. destruct r as [ex0|e].
  2:{ eexists. split; [done|]. intros ex [=]. }
  eexists. split; [done|]. intros ex [= <-]. cbn.
  destruct (game_loop_count _ _ _ _ _ _ _ Hr) as (Hc1 & Hc2 & Hc3 & Hc4);
    [unfold max_turns; lia|].
  destruct (announce_frame (ctl ex0)) as (Hap & Hag & [out Hout]).
  unfold max_turns in *.
  assert (Hplayed : (turns_played ex0 ≤ 30)%nat).
  { destruct (game_active ex0); [lia|]. specialize (Hc4 eq_refl). lia. }
  split_and!; try done.
  intros Hrs.
  destruct (game_loop_keeps _ _ _ _ _ _ _ Hr Hrs) as (Hk1 & Hk2 & Hk3 & _).
  split.
  - intros H30 Hnohit Hnoneg. destruct (game_active ex0) eqn:Hga; [by apply Hc3|].
    exfalso. destruct (Hk2 eq_refl) as [H|H].
    + apply Hnohit. rewrite Hout. apply elem_of_app. by left.
    + apply Hnoneg. rewrite Hout. apply elem_of_app. by left.
  - intros H30. assert (Hga : game_active ex0 = true).
    { destruct (game_active ex0); [done|]. specialize (Hc4 eq_refl). lia. }
    specialize (Hk1 Hga). rewrite Hap.
    split_and!; try done.
    intros Hne Hall.
    assert (Hall' : Forall (fun p => alive p = true) (players (ctl ex0))).
    { by apply (Forall_alive_fmap _ (players c)). }
    split; [done|]. apply announce_all_alive; [|done].
    intros Hnil. apply Hne. apply length_zero_iff_nil.
    rewrite <- Hk3, Hnil. done.
Qed.

Lemma run_game_plays_at_most_max_turns_witness :
  ∃ ex, run_game EN (fun _ => default_decision) 31 empty_duel = Some (Ok ex)
    ∧ (turns_played ex ≤ 30)%nat.
Proof.
  destruct (run_game_plays_at_most_max_turns EN (fun _ => default_decision) 31 empty_duel)
    as (r & Hr & H).
  - unfold max_turns. lia.
  - destruct r as [ex|e].
    + exists ex. split; [done|]. by apply (H ex eq_refl).
    + exfalso. vm_compute in Hr. discriminate.
Defined.

(** Thirty silent misses on [empty_duel]: the counter reaches 30, Bill and
    Lee are alive, the verdict is the draw on turns. *)
Example thirty_misses_are_a_draw :
  ∃ ex, run_game EN (fun _ => default_decision) 31 empty_duel = Some (Ok ex)
    ∧ turn_count ex = 30%nat ∧ turns_played ex = 30%nat
    ∧ alive <$> players (ctl ex) = [true; true]
    ∧ last (console (ctl ex)) = Some PDrawMaxTurns.
Proof. eexists. split; [vm_compute; reflexivity|]. repeat split; reflexivity. Qed.

(** ** Reverse *)

Lemma is_flipped_owner idx gs :
  last_active_player gs = Some idx → is_flipped idx gs = false.
Proof.
  intros Hl. unfold is_flipped. rewrite bool_decide_eq_true_2 by done.
  by rewrite andb_false_r.
Qed.

Lemma is_flipped_other idx gs :
  reverse_active gs = true → last_active_player gs ≠ Some idx → is_flipped idx gs = true.
Proof.
  intros Hr Hl. unfold is_flipped. by rewrite Hr, bool_decide_eq_false_2.
Qed.

Lemma is_flipped_inactive idx gs : reverse_active gs = false → is_flipped idx gs = false.
Proof. intros Hr. unfold is_flipped. by rewrite Hr. Qed.

(** C6, as the spec words it, fails.  Bill activates Reverse and misses;
    on the very next turn Lee, a player other than Bill, activates a
    Reverse of his own before firing.  The flag now names Lee, so the
    target Lee declares is not flipped and the flag stays set. *)
Lemma second_reverse_shields_its_user :
  ∃ c1 c2,
    process_player_turn EN (reverse_decision EN) 0 (reverse_duel EN) = Ok (true, c1)
    ∧ reverse_active (game_state c1) = true
    ∧ last_active_player (game_state c1) = Some 0%nat
    ∧ process_player_turn EN (reverse_decision EN) 1 c1 = Ok (true, c2)
    ∧ declared_target EN (reverse_decision EN) = "Opponent"
    ∧ shots (console c2) = [("Bill", "Opponent"); ("Lee", "Opponent")]
    ∧ reverse_active (game_state c2) = true.
Proof.
  eexists _, _. split; [vm_compute; reflexivity|].
  do 2 (split; [reflexivity|]). split; [vm_compute; reflexivity|].
  repeat split; reflexivity.
Qed.

(** C6, as the code has it.  Take a turn of a player with a backend that
    reaches its fire step (no accepted negotiation).
    - If the turn activates Reverse, its own target is not flipped and
      afterwards the flag is set and names the player.
    - Otherwise, if the flag is set and names the player, the target is
      not flipped and the flag stays set.
    - Otherwise, if the flag is set and names somebody else, the declared
      target is flipped, this once, and the flag is down afterwards.
    - Otherwise the flag is down: the target is not flipped and the flag
      stays down.
    And once the flag is down it stays down through the rest of the game
    as long as no decision names the Reverse item. *)
Theorem reverse_flips_next_turn_of_another_player loc inp idx player c
    (Hp : get_player idx c = Ok player)
    (Hllm : is_Some (llm_client player))
    (Hn : chamber_count (game_state c) ≠ 0)
    (Hrs : reset_ok (game_state c))
    (Hopp : p_communication (parsed inp) = Some (comm_negotiate loc) →
            ∃ o, players c !! get_opponent idx c = Some o ∧ is_Some (llm_client o))
    (Hacc : accepted loc inp = false) :
  ∃ c' hit,
    process_player_turn loc inp idx c = Ok (negb hit, c')
    ∧ (activates_reverse loc inp player →
         shots (console c') = shots (console c) ++ [(name player, declared_target loc inp)]
         ∧ reverse_active (game_state c') = true
         ∧ last_active_player (game_state c') = Some idx)
    ∧ (¬ activates_reverse loc inp player →
         (reverse_active (game_state c) = true →
          last_active_player (game_state c) = Some idx →
            shots (console c')
              = shots (console c) ++ [(name player, declared_target loc inp)]
            ∧ reverse_active (game_state c') = true
            ∧ last_active_player (game_state c') = Some idx)
         ∧ (reverse_active (game_state c) = true →
            last_active_player (game_state c) ≠ Some idx →
              shots (console c')
                = shots (console c)
                    ++ [(name player, flip_target loc (declared_target loc inp))]
              ∧ reverse_active (game_state c') = false)
         ∧ (reverse_active (game_state c) = false →
              shots (console c')
                = shots (console c) ++ [(name player, declared_target loc inp)]
              ∧ reverse_active (game_state c') = false))
    ∧ (∀ agent fuel tc tp next ex,
         (∀ n, p_item (parsed (agent n)) ≠ Some (item_reverse loc)) →
         reverse_active (game_state c') = false →
         game_loop loc agent fuel true tc tp (set_current_player_idx next c')
           = Some (Ok ex) →
         reverse_active (game_state (ctl ex)) = false).
Proof.
  destruct (turn_reaching_fire loc inp idx player c Hp Hllm Hn Hrs Hopp Hacc)
    as (c1 & c' & hit & Hs & Ht & Hsh & Hra & Hla & Hrs' & _).
  exists c', hit. split; [done|]. unfold final_target in Hsh. split_and!.
  - intros Hact.
    destruct (item_step_reverse loc inp idx player c Hp Hact) as (c1' & Hs' & Hr1 & Hl1).
    rewrite Hs in Hs'. injection Hs' as <-.
    rewrite (is_flipped_owner _ _ Hl1) in Hsh, Hra. by rewrite Hra, Hla.
  - intros Hna.
    destruct (item_step_no_reverse _ _ _ _ _ _ Hp Hna Hs) as [Hr1 Hl1].
    split_and!.
    + intros Hr Hl. rewrite <- Hl1 in Hl.
      rewrite (is_flipped_owner _ _ Hl) in Hsh, Hra. by rewrite Hra, Hla, Hr1.
    + intros Hr Hl. rewrite <- Hr1 in Hr. rewrite <- Hl1 in Hl.
      rewrite (is_flipped_other _ _ Hr Hl) in Hsh, Hra. done.
    + intros Hr. rewrite <- Hr1 in Hr.
      rewrite (is_flipped_inactive _ _ Hr) in Hsh, Hra. by rewrite Hra.
  - intros agent fuel tc tp next ex Hno H0 Hl.
    by apply (game_loop_keeps _ _ _ _ _ _ _ Hl Hrs').
Qed.

Lemma reverse_flips_next_turn_of_another_player_witness :
  ∃ c1 c2 hit,
    process_player_turn EN (reverse_decision EN) 0 (reverse_duel EN) = Ok (true, c1)
    ∧ process_player_turn EN default_decision 1 c1 = Ok (negb hit, c2)
    ∧ shots (console c2) = shots (console c1) ++ [("Lee", "Self")]
    ∧ reverse_active (game_state c2) = false.
Proof.
  assert (∃ c1, process_player_turn EN (reverse_decision EN) 0 (reverse_duel EN)
                  = Ok (true, c1)
                ∧ get_player 1 c1 = Ok (mkPlayer "Lee" (Some "openai") ["Reverse"] true)
                ∧ chamber_count (game_state c1) = 6
                ∧ reset_reverse (game_state c1) = None
                ∧ reverse_active (game_state c1) = true
                ∧ last_active_player (game_state c1) = Some 0%nat)
    as (c1 & Ht1 & Hp1 & Hn1 & Hrs1 & Hr1 & Hl1).
  { eexists. split; [vm_compute; reflexivity|]. repeat split; reflexivity. }
  destruct (reverse_flips_next_turn_of_another_player EN default_decision 1
              (mkPlayer "Lee" (Some "openai") ["Reverse"] true) c1)
    as (c2 & hit & Ht2 & _ & Hother & _).
  - exact Hp1.
  - eexists. reflexivity.
  - rewrite Hn1. discriminate.
  - unfold reset_ok. rewrite Hrs1. discriminate.
  - intros Hneg. discriminate Hneg.
  - reflexivity.
  - destruct Hother as (_ & Hflip & _).
    + intros [Hit _]. discriminate Hit.
    + destruct Hflip as [Hsh Hra].
      * exact Hr1.
      * rewrite Hl1. discriminate.
      * exists c1, c2, hit. repeat split; assumption.
Defined.

(** ** Loading the gun, continued: the shuffle and the bounds *)

Lemma insert_Permutation {A} (l : list A) i x y :
  l !! i = Some x → <[i:=y]> l ≡ₚ y :: delete i l.
Proof.
  revert i. induction l as [|a l IH]; intros [|i] Hi; try done.
  cbn. cbn in Hi. rewrite (IH i Hi). apply perm_swap.
Qed.

Lemma swap_Permutation {A} (i j : nat) (l : list A) : swap i j l ≡ₚ l.
Proof.
  unfold swap.
  destruct (l !! i) as [xi|] eqn:Hi; [|done].
  destruct (l !! j) as [xj|] eqn:Hj; [|done].
  revert i j Hi Hj. induction l as [|a l IH]; intros [|i] [|j] Hi Hj; try done.
  - cbn in *. by injection Hi as ->.
  - cbn in *. injection Hi as ->.
    rewrite (insert_Permutation l j xj xi Hj).
    rewrite (delete_Permutation l j xj Hj) at 2.
    apply perm_swap.
  - cbn in *. injection Hj as ->.
    rewrite (insert_Permutation l i xi xj Hi).
    rewrite (delete_Permutation l i xi Hi) at 2.
    apply perm_swap.
  - cbn in *. f_equiv. by apply IH.
Qed.

Lemma shuffle_Permutation {A} (draw : nat → nat) (l : list A) : shuffle draw l ≡ₚ l.
Proof.
  unfold shuffle. generalize (length l - 1)%nat as i. intros i. revert l.
  induction i as [|i IH]; intros l; [done|].
  cbn [shuffle_from]. rewrite IH. apply swap_Permutation.
Qed.

(** [initialize_gun] whenever the range of the bullet count is not empty:
    between 1 and floor(N/d) bullets, pairwise distinct, all inside the
    chambers, and the trigger inside the chambers. *)
Lemma initialize_gun_bounds loc r_count r_shuffle r_pos gs :
  1 <= chamber_count gs `div` bullet_divisor loc →
  ∃ gs', initialize_gun loc r_count r_shuffle r_pos gs = Ok gs'
    ∧ chamber_count gs' = chamber_count gs
    ∧ 1 <= Z.of_nat (length (bullets gs')) <= chamber_count gs `div` bullet_divisor loc
    ∧ NoDup (bullets gs')
    ∧ Forall (fun p => 0 <= p < chamber_count gs) (bullets gs')
    ∧ 0 <= current_position gs' < chamber_count gs.
Proof.
  intros Hk. set (N := chamber_count gs) in *.
  assert (Hd : 2 <= bullet_divisor loc <= 3) by (destruct loc; cbn; lia).
  assert (HN : N `div` bullet_divisor loc <= N ∧ 1 <= N).
  { assert (0 < N).
    { destruct (decide (0 < N)); [done|]. exfalso.
      assert (N `div` bullet_divisor loc <= 0); [|lia].
      apply Z.div_le_upper_bound; lia. }
    split; [|lia]. apply Z.div_le_upper_bound; nia. }
  unfold initialize_gun. fold N.
  destruct (randint_Ok 1 (N `div` bullet_divisor loc) r_count Hk) as (k & -> & Hkr).
  cbn. fold N.
  destruct (randint_Ok 0 (N - 1) r_pos) as (pos & -> & Hpr); [lia|].
  cbn. eexists. split; [reflexivity|]. cbn. fold N.
  unfold sorted, py_take. rewrite decide_True by lia.
  split; [done|].
  set (sh := shuffle r_shuffle (seqZ 0 N)).
  assert (Hsh : sh ≡ₚ seqZ 0 N) by apply shuffle_Permutation.
  split_and!.
  - rewrite merge_sort_Permutation, length_take, Hsh, length_seqZ. lia.
  - rewrite merge_sort_Permutation, length_take, Hsh, length_seqZ. lia.
  - rewrite merge_sort_Permutation.
    apply (sublist_NoDup _ sh); [|apply sublist_take].
    rewrite Hsh. apply NoDup_seqZ.
  - rewrite merge_sort_Permutation. apply Forall_take. rewrite Hsh.
    apply Forall_forall. intros p Hp. apply elem_of_seqZ in Hp. lia.
  - lia.
  - lia.
Qed.

(** [game.py] divides by 2: there C3 holds as the spec words it. *)
Lemma initialize_gun_zh r_count r_shuffle r_pos gs :
  2 <= chamber_count gs →
  ∃ gs', initialize_gun ZH r_count r_shuffle r_pos gs = Ok gs'
    ∧ 1 <= Z.of_nat (length (bullets gs')) <= chamber_count gs `div` 2
    ∧ NoDup (bullets gs')
    ∧ Forall (fun p => 0 <= p < chamber_count gs) (bullets gs')
    ∧ 0 <= current_position gs' < chamber_count gs.
Proof.
  intros HN.
  destruct (initialize_gun_bounds ZH r_count r_shuffle r_pos gs) as (gs' & H & _ & H');
    [|by eauto].
  cbn. apply Z.div_le_lower_bound; lia.
Qed.

(** ** The contract and a hit, in general *)

Lemma filter_dead_alter (l : list Player) v :
  (v < length l)%nat →
  filter (fun p => alive p = false) (alter (set_alive false) v l) ≠ [].
Proof.
  intros Hv Hnil.
  destruct (lookup_lt_is_Some_2 l v Hv) as [x Hx].
  assert (Hin : set_alive false x ∈ filter (fun p => alive p = false)
                  (alter (set_alive false) v l)).
  { apply list_elem_of_filter. split; [done|].
    apply list_elem_of_lookup. exists v. by rewrite list_lookup_alter_eq, Hx. }
  rewrite Hnil in Hin. by apply not_elem_of_nil in Hin.
Qed.

(** A hit on a turn that fires while the contract is active.  [run_game]
    applies the mutual-death rule only if the contract is still active
    after the shot: with more than one turn left everybody dies, with one
    turn left (the counter goes to 0 in the same [fire]) the designated
    target dies alone. *)
Lemma hit_under_contract loc inp idx player c :
  get_player idx c = Ok player → is_Some (llm_client player) →
  chamber_count (game_state c) ≠ 0 → reset_ok (game_state c) →
  (p_communication (parsed inp) = Some (comm_negotiate loc) →
   ∃ o, players c !! get_opponent idx c = Some o ∧ is_Some (llm_client o)) →
  accepted loc inp = false →
  ∃ c1 c',
    item_step loc inp idx c = Ok c1
    ∧ (current_position (game_state c1) ∈ bullets (game_state c1) →
       contract_active (game_state c1) = true →
       process_player_turn loc inp idx c = Ok (false, c')
       ∧ (1 < contract_turns_left (game_state c1) →
          contract_active (game_state c') = true
          ∧ Forall (fun p => alive p = false)
              (players (snd (check_contract_effect c'))))
       ∧ (contract_turns_left (game_state c1) <= 1 →
          contract_active (game_state c') = false
          ∧ players c'
              = alter (set_alive false)
                  (if decide (final_target loc inp idx (game_state c1) = target_self loc)
                   then idx else get_opponent idx c) (players c1))).
Proof.
  intros Hp Hllm Hn Hrs Hopp Hacc.
  destruct (turn_reaching_fire loc inp idx player c Hp Hllm Hn Hrs Hopp Hacc)
    as (c1 & c' & hit & Hs & Ht & _ & _ & _ & _ & Hhit & Hpl & _ & Hca & Hlen).
  exists c1, c'. split; [done|]. intros Hin Ha.
  rewrite bool_decide_eq_true_2 in Hhit by done. subst hit. cbn in Ht.
  rewrite Ha in Hca. cbn in Hca.
  split; [done|]. split.
  - intros Hgt. rewrite bool_decide_eq_false_2 in Hca by lia. split; [done|].
    unfold check_contract_effect. rewrite Hca.
    destruct (filter _ (players c')) eqn:Hf.
    + exfalso. rewrite Hpl in Hf. revert Hf. apply filter_dead_alter.
      rewrite Hlen. case_decide.
      * unfold get_player in Hp. destruct (players c !! idx) eqn:Hi; [|done].
        by apply lookup_lt_Some in Hi.
      * by eapply get_opponent_lt.
    + cbn. apply Forall_fmap. by apply Forall_true.
  - intros Hle. rewrite bool_decide_eq_true_2 in Hca by lia. done.
Qed.

(** ** The participant log and item names, in general *)

Lemma prefix_refl s : String.prefix s s = true.
Proof.
  induction s as [|a s IH]; [done|]. cbn.
  destruct (Ascii.ascii_dec a a); [done|congruence].
Qed.

Lemma str_contains_refl s : str_contains s s = true.
Proof. destruct s; cbn [str_contains]; by rewrite prefix_refl. Qed.

Lemma str_contains_app s a t : str_contains s t = true → str_contains s (a +:+ t) = true.
Proof.
  intros Ht. induction a as [|x a IH]; [done|].
  change (String x a +:+ t) with (String x (a +:+ t)).
  cbn [str_contains]. rewrite IH. apply orb_true_r.
Qed.

Lemma msg_used_player_names_item loc player_name it :
  str_contains it (msg_used_player loc player_name it) = true.
Proof.
  destruct loc; cbn; do 2 apply str_contains_app; apply str_contains_refl.
Qed.

(** Whenever a held item is processed, whichever it is, the entry that
    closes the participant log spells its name. *)
Lemma used_item_is_named_in_participant_log loc r idx player it param c msg c' :
  get_player idx c = Ok player → it ∈ items player →
  handle_item_usage loc r idx (Some it) param c = Ok (msg, c') →
  last (player_logs (game_state c')) = Some (msg_used_player loc (name player) it)
  ∧ str_contains it (msg_used_player loc (name player) it) = true.
Proof.
  intros Hp Hin. unfold handle_item_usage. rewrite Hp. cbn.
  rewrite decide_False by (by intros ?).
  destruct (if decide (it = item_bullet loc) then _ else _) as [[[s1 s2] c0]|]; [|done].
  cbn. intros [= _ <-]. cbn. rewrite last_snoc.
  split; [done|]. apply msg_used_player_names_item.
Qed.

(** ** The state a match starts from *)

Lemma initialize_gun_modifiers loc r_count r_shuffle r_pos gs gs' :
  initialize_gun loc r_count r_shuffle r_pos gs = Ok gs' →
  contract_active gs' = contract_active gs
  ∧ contract_turns_left gs' = contract_turns_left gs
  ∧ reverse_active gs' = reverse_active gs
  ∧ last_active_player gs' = last_active_player gs
  ∧ reset_reverse gs' = reset_reverse gs.
Proof.
  unfold initialize_gun. destruct (randint 1 _ _); [|done]. cbn.
  destruct (randint 0 _ _); [|done]. cbn. intros [= <-]. done.
Qed.

Lemma create_llm_client_Ok w provider cl :
  create_llm_client w provider = Ok cl → cl = provider.
Proof.
  unfold create_llm_client. destruct (load_config w); [done|].
  case_decide; [|done]. destruct (api_key w provider) as [[k|]|]; cbn; try done.
  destruct k; [done|]. destruct (new_client w provider _); [done|]. by intros [= <-].
Qed.

Lemma Player_init_Ok w config :
  (∀ provider, snd config = Some provider → create_llm_client w provider = Ok provider) →
  Player_init w (fst config) (snd config) = Ok (new_player config).
Proof.
  intros Hw. unfold Player_init, new_player. destruct (snd config) as [provider|]; [|done].
  by rewrite (Hw provider eq_refl).
Qed.

Lemma add_players_Ok w configs c :
  backends_created w configs →
  add_players w configs c = Ok (set_players (players c ++ (new_player <$> configs)) c).
Proof.
  intros Hw. revert c. induction Hw as [|config configs Hc _ IH]; intros c; cbn.
  - rewrite app_nil_r. by destruct c.
  - unfold add_player. rewrite (Player_init_Ok _ _ Hc). cbn. rewrite IH.
    unfold set_players. cbn. by rewrite <- app_assoc.
Qed.

Lemma add_players_Raise w pre n provider post e c :
  backends_created w pre → create_llm_client w provider = Raise e →
  add_players w (pre ++ (n, Some provider) :: post) c = Raise e.
Proof.
  intros Hw He. revert c. induction Hw as [|config configs Hc _ IH]; intros c; cbn.
  - unfold add_player, Player_init. cbn. by rewrite He.
  - unfold add_player. rewrite (Player_init_Ok _ _ Hc). cbn. apply IH.
Qed.

Lemma foldl_add_item_keeps its p :
  name (foldl (fun p item => add_item item p) p its) = name p
  ∧ alive (foldl (fun p item => add_item item p) p its) = alive p
  ∧ llm_client (foldl (fun p item => add_item item p) p its) = llm_client p.
Proof.
  revert p. induction its as [|it its IH]; intros p; cbn; [done|].
  destruct (IH (add_item it p)) as (-> & -> & ->). done.
Qed.

Lemma Forall_fmap_eq {A B} (f : A → B) (P : B → Prop) (l1 l2 : list A) :
  f <$> l1 = f <$> l2 → Forall (fun x => P (f x)) l2 → Forall (fun x => P (f x)) l1.
Proof.
  intros Heq Hall.
  assert (Hb : Forall P (f <$> l1)).
  { rewrite Heq. rewrite Forall_fmap. exact Hall. }
  rewrite Forall_fmap in Hb. exact Hb.
Qed.

Lemma fmap_imap_same {A B} (f : A → B) (g : nat → A → A) (l : list A) :
  (∀ i x, f (g i x) = f x) → f <$> imap g l = f <$> l.
Proof.
  intros Hfg. apply list_eq. intros i.
  rewrite !list_lookup_fmap, list_lookup_imap.
  destruct (l !! i); cbn; [|done]. by rewrite Hfg.
Qed.

(** After [setup_game] on a fresh controller, with a bullet range that is
    not empty and at least one player, all of them backed by a model that
    can be created, the match is in a state the statements above ask for:
    chambers present, no modifier active, [reset_reverse] absent,
    everybody alive, and the first player is on the roster. *)
Lemma setup_game_ready w loc configs r_count r_shuffle r_pos r_items r_first N :
  1 <= N `div` bullet_divisor loc → configs ≠ [] →
  backends_created w configs →
  Forall (fun config => is_Some (snd config)) configs →
  ∃ c, setup_game w loc configs r_count r_shuffle r_pos r_items r_first
         (GameController_init N) = Ok c
    ∧ chamber_count (game_state c) = N
    ∧ N ≠ 0
    ∧ reset_ok (game_state c)
    ∧ contract_active (game_state c) = false
    ∧ reverse_active (game_state c) = false
    ∧ 1 <= Z.of_nat (length (bullets (game_state c))) <= N `div` bullet_divisor loc
    ∧ name <$> players c = fst <$> configs
    ∧ Forall (fun p => alive p = true) (players c)
    ∧ Forall (fun p => is_Some (llm_client p)) (players c)
    ∧ (current_player_idx c < length (players c))%nat.
Proof.
  intros Hk Hne Hw Hllm. unfold setup_game.
  rewrite (add_players_Ok _ _ _ Hw). cbn -[imap mjoin replicate].
  destruct (initialize_gun_bounds loc r_count r_shuffle r_pos (GameState_init N) Hk)
    as (gs & Hi & Hc & Hb & _).
  destruct (initialize_gun_modifiers _ _ _ _ _ _ Hi) as (Ha & _ & Hr & _ & Hrr).
  rewrite Hi. cbn -[foldl imap mjoin replicate]. rewrite length_imap, length_fmap.
  destruct (randint_Ok 0 (Z.of_nat (length configs) - 1) r_first) as (first & -> & Hf).
  { destruct configs; [done|]. cbn. lia. }
  cbn -[foldl imap mjoin replicate].
  eexists. split; [reflexivity|]. cbn -[foldl imap mjoin replicate].
  rewrite length_imap, length_fmap.
  assert (HN : N ≠ 0).
  { intros ->. rewrite Z.div_0_l in Hk; [lia|]. destruct loc; discriminate. }
  split_and!; try done.
  - unfold reset_ok. rewrite Hrr. done.
  - apply Hb.
  - apply Hb.
  - rewrite fmap_imap_same by (intros; apply foldl_add_item_keeps).
    rewrite <- list_fmap_compose. done.
  - apply (Forall_fmap_eq alive (fun b => b = true) _ (new_player <$> configs)).
    + apply fmap_imap_same. intros. apply foldl_add_item_keeps.
    + apply Forall_fmap. by apply Forall_true.
  - apply (Forall_fmap_eq llm_client is_Some _ (new_player <$> configs)).
    + apply fmap_imap_same. intros. apply foldl_add_item_keeps.
    + by apply Forall_fmap.
  - lia.
Qed.

(** * Further properties of the engine *)

(** ** [add_bullet] *)

Lemma filter_none {A} (P : A → Prop) `{∀ x, Decision (P x)} (l : list A) :
  (∀ x, x ∈ l → ¬ P x) → filter P l = [].
Proof.
  induction l as [|x l IH]; intros Hl; [done|].
  rewrite filter_cons_False by (apply Hl; left).
  apply IH. intros y Hy. apply Hl. by right.
Qed.

Lemma choice_elem_of {A} (l : list A) r y : choice l r = Ok y → y ∈ l.
Proof.
  unfold choice. destruct (l !! _) as [x|] eqn:Hx; [|done].
  intros [= <-]. by eapply list_elem_of_lookup_2.
Qed.

Lemma sorted_Sorted l : Sorted Z.le (sorted l).
Proof. apply (Sorted_merge_sort Z.le). Qed.

(** X1. When every chamber of the gun already holds a bullet, [add_bullet]
    reports so in both messages and leaves the game state exactly as it
    was; no draw is consumed and nothing is raised. *)
Theorem add_bullet_on_full_gun loc r gs
    (Hfull : ∀ i, 0 <= i < chamber_count gs → i ∈ bullets gs) :
  add_bullet loc r gs = Ok (msg_chambers_full loc, msg_chambers_full loc, gs).
Proof.
  unfold add_bullet. rewrite filter_none; [done|].
  intros i Hi Hni. apply elem_of_seqZ in Hi. apply Hni, Hfull. lia.
Qed.

Lemma add_bullet_on_full_gun_witness :
  add_bullet EN 7 full_gun
    = Ok ("All chambers already have bullets", "All chambers already have bullets", full_gun).
Proof.
  apply (add_bullet_on_full_gun EN 7 full_gun).
  intros i Hi. cbn in Hi. cbn.
  assert (i = 0 ∨ i = 1) as [-> | ->] by lia; [left|right; left].
Defined.

(** X2. When some chamber is empty, [add_bullet] never raises and loads
    exactly one bullet, into a chamber of the gun that was empty: the old
    bullets all stay, the list stays in ascending order, and no other field
    of the game state (logs included) changes. *)
Theorem add_bullet_loads_one_empty_chamber loc r gs i
    (Hi : 0 <= i < chamber_count gs) (Hempty : i ∉ bullets gs) :
  ∃ new_bullet gs',
    add_bullet loc r gs
      = Ok (msg_bullet_added_spec loc new_bullet, msg_bullet_added_player loc, gs')
    ∧ 0 <= new_bullet < chamber_count gs
    ∧ (new_bullet ∉ bullets gs)
    ∧ (bullets gs' ≡ₚ new_bullet :: bullets gs)
    ∧ Sorted Z.le (bullets gs')
    ∧ gs' = set_bullets (bullets gs') gs.
Proof.
  unfold add_bullet.
  assert (Hin : i ∈ filter (fun i => i ∉ bullets gs) (seqZ 0 (chamber_count gs))).
  { apply list_elem_of_filter. split; [done|]. apply elem_of_seqZ. lia. }
  destruct (filter _ _) as [|x xs] eqn:Hf; [by apply not_elem_of_nil in Hin|].
  destruct (choice_cons_Ok x xs r) as [nb Hnb]. rewrite Hnb. cbn.
  apply choice_elem_of in Hnb. rewrite <- Hf in Hnb.
  apply list_elem_of_filter in Hnb as [Hnew Hrange]. apply elem_of_seqZ in Hrange.
  eexists nb, _. split; [reflexivity|]. cbn. split_and!; try done; try lia.
  - unfold sorted. rewrite merge_sort_Permutation.
    symmetry. apply Permutation_cons_append.
  - apply sorted_Sorted.
Qed.

Lemma add_bullet_loads_one_empty_chamber_witness :
  ∃ new_bullet gs',
    add_bullet EN 5 sample_gun
      = Ok (msg_bullet_added_spec EN new_bullet, msg_bullet_added_player EN, gs')
    ∧ (new_bullet ∉ [0; 2])
    ∧ (bullets gs' ≡ₚ new_bullet :: [0; 2]).
Proof.
  destruct (add_bullet_loads_one_empty_chamber EN 5 sample_gun 1)
    as (nb & gs' & Ha & _ & Hn & Hp & _).
  - cbn. lia.
  - cbn. intros H. apply (bool_decide_pack _) in H. vm_compute in H. exact H.
  - exists nb, gs'. repeat split; assumption.
Defined.

(** ** [fire], its log entries and its cycle *)

(** X3. The outcome of a shot is public: [fire] appends the same entries
    to the spectator log and to the participant log, first the position
    fired at with hit or miss, and then, exactly when this shot uses up an
    active contract, the notice that the contract has ended. *)
Theorem fire_writes_same_entries_to_both_logs loc gs (Hn : chamber_count gs ≠ 0) :
  let hit := bool_decide (current_position gs ∈ bullets gs) in
  let expired := contract_active gs && bool_decide (contract_turns_left gs - 1 <= 0) in
  ∃ gs' entries,
    fire loc gs = Ok (hit, gs')
    ∧ entries = msg_fire loc (current_position gs) hit
                  :: (if expired then [msg_contract_ended loc] else [])
    ∧ logs gs' = logs gs ++ entries
    ∧ player_logs gs' = player_logs gs ++ entries.
Proof.
  intros hit expired. unfold fire. cbn. rewrite py_mod_Ok by done. cbn.
  fold hit. subst expired. eexists _, _. split; [reflexivity|]. split; [reflexivity|].
  destruct (contract_active gs); cbn; [|done].
  case_decide; cbn.
  - rewrite bool_decide_eq_true_2 by done. by rewrite <- !app_assoc.
  - rewrite bool_decide_eq_false_2 by done. done.
Qed.

Lemma fire_writes_same_entries_to_both_logs_witness :
  ∃ gs',
    fire EN (set_contract true 1 sample_gun) = Ok (true, gs')
    ∧ logs gs' = ["Fired at position 1, result: hit"; "Contract effect has ended"]
    ∧ player_logs gs' = ["Fired at position 1, result: hit"; "Contract effect has ended"].
Proof.
  destruct (fire_writes_same_entries_to_both_logs EN (set_contract true 1 sample_gun))
    as (gs' & entries & Hf & -> & Hl & Hp).
  - discriminate.
  - exists gs'. repeat split; assumption.
Defined.

Lemma fires_spec loc n :
  ∀ gs, 0 < chamber_count gs → 0 <= current_position gs < chamber_count gs →
    ∃ hits gs',
      fires loc n gs = Ok (hits, gs')
      ∧ length hits = n
      ∧ (∀ k, (k < n)%nat →
           hits !! k
             = Some (bool_decide ((current_position gs + Z.of_nat k) `mod` chamber_count gs
                                    ∈ bullets gs)))
      ∧ current_position gs' = (current_position gs + Z.of_nat n) `mod` chamber_count gs
      ∧ bullets gs' = bullets gs
      ∧ chamber_count gs' = chamber_count gs.
Proof.
  induction n as [|n IH]; intros gs HN Hpos.
  - exists [], gs. cbn. split_and!; try done.
    + intros k Hk. lia.
    + rewrite Z.add_0_r, Z.mod_small; lia.
  - destruct (fire_fields loc gs) as (gs1 & Hf & Hc1 & Hb1 & Hp1 & _); [lia|].
    destruct (IH gs1) as (hits & gs' & Hfs & Hlen & Hk & Hp & Hb & Hc).
    { lia. }
    { rewrite Hp1, Hc1. apply Z.mod_pos_bound. lia. }
    cbn [fires]. rewrite Hf. cbn. rewrite Hfs. cbn.
    eexists _, _. split; [reflexivity|]. split_and!.
    + cbn. by rewrite Hlen.
    + intros [|k] Hlt.
      * cbn. rewrite Z.add_0_r, Z.mod_small by lia. done.
      * cbn. rewrite Hk by lia. rewrite Hp1, Hc1, Hb1.
        rewrite Zplus_mod_idemp_l.
        replace (current_position gs + 1 + Z.of_nat k)
          with (current_position gs + Z.of_nat (S k)) by lia.
        done.
    + rewrite Hp, Hp1, Hc1, Zplus_mod_idemp_l.
      replace (current_position gs + 1 + Z.of_nat n)
        with (current_position gs + Z.of_nat (S n)) by lia.
      done.
    + congruence.
    + congruence.
Qed.

(** X4. Shots go round the cylinder.  On a gun whose trigger is on one of
    its N chambers, N shots in a row raise nothing, bring the trigger back
    to where it started and leave the bullets in place; the k-th of them
    hits exactly when chamber (start + k) mod N is loaded.  So a bullet in
    chamber b is hit by shot number (b - start) mod N: no N shots in a row
    all miss a loaded gun. *)
Theorem fires_go_round_and_reach_every_bullet loc gs b
    (HN : 0 < chamber_count gs)
    (Hpos : 0 <= current_position gs < chamber_count gs)
    (Hb : b ∈ bullets gs) (Hrange : 0 <= b < chamber_count gs) :
  ∃ hits gs',
    fires loc (Z.to_nat (chamber_count gs)) gs = Ok (hits, gs')
    ∧ length hits = Z.to_nat (chamber_count gs)
    ∧ (∀ k, (k < Z.to_nat (chamber_count gs))%nat →
         hits !! k
           = Some (bool_decide ((current_position gs + Z.of_nat k) `mod` chamber_count gs
                                  ∈ bullets gs)))
    ∧ hits !! Z.to_nat ((b - current_position gs) `mod` chamber_count gs) = Some true
    ∧ current_position gs' = current_position gs
    ∧ bullets gs' = bullets gs.
Proof.
  destruct (fires_spec loc (Z.to_nat (chamber_count gs)) gs HN Hpos)
    as (hits & gs' & Hf & Hlen & Hk & Hp & Hbs & _).
  exists hits, gs'. split_and!; try done.
  - pose proof (Z.mod_pos_bound (b - current_position gs) (chamber_count gs) HN) as Hm.
    rewrite Hk by lia. f_equal. apply bool_decide_eq_true_2.
    rewrite Z2Nat.id by lia. rewrite Zplus_mod_idemp_r.
    replace (current_position gs + (b - current_position gs)) with b by lia.
    by rewrite Z.mod_small.
  - rewrite Hp, Z2Nat.id by lia.
    rewrite <- Zplus_mod_idemp_r, Z_mod_same_full, Z.add_0_r. apply Z.mod_small. done.
Qed.

Lemma fires_go_round_and_reach_every_bullet_witness :
  ∃ hits gs',
    fires EN 6 (set_current_position 4 sample_gun) = Ok (hits, gs')
    ∧ hits !! 4%nat = Some true
    ∧ current_position gs' = 4.
Proof.
  destruct (fires_go_round_and_reach_every_bullet EN (set_current_position 4 sample_gun) 2)
    as (hits & gs' & Hf & _ & _ & Hh & Hp & _).
  - cbn. lia.
  - cbn. lia.
  - right. left.
  - cbn. lia.
  - exists hits, gs'. repeat split; assumption.
Defined.

(** ** [initialize_gun], in full *)

(** X5. [initialize_gun] raises [ValueError] exactly when the range of the
    bullet count is empty (floor(N/d) < 1, with d = 2 in [game.py] and d = 3
    in [game_en.py]).  Otherwise it leaves a well-formed gun (trigger on a
    chamber, bullets in distinct chambers of the gun, in ascending order),
    keeps the chamber count, and the number of bullets it announces in its
    two log entries, one per log, is the number it has loaded; the
    participant entry is built from that count and the trigger position
    alone. *)
Theorem initialize_gun_loads_what_it_announces loc r_count r_shuffle r_pos gs :
  (chamber_count gs `div` bullet_divisor loc < 1 →
   initialize_gun loc r_count r_shuffle r_pos gs = Raise ValueError)
  ∧ (1 <= chamber_count gs `div` bullet_divisor loc →
     ∃ gs', initialize_gun loc r_count r_shuffle r_pos gs = Ok gs'
       ∧ 1 <= Z.of_nat (length (bullets gs')) <= chamber_count gs `div` bullet_divisor loc
       ∧ chamber_count gs' = chamber_count gs
       ∧ gun_ok gs'
       ∧ logs gs'
           = logs gs ++ [msg_init_spec loc (Z.of_nat (length (bullets gs')))
                           (bullets gs') (current_position gs')]
       ∧ player_logs gs'
           = player_logs gs ++ [msg_init_player loc (Z.of_nat (length (bullets gs')))
                                  (current_position gs')]).
Proof.
  split.
  - intros Hlt. unfold initialize_gun, randint. by rewrite decide_False by lia.
  - intros Hk. set (N := chamber_count gs) in *.
    assert (Hd : 2 <= bullet_divisor loc <= 3) by (destruct loc; cbn; lia).
    assert (HN : N `div` bullet_divisor loc <= N ∧ 1 <= N).
    { assert (0 < N).
      { destruct (decide (0 < N)); [done|]. exfalso.
        assert (N `div` bullet_divisor loc <= 0); [|lia].
        apply Z.div_le_upper_bound; lia. }
      split; [|lia]. apply Z.div_le_upper_bound; nia. }
    unfold initialize_gun. fold N.
    destruct (randint_Ok 1 (N `div` bullet_divisor loc) r_count Hk) as (k & -> & Hkr).
    cbn. fold N.
    destruct (randint_Ok 0 (N - 1) r_pos) as (pos & -> & Hpr); [lia|].
    cbn. fold N.
    set (sh := shuffle r_shuffle (seqZ 0 N)).
    assert (Hsh : sh ≡ₚ seqZ 0 N) by apply shuffle_Permutation.
    assert (Hlen : Z.of_nat (length (sorted (py_take k sh))) = k).
    { unfold sorted, py_take. rewrite decide_True by lia.
      rewrite merge_sort_Permutation, length_take, Hsh, length_seqZ. lia. }
    eexists. split; [reflexivity|]. cbn. fold N. rewrite Hlen.
    split_and!; try done; try lia.
    unfold gun_ok. cbn. fold N. unfold sorted at 1 2, py_take.
    rewrite decide_True by lia. split_and!; try lia.
    + rewrite merge_sort_Permutation. apply Forall_take. rewrite Hsh.
      apply Forall_forall. intros p Hp. apply elem_of_seqZ in Hp. lia.
    + rewrite merge_sort_Permutation.
      apply (sublist_NoDup _ sh); [|apply sublist_take].
      rewrite Hsh. apply NoDup_seqZ.
    + apply sorted_Sorted.
Qed.

Lemma initialize_gun_loads_what_it_announces_witness :
  initialize_gun EN 0 (fun _ => 0%nat) 0 (GameState_init 2) = Raise ValueError
  ∧ ∃ gs', initialize_gun ZH 5 (fun i => (7 * i + 3)%nat) 4 (GameState_init 6) = Ok gs'
      ∧ gun_ok gs'.
Proof.
  destruct (initialize_gun_loads_what_it_announces EN 0 (fun _ => 0%nat) 0
              (GameState_init 2)) as [Hraise _].
  destruct (initialize_gun_loads_what_it_announces ZH 5 (fun i => (7 * i + 3)%nat) 4
              (GameState_init 6)) as [_ Hok].
  split.
  - apply Hraise. reflexivity.
  - destruct Hok as (gs' & Hi & _ & _ & Hg & _); [vm_compute; discriminate|]. by exists gs'.
Defined.

(** ** Inventories *)

Lemma list_remove_first item l :
  item ∈ l →
  ∃ l1 l2, l = l1 ++ item :: l2 ∧ (item ∉ l1) ∧ list_remove item l = l1 ++ l2.
Proof.
  induction l as [|y l IH]; intros Hin; [by apply not_elem_of_nil in Hin|].
  cbn. destruct (decide (item = y)) as [->|Hne].
  - exists [], l. split_and!; try done. apply not_elem_of_nil.
  - apply elem_of_cons in Hin as [?|Hin]; [done|].
    destruct (IH Hin) as (l1 & l2 & -> & Hn1 & ->).
    exists (y :: l1), l2. split_and!; try done.
    apply not_elem_of_cons. done.
Qed.

(** X6. [Player.remove_item] takes out the first unit of the item and
    nothing else: the other entries of the inventory keep their order,
    further units of the same item stay, and the call answers True.  When
    the player holds no such item the call answers False and the player is
    unchanged. *)
Theorem remove_item_takes_first_unit item p :
  (item ∈ items p →
   ∃ before after,
     items p = before ++ item :: after
     ∧ (item ∉ before)
     ∧ remove_item item p = (true, set_items (before ++ after) p))
  ∧ (item ∉ items p → remove_item item p = (false, p)).
Proof.
  split; intros Hin; unfold remove_item.
  - rewrite decide_True by done.
    destruct (list_remove_first item (items p) Hin) as (l1 & l2 & Heq & Hn & ->).
    by exists l1, l2.
  - by rewrite decide_False.
Qed.

Lemma remove_item_takes_first_unit_witness :
  (∃ before after,
     ["Check"; "Push"; "Reverse"; "Push"] = before ++ "Push" :: after
     ∧ remove_item "Push" (mkPlayer "Bill" None ["Check"; "Push"; "Reverse"; "Push"] true)
       = (true, mkPlayer "Bill" None (before ++ after) true))
  ∧ remove_item "Contract" (mkPlayer "Bill" None ["Check"] true)
    = (false, mkPlayer "Bill" None ["Check"] true).
Proof.
  destruct (remove_item_takes_first_unit "Push"
              (mkPlayer "Bill" None ["Check"; "Push"; "Reverse"; "Push"] true))
    as [Hheld _].
  destruct (remove_item_takes_first_unit "Contract" (mkPlayer "Bill" None ["Check"] true))
    as [_ Habsent].
  split.
  - destruct Hheld as (before & after & Heq & Hn & Hr); [right; left|].
    exists before, after. split; assumption.
  - apply Habsent. intros H. apply (bool_decide_pack _) in H. vm_compute in H. exact H.
Defined.

Lemma remove_item_length item p :
  item ∈ items p →
  S (length (items (snd (remove_item item p)))) = length (items p).
Proof.
  intros Hin.
  destruct (remove_item_takes_first_unit item p) as [H _].
  destruct (H Hin) as (l1 & l2 & Heq & _ & ->). cbn.
  rewrite Heq, !length_app. cbn. lia.
Qed.

(** ** The effects of the items *)

Lemma get_player_lookup idx c player :
  get_player idx c = Ok player → players c !! idx = Some player.
Proof. unfold get_player. destruct (players c !! idx); [|done]. by intros [= ->]. Qed.

Ltac item_branch loc :=
  repeat (rewrite decide_False by (destruct loc; discriminate));
  rewrite decide_True by done.

(** X7. An ExtraBullet, Reverse, Contract or Push that the player holds
    is consumed by its activation, one unit of it and nothing else: the
    acting player's inventory loses the first unit of the item, every other
    player is untouched, and nobody's alive flag changes.  (With no
    chambers Push raises instead, see below.) *)
Theorem paramless_item_is_consumed_once loc r idx player item param c
    (Hp : get_player idx c = Ok player)
    (Hin : item ∈ items player)
    (Hkind : item ∈ [item_bullet loc; item_reverse loc; item_contract loc; item_push loc])
    (Hn : chamber_count (game_state c) ≠ 0) :
  ∃ msg c',
    handle_item_usage loc r idx (Some item) param c = Ok (msg, c')
    ∧ players c' !! idx = Some (set_items (list_remove item (items player)) player)
    ∧ S (length (list_remove item (items player))) = length (items player)
    ∧ (∀ j, j ≠ idx → players c' !! j = players c !! j)
    ∧ alive <$> players c' = alive <$> players c.
Proof.
  pose proof (get_player_lookup _ _ _ Hp) as Hl.
  assert (Hrm : ∀ ps, ps = alter (fun p => snd (remove_item item p)) idx (players c) →
            ps !! idx = Some (set_items (list_remove item (items player)) player)
            ∧ S (length (list_remove item (items player))) = length (items player)
            ∧ (∀ j, j ≠ idx → ps !! j = players c !! j)
            ∧ alive <$> ps = alive <$> players c).
  { intros ps ->. split_and!.
    - rewrite list_lookup_alter_eq, Hl. cbn. unfold remove_item.
      by rewrite decide_True.
    - pose proof (remove_item_length item player Hin) as Hlen.
      unfold remove_item in Hlen. by rewrite decide_True in Hlen.
    - intros j Hj. by rewrite list_lookup_alter_ne.
    - apply fmap_alter_same. intros. apply remove_item_alive. }
  unfold handle_item_usage. rewrite Hp. cbn.
  rewrite decide_False by (by intros ?).
  rewrite !elem_of_cons in Hkind.
  destruct Hkind as [-> | [-> | [-> | [-> | Hnil]]]];
    [| | | |by apply not_elem_of_nil in Hnil].
  - item_branch loc. unfold add_bullet. cbn.
    destruct (filter _ _) as [|x xs]; cbn.
    + eexists _, _. split; [reflexivity|]. by apply Hrm.
    + destruct (choice_cons_Ok x xs r) as [y ->]. cbn.
      eexists _, _. split; [reflexivity|]. by apply Hrm.
  - item_branch loc. cbn. eexists _, _. split; [reflexivity|]. by apply Hrm.
  - item_branch loc. cbn. eexists _, _. split; [reflexivity|]. by apply Hrm.
  - item_branch loc. unfold move_position. cbn. rewrite py_mod_Ok by done. cbn.
    eexists _, _. split; [reflexivity|]. by apply Hrm.
Qed.

Lemma paramless_item_is_consumed_once_witness :
  ∃ msg c',
    handle_item_usage EN 0 0 (Some "Reverse") None (reverse_duel EN) = Ok (msg, c')
    ∧ items <$> players c' !! 0%nat = Some []
    ∧ players c' !! 1%nat = players (reverse_duel EN) !! 1%nat.
Proof.
  destruct (paramless_item_is_consumed_once EN 0 0
              (mkPlayer "Bill" (Some "anthropic") ["Reverse"] true)
              "Reverse" None (reverse_duel EN))
    as (msg & c' & Hh & Hme & _ & Hother & _).
  - reflexivity.
  - left.
  - right. left.
  - discriminate.
  - exists msg, c'. split; [exact Hh|]. split.
    + rewrite Hme. reflexivity.
    + apply Hother. discriminate.
Defined.

(** X8. Check counts chambers from 1.  With a Check in the inventory and a
    parameter that [int] reads as n with 1 <= n <= N, the activation
    inspects chamber n - 1: the message returned to the player tells
    whether that chamber is loaded, one Check is consumed, the spectator
    log gains the inspection with its result and then the usage entry, the
    participant log gains the usage entry alone, and nothing else of the
    game state changes. *)
Theorem check_inspects_chamber_n_minus_one loc r idx player param n c
    (Hp : get_player idx c = Ok player)
    (Hin : item_check loc ∈ items player)
    (Hint : py_int param = Ok n)
    (Hrange : 1 <= n <= chamber_count (game_state c)) :
  let has_bullet := bool_decide (n - 1 ∈ bullets (game_state c)) in
  ∃ c',
    handle_item_usage loc r idx (Some (item_check loc)) param c
      = Ok (msg_checked_player loc (n - 1) has_bullet, c')
    ∧ players c' !! idx
        = Some (set_items (list_remove (item_check loc) (items player)) player)
    ∧ (∀ j, j ≠ idx → players c' !! j = players c !! j)
    ∧ logs (game_state c')
        = logs (game_state c)
            ++ [msg_check_chamber loc (name player) (n - 1) has_bullet;
                msg_used_spec loc (name player) (item_check loc)
                  (msg_checked_spec loc (name player) (n - 1))]
    ∧ player_logs (game_state c')
        = player_logs (game_state c) ++ [msg_used_player loc (name player) (item_check loc)]
    ∧ frame (game_state c') = frame (game_state c).
Proof.
  intros has_bullet. pose proof (get_player_lookup _ _ _ Hp) as Hl.
  unfold handle_item_usage. rewrite Hp. cbn.
  rewrite decide_False by (by intros ?).
  item_branch loc. unfold check_branch. rewrite Hint. cbn.
  rewrite decide_False by lia.
  unfold check_chamber. rewrite decide_False by lia. cbn. fold has_bullet.
  eexists. split; [reflexivity|]. cbn. split_and!; try done.
  - rewrite list_lookup_alter_eq, Hl. cbn. unfold remove_item. by rewrite decide_True.
  - intros j Hj. by rewrite list_lookup_alter_ne.
  - by rewrite <- app_assoc.
Qed.

Lemma check_inspects_chamber_n_minus_one_witness :
  ∃ c',
    handle_item_usage EN 0 0 (Some "Check") (Some " 3 ") (check_duel EN)
      = Ok ("Position 3 has a bullet", c')
    ∧ player_logs (game_state c') = ["Bill used Check"].
Proof.
  destruct (check_inspects_chamber_n_minus_one EN 0 0
              (mkPlayer "Bill" (Some "anthropic") ["Check"] true) (Some " 3 ") 3
              (check_duel EN))
    as (c' & Hh & _ & _ & _ & Hpl & _).
  - reflexivity.
  - left.
  - reflexivity.
  - cbn. lia.
  - exists c'. split; [exact Hh|exact Hpl].
Defined.

(** X9. An ExtraBullet used on a gun whose chambers are all loaded is
    lost: the item leaves the inventory, the player is told that all
    chambers are full, and the gun is exactly as before. *)
Theorem extra_bullet_on_full_gun_is_lost loc r idx player param c
    (Hp : get_player idx c = Ok player)
    (Hin : item_bullet loc ∈ items player)
    (Hfull : ∀ i, 0 <= i < chamber_count (game_state c) → i ∈ bullets (game_state c)) :
  ∃ c',
    handle_item_usage loc r idx (Some (item_bullet loc)) param c
      = Ok (msg_chambers_full loc, c')
    ∧ players c' !! idx
        = Some (set_items (list_remove (item_bullet loc) (items player)) player)
    ∧ S (length (list_remove (item_bullet loc) (items player))) = length (items player)
    ∧ frame (game_state c') = frame (game_state c).
Proof.
  pose proof (get_player_lookup _ _ _ Hp) as Hl.
  unfold handle_item_usage. rewrite Hp. cbn.
  rewrite decide_False by (by intros ?).
  item_branch loc. unfold add_bullet. cbn.
  rewrite filter_none.
  2:{ intros i Hi Hni. apply elem_of_seqZ in Hi. apply Hni, Hfull. lia. }
  cbn. eexists. split; [reflexivity|]. cbn. split_and!; try done.
  - rewrite list_lookup_alter_eq, Hl. cbn. unfold remove_item. by rewrite decide_True.
  - pose proof (remove_item_length _ player Hin) as Hlen.
    unfold remove_item in Hlen. by rewrite decide_True in Hlen.
Qed.

Lemma extra_bullet_on_full_gun_is_lost_witness :
  ∃ c',
    handle_item_usage EN 0 0 (Some "Bullet") None (sample_duel full_gun ["Bullet"] [])
      = Ok ("All chambers already have bullets", c')
    ∧ items <$> players c' !! 0%nat = Some [].
Proof.
  destruct (extra_bullet_on_full_gun_is_lost EN 0 0
              (mkPlayer "Bill" (Some "anthropic") ["Bullet"] true) None
              (sample_duel full_gun ["Bullet"] []))
    as (c' & Hh & Hme & _).
  - reflexivity.
  - left.
  - intros i Hi. cbn in Hi. cbn.
    assert (i = 0 ∨ i = 1) as [-> | ->] by lia; [left|right; left].
  - exists c'. split; [exact Hh|]. rewrite Hme. reflexivity.
Defined.

(** X10. Push moves the trigger on by one chamber, modulo the chamber
    count, and does nothing a shot would do: no fire entry is written (each
    log gains only the usage entry), the bullets stay, and the contract
    keeps its state and its counter. *)
Theorem push_advances_trigger_without_firing loc r idx player param c
    (Hp : get_player idx c = Ok player)
    (Hin : item_push loc ∈ items player)
    (Hn : chamber_count (game_state c) ≠ 0) :
  let gs := game_state c in
  let next := (current_position gs + 1) `mod` chamber_count gs in
  ∃ c',
    handle_item_usage loc r idx (Some (item_push loc)) param c = Ok (msg_move loc next, c')
    ∧ current_position (game_state c') = next
    ∧ bullets (game_state c') = bullets gs
    ∧ chamber_count (game_state c') = chamber_count gs
    ∧ contract_active (game_state c') = contract_active gs
    ∧ contract_turns_left (game_state c') = contract_turns_left gs
    ∧ reverse_active (game_state c') = reverse_active gs
    ∧ logs (game_state c')
        = logs gs ++ [msg_used_spec loc (name player) (item_push loc) (msg_move loc next)]
    ∧ player_logs (game_state c')
        = player_logs gs ++ [msg_used_player loc (name player) (item_push loc)].
Proof.
  intros gs next. unfold handle_item_usage. rewrite Hp. cbn.
  rewrite decide_False by (by intros ?).
  item_branch loc. unfold move_position. cbn. rewrite py_mod_Ok by done. cbn.
  eexists. split; [reflexivity|]. done.
Qed.

Lemma push_advances_trigger_without_firing_witness :
  ∃ c',
    handle_item_usage EN 0 0 (Some "Push") None
      (sample_duel (set_current_position 5 sample_gun) ["Push"] [])
      = Ok ("Trigger moved to position 1", c')
    ∧ current_position (game_state c') = 0
    ∧ player_logs (game_state c') = ["Bill used Push"].
Proof.
  destruct (push_advances_trigger_without_firing EN 0 0
              (mkPlayer "Bill" (Some "anthropic") ["Push"] true) None
              (sample_duel (set_current_position 5 sample_gun) ["Push"] []))
    as (c' & Hh & Hpos & _ & _ & _ & _ & _ & _ & Hpl).
  - reflexivity.
  - left.
  - discriminate.
  - exists c'. repeat split; assumption.
Defined.

(** X11. For a player on the roster [handle_item_usage] raises in one case
    only: a Push that the player holds, on a gun without chambers, where
    [move_position] divides by zero.  Every other call returns a message,
    whatever the item name and the parameter are: the [ValueError] of
    [check_chamber] is never reached, and those of [int] are caught. *)
Theorem handle_item_usage_raises_only_for_push_without_chambers
    loc r idx player item param c e
    (Hp : get_player idx c = Ok player) :
  handle_item_usage loc r idx item param c = Raise e
  ↔ e = ZeroDivisionError
    ∧ item = Some (item_push loc)
    ∧ item_push loc ∈ items player
    ∧ chamber_count (game_state c) = 0.
Proof.
  split.
  - unfold handle_item_usage. rewrite Hp. cbn.
    destruct item as [it|]; [|done].
    case_decide as Hin; [done|].
    destruct (decide (it = item_bullet loc)) as [Hb|Hb].
    { unfold add_bullet. cbn.
      destruct (filter _ _) as [|x xs]; [done|].
      destruct (choice_cons_Ok x xs r) as [y ->]. done. }
    destruct (decide (it = item_check loc)) as [Hc|Hc].
    { unfold check_branch. destruct (py_int param) as [k|e'] eqn:He; cbn.
      - case_decide as Hrg; [done|].
        unfold check_chamber. rewrite decide_False by done. done.
      - destruct (py_int_raises _ _ He) as [-> | ->]; done. }
    destruct (decide (it = item_reverse loc)) as [Hr|Hr]; [done|].
    destruct (decide (it = item_contract loc)) as [Hct|Hct]; [done|].
    destruct (decide (it = item_push loc)) as [->|Hpu]; [|done].
    unfold move_position, py_mod. cbn.
    case_decide as H0; [|done]. cbn. intros [= <-]. done.
  - intros (-> & -> & Hin & H0).
    unfold handle_item_usage. rewrite Hp. cbn.
    rewrite decide_False by (by intros ?).
    item_branch loc. unfold move_position, py_mod. cbn. by rewrite decide_True.
Qed.

Lemma handle_item_usage_raises_only_for_push_without_chambers_witness :
  handle_item_usage EN 0 0 (Some "Push") None (sample_duel (GameState_init 0) ["Push"] [])
    = Raise ZeroDivisionError.
Proof.
  apply (handle_item_usage_raises_only_for_push_without_chambers EN 0 0
           (mkPlayer "Bill" (Some "anthropic") ["Push"] true)).
  - reflexivity.
  - repeat split. left.
Defined.

(** ** What no step ever undoes *)

Lemma roster_kept_refl l : roster_kept l l.
Proof. split; [done|]. intros i p Hp. exists p. done. Qed.

Lemma roster_kept_trans l1 l2 l3 : roster_kept l1 l2 → roster_kept l2 l3 → roster_kept l1 l3.
Proof.
  intros [Hl1 H1] [Hl2 H2]. split; [congruence|].
  intros i p Hp. destruct (H1 i p Hp) as (p' & Hp' & Hn & Hc & Ha).
  destruct (H2 i p' Hp') as (p'' & Hp'' & Hn' & Hc' & Ha').
  exists p''. split_and!; [done|congruence|congruence|auto].
Qed.

Lemma roster_kept_alter (f : Player → Player) i l :
  (∀ p, name (f p) = name p ∧ llm_client (f p) = llm_client p
        ∧ (alive p = false → alive (f p) = false)) →
  roster_kept l (alter f i l).
Proof.
  intros Hf. split; [apply length_alter|].
  intros j p Hp. destruct (decide (i = j)) as [->|Hne].
  - exists (f p). rewrite list_lookup_alter_eq, Hp. cbn.
    destruct (Hf p) as (? & ? & ?). done.
  - exists p. rewrite list_lookup_alter_ne by done. done.
Qed.

Lemma roster_kept_remove_item it i l :
  roster_kept l (alter (fun p => snd (remove_item it p)) i l).
Proof.
  apply roster_kept_alter. intros p.
  rewrite remove_item_name, remove_item_llm, remove_item_alive. done.
Qed.

Lemma roster_kept_kill i l : roster_kept l (alter (set_alive false) i l).
Proof. apply roster_kept_alter. intros p. done. Qed.

Lemma roster_kept_kill_all l : roster_kept l (set_alive false <$> l).
Proof.
  split; [apply length_fmap|].
  intros i p Hp. exists (set_alive false p). rewrite list_lookup_fmap, Hp. done.
Qed.

Lemma state_kept_refl gs : state_kept gs gs.
Proof. split_and!; done. Qed.

Lemma state_kept_trans gs1 gs2 gs3 : state_kept gs1 gs2 → state_kept gs2 gs3 → state_kept gs1 gs3.
Proof.
  intros (Hc1 & Hb1 & Hl1 & Hp1 & Hg1) (Hc2 & Hb2 & Hl2 & Hp2 & Hg2).
  split_and!; [congruence|auto|by etrans|by etrans|auto].
Qed.

(** A change of the logs alone, at their end. *)
Lemma state_kept_logs gs gs' l1 l2 :
  frame gs' = frame gs → logs gs' = logs gs ++ l1 → player_logs gs' = player_logs gs ++ l2 →
  state_kept gs gs'.
Proof.
  intros Hfr Hl Hp. destruct (frame_eq _ _ Hfr) as (Hc & Hb & Hpos & _).
  split_and!.
  - done.
  - by rewrite Hb.
  - rewrite Hl. by apply prefix_app_r.
  - rewrite Hp. by apply prefix_app_r.
  - unfold gun_ok. by rewrite Hc, Hb, Hpos.
Qed.

Lemma gun_ok_add_bullet gs nb :
  gun_ok gs → 0 <= nb < chamber_count gs → nb ∉ bullets gs →
  gun_ok (set_bullets (sorted (bullets gs ++ [nb])) gs).
Proof.
  intros (HN & Hpos & Hr & Hnd & Hs) Hnb Hnew. unfold gun_ok. cbn.
  assert (Hperm : sorted (bullets gs ++ [nb]) ≡ₚ nb :: bullets gs).
  { unfold sorted. rewrite merge_sort_Permutation.
    symmetry. apply Permutation_cons_append. }
  split_and!; try done; try lia.
  - rewrite Hperm. by constructor.
  - rewrite Hperm. by constructor.
  - apply sorted_Sorted.
Qed.

Lemma add_bullet_kept loc r gs s1 s2 gs' :
  add_bullet loc r gs = Ok (s1, s2, gs') → state_kept gs gs'.
Proof.
  unfold add_bullet.
  destruct (filter _ _) as [|x xs] eqn:Hf; [intros [= _ _ <-]; apply state_kept_refl|].
  destruct (choice (x :: xs) r) as [nb|] eqn:Hnb; [|done]. cbn.
  intros [= _ _ <-].
  apply choice_elem_of in Hnb. rewrite <- Hf in Hnb.
  apply list_elem_of_filter in Hnb as [Hnew Hrange]. apply elem_of_seqZ in Hrange.
  split_and!; try done.
  - intros b Hb. cbn. unfold sorted. rewrite merge_sort_Permutation.
    apply elem_of_app. by left.
  - intros Hok. apply gun_ok_add_bullet; [done|lia|done].
Qed.

Lemma move_position_kept loc gs m gs' :
  move_position loc gs = Ok (m, gs') → state_kept gs gs'.
Proof.
  unfold move_position, py_mod. case_decide as H0; [done|]. cbn.
  intros [= _ <-]. split_and!; try done.
  intros (HN & Hpos & Hr & Hnd & Hs). unfold gun_ok. cbn.
  split_and!; try done; apply Z.mod_pos_bound; lia.
Qed.

Lemma record_item_use_kept loc n it m c gs :
  state_kept gs (game_state c) →
  state_kept gs (game_state (record_item_use loc n it m c)).
Proof.
  intros H. eapply state_kept_trans; [exact H|].
  by eapply (state_kept_logs _ _ [_] [_]).
Qed.

(** [handle_item_usage], whatever it is asked to do. *)
Lemma handle_item_usage_kept loc r idx item param c msg c' :
  handle_item_usage loc r idx item param c = Ok (msg, c') →
  state_kept (game_state c) (game_state c')
  ∧ roster_kept (players c) (players c')
  ∧ current_player_idx c' = current_player_idx c
  ∧ console c' = console c.
Proof.
  unfold handle_item_usage.
  destruct (get_player idx c) as [player|] eqn:Hp; [|done]. cbn.
  destruct item as [it|];
    [|intros [= _ <-]; split_and!; try done;
      first [apply state_kept_refl|apply roster_kept_refl]].
  case_decide as Hin;
    [intros [= _ <-]; split_and!; try done;
      first [apply state_kept_refl|apply roster_kept_refl]|].
  destruct (decide (it = item_bullet loc)) as [Hb|Hb].
  { destruct (add_bullet loc r _) as [[[s1 s2] gs']|] eqn:Ha; [|done].
    cbn. intros [= _ <-]. apply add_bullet_kept in Ha. cbn in Ha.
    split_and!; try done.
    - by apply record_item_use_kept.
    - apply roster_kept_remove_item. }
  destruct (decide (it = item_check loc)) as [Hc|Hc].
  { destruct (check_branch loc idx player param c) as [[[s1 s2] c1]|e] eqn:Hcb.
    - cbn. intros [= _ <-]. apply check_branch_shape in Hcb.
      destruct Hcb as [-> | [m ->]]; (split_and!; try done).
      + apply record_item_use_kept, state_kept_refl.
      + apply roster_kept_refl.
      + apply record_item_use_kept. cbn.
        eapply (state_kept_logs _ _ [_] []); [done|done|by rewrite app_nil_r].
      + apply roster_kept_remove_item.
    - destruct e; try done; cbn; intros [= _ <-]; (split_and!; try done);
        first [apply record_item_use_kept, state_kept_refl | apply roster_kept_refl]. }
  destruct (decide (it = item_reverse loc)) as [Hr|Hr].
  { cbn. intros [= _ <-]. split_and!; try done.
    - apply record_item_use_kept. cbn. by split_and!.
    - apply roster_kept_remove_item. }
  destruct (decide (it = item_contract loc)) as [Hct|Hct].
  { cbn. intros [= _ <-]. split_and!; try done.
    - apply record_item_use_kept. cbn. by split_and!.
    - apply roster_kept_remove_item. }
  destruct (decide (it = item_push loc)) as [Hpu|Hpu].
  { destruct (move_position loc _) as [[m gs']|] eqn:Hm; [|done].
    cbn. intros [= _ <-]. apply move_position_kept in Hm. cbn in Hm.
    split_and!; try done.
    - by apply record_item_use_kept.
    - apply roster_kept_remove_item. }
  cbn. intros [= _ <-]. split_and!; try done.
  - apply record_item_use_kept, state_kept_refl.
  - apply roster_kept_refl.
Qed.

Lemma fire_kept loc gs hit gs' :
  fire loc gs = Ok (hit, gs') → state_kept gs gs'.
Proof.
  intros Hf. pose proof (fire_Ok_chambers _ _ _ Hf) as Hn. revert Hf.
  unfold fire. cbn. rewrite py_mod_Ok by done. cbn. intros [= _ <-].
  assert (Hpos : gun_ok gs →
            0 <= (current_position gs + 1) `mod` chamber_count gs < chamber_count gs).
  { intros (HN & _). apply Z.mod_pos_bound. lia. }
  destruct (contract_active gs); [case_decide|]; cbn;
    (split_and!; try done;
     [try (by eapply prefix_app_r); by (etrans; [|apply prefix_app_r]; try done;
                                        apply prefix_app_r)..|]);
    intros Hok; destruct Hok as (HN & Hp & Hr & Hnd & Hs); unfold gun_ok; cbn;
    (split_and!; try done; apply Z.mod_pos_bound; lia).
Qed.

Lemma fire_step_kept loc inp idx opp player c b c' :
  fire_step loc inp idx opp player c = Ok (b, c') →
  state_kept (game_state c) (game_state c')
  ∧ roster_kept (players c) (players c')
  ∧ current_player_idx c' = current_player_idx c
  ∧ console c `prefix_of` console c'.
Proof.
  unfold fire_step.
  destruct (reversed_target _ _ _ _) as [[] target]; cbn -[fire];
    destruct (reset_reverse (game_state c)) as [[]|]; cbn -[fire];
    (destruct (fire loc _) as [[h gs1]|] eqn:Hf; [|done]);
    apply fire_kept in Hf; cbn;
    (assert (Hst : state_kept (game_state c) gs1)
       by (eapply state_kept_trans; [|exact Hf]; by split_and!));
    (destruct h;
     [destruct (decide (target = target_self loc));
      [|unfold get_player; cbn; destruct (players c !! opp); [|done]; cbn]|]);
    intros [= <- <-]; cbn;
    (split_and!; try done;
     first [apply roster_kept_kill | apply roster_kept_refl
           | by (rewrite <- ?app_assoc; apply prefix_app_r)]).
Qed.

Lemma process_player_turn_kept loc inp idx c b c' :
  process_player_turn loc inp idx c = Ok (b, c') →
  state_kept (game_state c) (game_state c')
  ∧ roster_kept (players c) (players c')
  ∧ current_player_idx c' = current_player_idx c
  ∧ console c `prefix_of` console c'.
Proof.
  unfold process_player_turn.
  destruct (get_player idx c) as [player|] eqn:Hp; [|done]. cbn.
  destruct (llm_client player).
  2:{ intros [= <- <-]. split_and!; try done;
        first [apply state_kept_refl|apply roster_kept_refl]. }
  assert (Hitem : ∀ c1, item_step loc inp idx c = Ok c1 →
            state_kept (game_state c) (game_state c1)
            ∧ roster_kept (players c) (players c1)
            ∧ current_player_idx c1 = current_player_idx c
            ∧ console c1 = console c).
  { intros c1. unfold item_step.
    destruct (p_item (parsed inp)) as [it|];
      [|intros [= <-]; split_and!; try done;
        first [apply state_kept_refl|apply roster_kept_refl]].
    case_decide;
      [intros [= <-]; split_and!; try done;
        first [apply state_kept_refl|apply roster_kept_refl]|].
    destruct (handle_item_usage _ _ _ _ _ _) as [[msg c0]|] eqn:Hh; [|done].
    cbn. intros [= <-]. by apply handle_item_usage_kept in Hh. }
  destruct (item_step loc inp idx c) as [c1|]; [|done]. cbn.
  destruct (Hitem c1 eq_refl) as (Hs1 & Hr1 & Hi1 & Hc1).
  destruct (communication_step _ _ _ _ _ _) as [[go_on c2]|] eqn:Hc; [|done]. cbn.
  destruct (communication_step_inv _ _ _ _ _ _ _ _ Hc)
    as (_ & Hpl & Hfr & _ & Hi2 & _ & (es & Hl & Hpl2) & (out & Hout)).
  assert (Hs2 : state_kept (game_state c) (game_state c2)).
  { eapply state_kept_trans; [exact Hs1|]. by eapply state_kept_logs. }
  destruct go_on.
  - intros Hf. apply fire_step_kept in Hf. destruct Hf as (Hs3 & Hr3 & Hi3 & Hc3).
    split_and!.
    + by eapply state_kept_trans.
    + eapply roster_kept_trans; [exact Hr1|]. by rewrite <- Hpl.
    + congruence.
    + etrans; [|exact Hc3]. rewrite Hout, Hc1. by apply prefix_app_r.
  - intros [= <- <-]. split_and!.
    + done.
    + by rewrite Hpl.
    + congruence.
    + rewrite Hout, Hc1. by apply prefix_app_r.
Qed.

Lemma check_contract_effect_kept c :
  game_state (snd (check_contract_effect c)) = game_state c
  ∧ roster_kept (players c) (players (snd (check_contract_effect c)))
  ∧ console c `prefix_of` console (snd (check_contract_effect c))
  ∧ current_player_idx (snd (check_contract_effect c)) = current_player_idx c.
Proof.
  unfold check_contract_effect.
  destruct (contract_active _); [|split_and!; try done; apply roster_kept_refl].
  destruct (filter _ _); [split_and!; try done; apply roster_kept_refl|].
  cbn. split_and!; try done;
    first [apply roster_kept_kill_all|by apply prefix_app_r].
Qed.

Lemma game_loop_kept loc agent fuel :
  ∀ ga tc tp c ex, game_loop loc agent fuel ga tc tp c = Some (Ok ex) →
    state_kept (game_state c) (game_state (ctl ex))
    ∧ roster_kept (players c) (players (ctl ex))
    ∧ console c `prefix_of` console (ctl ex).
Proof.
  induction fuel as [|fuel IH]; intros ga tc tp c ex Hl; [done|].
  rewrite game_loop_S in Hl.
  destruct (ga && (tc <? max_turns)%nat);
    [|injection Hl as <-; cbn; split_and!; try done;
      first [apply state_kept_refl|apply roster_kept_refl]].
  destruct (process_player_turn _ _ _ _) as [[b c']|] eqn:Ht; [|done].
  apply process_player_turn_kept in Ht. destruct Ht as (Hs & Hr & Hi & Hc).
  destruct b; cbn [negb] in Hl.
  - destruct (length (players c')); [done|].
    apply IH in Hl. cbn in Hl. destruct Hl as (Hs' & Hr' & Hc').
    split_and!; [by eapply state_kept_trans|by eapply roster_kept_trans|by etrans].
  - injection Hl as <-. cbn.
    destruct (check_contract_effect_kept c') as (Hg & Hrk & Hck & _).
    destruct (contract_active (game_state c')); [|done].
    split_and!; [by rewrite Hg|by eapply roster_kept_trans|by etrans].
Qed.

Lemma run_game_kept loc agent fuel c ex :
  run_game loc agent fuel c = Some (Ok ex) →
  state_kept (game_state c) (game_state (ctl ex))
  ∧ roster_kept (players c) (players (ctl ex))
  ∧ console c `prefix_of` console (ctl ex).
Proof.
  unfold run_game.
  destruct (game_loop _ _ _ _ _ _ _) as [[ex0|]|] eqn:Hl; [|done..].
  intros [= <-]. cbn. apply game_loop_kept in Hl. destruct Hl as (Hs & Hr & Hc).
  destruct (announce_frame (ctl ex0)) as (-> & -> & out & ->).
  split_and!; try done. etrans; [exact Hc|]. by apply prefix_app_r.
Qed.

(** X12. Nothing a match does to the game state is ever undone.  From the
    start of [run_game] to its end the chamber count is the same, every
    bullet that was loaded is still loaded, the spectator log and the
    participant log have only grown at their end (no entry is dropped,
    changed or reordered), and a gun that was well formed (trigger on a
    chamber, bullets distinct, inside the gun and in ascending order) still
    is. *)
Theorem run_game_only_appends_and_keeps_the_gun loc agent fuel c ex
    (Hrun : run_game loc agent fuel c = Some (Ok ex)) :
  chamber_count (game_state (ctl ex)) = chamber_count (game_state c)
  ∧ (∀ b, b ∈ bullets (game_state c) → b ∈ bullets (game_state (ctl ex)))
  ∧ (∃ entries, logs (game_state (ctl ex)) = logs (game_state c) ++ entries)
  ∧ (∃ entries, player_logs (game_state (ctl ex)) = player_logs (game_state c) ++ entries)
  ∧ (gun_ok (game_state c) → gun_ok (game_state (ctl ex))).
Proof.
  destruct (run_game_kept _ _ _ _ _ Hrun) as ((Hc & Hb & Hl & Hp & Hg) & _).
  split_and!; done.
Qed.

Lemma run_game_only_appends_and_keeps_the_gun_witness :
  ∃ ex,
    run_game EN (fun _ => default_decision) 31 last_contract_turn_duel = Some (Ok ex)
    ∧ chamber_count (game_state (ctl ex)) = 6
    ∧ gun_ok (game_state (ctl ex)).
Proof.
  assert (∃ ex, run_game EN (fun _ => default_decision) 31 last_contract_turn_duel
                  = Some (Ok ex)) as [ex Hrun].
  { eexists. vm_compute. reflexivity. }
  destruct (run_game_only_appends_and_keeps_the_gun _ _ _ _ _ Hrun)
    as (Hc & _ & _ & _ & Hg).
  exists ex. split; [exact Hrun|]. split; [exact Hc|]. apply Hg.
  unfold gun_ok. cbn. split_and!; try lia.
  - repeat constructor; lia.
  - apply (bool_decide_unpack _). by vm_compute.
  - repeat constructor. lia.
Defined.

(** X13. The roster is fixed and death is final.  From the start of
    [run_game] to its end every player keeps its place on the roster, its
    name and its backend, and a player who was not alive is not alive at
    the end; no step of the game sets [alive] back to True. *)
Theorem run_game_never_revives loc agent fuel c ex
    (Hrun : run_game loc agent fuel c = Some (Ok ex)) :
  length (players (ctl ex)) = length (players c)
  ∧ ∀ i p, players c !! i = Some p →
      ∃ p', players (ctl ex) !! i = Some p'
        ∧ name p' = name p
        ∧ llm_client p' = llm_client p
        ∧ (alive p = false → alive p' = false).
Proof. by destruct (run_game_kept _ _ _ _ _ Hrun) as (_ & Hr & _). Qed.

Lemma run_game_never_revives_witness :
  ∃ ex,
    run_game EN (fun _ => default_decision) 31 last_contract_turn_duel = Some (Ok ex)
    ∧ length (players (ctl ex)) = 2%nat.
Proof.
  assert (∃ ex, run_game EN (fun _ => default_decision) 31 last_contract_turn_duel
                  = Some (Ok ex)) as [ex Hrun].
  { eexists. vm_compute. reflexivity. }
  destruct (run_game_never_revives _ _ _ _ _ Hrun) as (Hlen & _).
  exists ex. split; [exact Hrun|exact Hlen].
Defined.

(** ** Whose turn it is *)

Lemma game_loop_rotation loc agent fuel :
  ∀ tc tp c ex, game_loop loc agent fuel true tc tp c = Some (Ok ex) →
    (current_player_idx c < length (players c))%nat →
    (tc ≤ turn_count ex)%nat
    ∧ current_player_idx (ctl ex)
        = ((current_player_idx c + (turn_count ex - tc)) mod length (players c))%nat.
Proof.
  induction fuel as [|fuel IH]; intros tc tp c ex Hl Hidx; [done|].
  rewrite game_loop_S in Hl. cbn [andb] in Hl.
  destruct (tc <? max_turns)%nat.
  2:{ injection Hl as <-. cbn -[Nat.modulo]. split; [done|].
      rewrite Nat.sub_diag, Nat.add_0_r. by rewrite Nat.mod_small. }
  destruct (process_player_turn _ _ _ _) as [[b c']|] eqn:Ht; [|done].
  apply process_player_turn_kept in Ht. destruct Ht as (_ & [Hlen _] & Hi & _).
  destruct b; cbn [negb] in Hl.
  - destruct (length (players c')) as [|n] eqn:Hlc; [done|].
    apply IH in Hl.
    2:{ cbn -[Nat.modulo]. rewrite Hlc. apply Nat.mod_upper_bound. done. }
    cbn -[Nat.modulo] in Hl. destruct Hl as [Hle Hcur]. split; [lia|].
    rewrite Hcur, Hlc, Hi. rewrite <- Hlen.
    rewrite Nat.Div0.add_mod_idemp_l. f_equal. lia.
  - injection Hl as <-. cbn -[Nat.modulo]. split; [done|].
    rewrite Nat.sub_diag, Nat.add_0_r, Nat.mod_small by done.
    destruct (contract_active _); [|done].
    destruct (check_contract_effect_kept c') as (_ & _ & _ & ->). done.
Qed.

Lemma foldl_wins_idx c l :
  current_player_idx (foldl (fun c p => print (PWins (name p)) c) c l)
    = current_player_idx c.
Proof. revert c. induction l as [|p l IH]; intros c; cbn; [done|]. by rewrite IH. Qed.

Lemma announce_idx c : current_player_idx (announce c) = current_player_idx c.
Proof.
  unfold announce. cbn. destruct (filter _ _) as [|p l]; [done|].
  case_decide; [done|]. by rewrite foldl_wins_idx.
Qed.

(** X14. The players take turns in a fixed rotation.  If the first player
    is on the roster, then when [run_game] ends the controller points at
    player (first + turn_count) mod n, where n is the number of players and
    turn_count the number of turns that were completed: each completed turn
    passes the move to the next player of the roster, and the turn that
    ends the match leaves it with the player who took it. *)
Theorem run_game_rotates_the_players loc agent fuel c ex
    (Hrun : run_game loc agent fuel c = Some (Ok ex))
    (Hidx : (current_player_idx c < length (players c))%nat) :
  current_player_idx (ctl ex)
    = ((current_player_idx c + turn_count ex) mod length (players c))%nat.
Proof.
  unfold run_game in Hrun.
  destruct (game_loop _ _ _ _ _ _ _) as [[ex0|]|] eqn:Hl; [|done..].
  injection Hrun as <-. cbn -[Nat.modulo]. rewrite announce_idx.
  destruct (game_loop_rotation _ _ _ _ _ _ _ Hl Hidx) as [_ ->].
  by rewrite Nat.sub_0_r.
Qed.

Lemma run_game_rotates_the_players_witness :
  ∃ ex,
    run_game EN (fun _ => default_decision) 31
      (set_current_player_idx 1 (sample_duel (set_current_position 3 sample_gun) [] []))
      = Some (Ok ex)
    ∧ turn_count ex = 3%nat
    ∧ current_player_idx (ctl ex) = 0%nat.
Proof.
  assert (∃ ex, run_game EN (fun _ => default_decision) 31
                  (set_current_player_idx 1
                     (sample_duel (set_current_position 3 sample_gun) [] []))
                  = Some (Ok ex) ∧ turn_count ex = 3%nat) as (ex & Hrun & Htc).
  { eexists. split; [vm_compute; reflexivity|reflexivity]. }
  pose proof (run_game_rotates_the_players _ _ _ _ _ Hrun) as Hrot.
  exists ex. split; [exact Hrun|]. split; [exact Htc|].
  rewrite Hrot; [|cbn; lia]. rewrite Htc. reflexivity.
Defined.

(** ** Players without a backend *)

Lemma game_loop_idle loc agent fuel :
  ∀ tc tp c,
    Forall (fun p => llm_client p = None) (players c) →
    (current_player_idx c < length (players c))%nat →
    (tc ≤ max_turns)%nat → (max_turns - tc < fuel)%nat →
    ∃ ex, game_loop loc agent fuel true tc tp c = Some (Ok ex)
      ∧ game_active ex = true
      ∧ turn_count ex = max_turns
      ∧ game_state (ctl ex) = game_state c
      ∧ players (ctl ex) = players c
      ∧ console (ctl ex) = console c.
Proof.
  induction fuel as [|fuel IH]; intros tc tp c Hall Hidx Htc Hf; [lia|].
  rewrite game_loop_S. cbn [andb].
  destruct (tc <? max_turns)%nat eqn:E.
  - apply Nat.ltb_lt in E.
    destruct (lookup_lt_is_Some_2 _ _ Hidx) as [p Hp].
    assert (Hnone : llm_client p = None).
    { rewrite Forall_forall in Hall. apply Hall. by eapply list_elem_of_lookup_2. }
    unfold process_player_turn, get_player. rewrite Hp. cbn -[Nat.modulo]. rewrite Hnone.
    cbn -[Nat.modulo].
    destruct (length (players c)) as [|n] eqn:Hlen; [lia|].
    destruct (IH (S tc) (S tp)
                (set_current_player_idx ((current_player_idx c + 1) mod S n) c))
      as (ex & Hl & H1 & H2 & H3 & H4 & H5).
    + done.
    + cbn -[Nat.modulo]. rewrite Hlen. by apply Nat.mod_upper_bound.
    + lia.
    + lia.
    + exists ex. done.
  - apply Nat.ltb_ge in E. eexists. split; [reflexivity|]. cbn. split_and!; try done. lia.
Qed.

(** X15. A player without a backend never acts: [process_player_turn]
    returns at once.  So if no player of a non-empty roster has a backend,
    [run_game] plays 30 empty turns: nobody is asked anything, nothing is
    logged, no item is used, no shot is fired, and the match is declared
    over with the verdict that the number of living players gives. *)
Theorem run_game_without_backends_idles loc agent fuel c
    (Hnone : Forall (fun p => llm_client p = None) (players c))
    (Hidx : (current_player_idx c < length (players c))%nat)
    (Hfuel : (max_turns < fuel)%nat) :
  ∃ ex,
    run_game loc agent fuel c = Some (Ok ex)
    ∧ turn_count ex = 30%nat
    ∧ game_state (ctl ex) = game_state c
    ∧ players (ctl ex) = players c
    ∧ shots (console (ctl ex)) = shots (console c)
    ∧ ∃ verdict, console (ctl ex) = console c ++ PGameOver :: verdict.
Proof.
  destruct (game_loop_idle loc agent fuel 0 0 c Hnone Hidx) as (ex & Hl & _ & Htc & Hg & Hp & Hc);
    [lia|lia|].
  unfold run_game. rewrite Hl. eexists. split; [reflexivity|]. cbn.
  destruct (announce_frame (ctl ex)) as (-> & -> & _).
  split_and!; try done.
  - unfold announce. cbn. destruct (filter _ _) as [|q l].
    + cbn. rewrite <- app_assoc, !shots_app, Hc. cbn. by rewrite app_nil_r.
    + case_decide.
      * cbn. rewrite <- app_assoc, !shots_app, Hc. cbn. by rewrite app_nil_r.
      * destruct (console_foldl_wins (print PGameOver (ctl ex)) (q :: l)) as [-> _].
        cbn. rewrite <- app_assoc, !shots_app, Hc. cbn.
        assert (Hw : ∀ ps : list Player, shots ((fun p => PWins (name p)) <$> ps) = []).
        { induction ps; [done|]. cbn. done. }
        change (PWins (name q) :: ((fun p => PWins (name p)) <$> l))
          with ((fun p => PWins (name p)) <$> (q :: l)).
        rewrite Hw. by rewrite app_nil_r.
  - unfold announce. cbn. destruct (filter _ _) as [|q l].
    + cbn. rewrite <- app_assoc, Hc. by eexists.
    + case_decide.
      * cbn. rewrite <- app_assoc, Hc. by eexists.
      * destruct (console_foldl_wins (print PGameOver (ctl ex)) (q :: l)) as [-> _].
        cbn. rewrite <- app_assoc, Hc. by eexists.
Qed.

Lemma run_game_without_backends_idles_witness :
  ∃ ex,
    run_game EN (fun _ => reverse_decision EN) 31 human_duel = Some (Ok ex)
    ∧ turn_count ex = 30%nat
    ∧ game_state (ctl ex) = game_state human_duel.
Proof.
  destruct (run_game_without_backends_idles EN (fun _ => reverse_decision EN) 31 human_duel)
    as (ex & Hrun & Htc & Hgs & _).
  - repeat constructor.
  - cbn. lia.
  - unfold max_turns. lia.
  - exists ex. repeat split; assumption.
Defined.

(** X16. A negotiation needs a backend on the other side.  When a player
    with a backend proposes a negotiation to an opponent who has none, the
    turn raises [AttributeError] (the code calls [send_message] on None),
    and so does [run_game], whatever else the decision says. *)
Theorem negotiating_with_backendless_opponent_raises loc agent fuel c player opponent
    (Hp : get_player (current_player_idx c) c = Ok player)
    (Hllm : is_Some (llm_client player))
    (Hopp : players c !! get_opponent (current_player_idx c) c = Some opponent)
    (Hnone : llm_client opponent = None)
    (Hn : chamber_count (game_state c) ≠ 0)
    (Hneg : p_communication (parsed (agent 0%nat)) = Some (comm_negotiate loc)) :
  process_player_turn loc (agent 0%nat) (current_player_idx c) c = Raise AttributeError
  ∧ run_game loc agent (S fuel) c = Some (Raise AttributeError).
Proof.
  assert (Ht : process_player_turn loc (agent 0%nat) (current_player_idx c) c
               = Raise AttributeError).
  { destruct (item_step_Ok loc (agent 0%nat) _ player c Hp Hn) as [c1 Hs].
    destruct (item_step_inv _ _ _ _ _ _ Hp Hs) as (_ & _ & Hll & _).
    destruct (lookup_fmap_eq llm_client _ _ _ _ Hll Hopp) as (o1 & Ho1 & Hl1).
    rewrite (process_player_turn_unfold _ _ _ _ _ _ Hp Hllm Hs).
    unfold communication_step. rewrite decide_True by done.
    unfold get_player. cbn. rewrite Ho1. cbn. rewrite Hl1, Hnone. done. }
  split; [done|].
  unfold run_game. rewrite game_loop_S. cbn [andb].
  change (0 <? max_turns)%nat with true. cbn iota. by rewrite Ht.
Qed.

Lemma negotiating_with_backendless_opponent_raises_witness :
  run_game EN (fun _ => accepted_negotiation) 31 mixed_duel = Some (Raise AttributeError).
Proof.
  apply (negotiating_with_backendless_opponent_raises EN (fun _ => accepted_negotiation)
           30 mixed_duel (mkPlayer "Bill" (Some "openai") [] true)
           (mkPlayer "Lee" None [] true)).
  - reflexivity.
  - eexists. reflexivity.
  - reflexivity.
  - reflexivity.
  - discriminate.
  - reflexivity.
Defined.

(** ** The verdict *)

Lemma filter_alive_shorter (l : list Player) :
  Exists (fun p => alive p = false) l →
  (length (filter (fun p => alive p = true) l) < length l)%nat.
Proof.
  induction 1 as [p l Hp|p l _ IH].
  - rewrite filter_cons_False by (by rewrite Hp). cbn.
    pose proof (length_filter (fun p => alive p = true) l). lia.
  - destruct (decide (alive p = true)).
    + rewrite filter_cons_True by done. cbn. lia.
    + rewrite filter_cons_False by done. cbn. lia.
Qed.

(** X17. The verdict that closes [run_game] is read off the alive flags
    alone and changes nothing but the terminal.  With nobody alive (an
    empty roster included) it is the draw by death; with a non-empty roster
    all alive it is the draw on turns; with some alive and some dead, each
    survivor is announced as winner, in roster order. *)
Theorem announce_verdict_follows_survivors c :
  players (announce c) = players c
  ∧ game_state (announce c) = game_state c
  ∧ (Forall (fun p => alive p = false) (players c) →
     console (announce c) = console c ++ [PGameOver; PDrawAllDead])
  ∧ (players c ≠ [] → Forall (fun p => alive p = true) (players c) →
     console (announce c) = console c ++ [PGameOver; PDrawMaxTurns])
  ∧ (Exists (fun p => alive p = true) (players c) →
     Exists (fun p => alive p = false) (players c) →
     console (announce c)
       = console c ++ PGameOver
           :: ((fun p => PWins (name p)) <$> filter (fun p => alive p = true) (players c))).
Proof.
  destruct (announce_frame c) as (Hp & Hg & _). split_and!; try done.
  - intros Hdead. unfold announce. cbn. rewrite filter_none.
    + cbn. by rewrite <- app_assoc.
    + intros p Hin. rewrite Forall_forall in Hdead. rewrite (Hdead p Hin). done.
  - intros Hne Hall. unfold announce. cbn. rewrite filter_all by done.
    destruct (players c); [done|]. rewrite decide_True by done.
    cbn. by rewrite <- app_assoc.
  - intros Hsome Hdead. unfold announce. cbn.
    pose proof (filter_alive_shorter _ Hdead) as Hlt.
    destruct (filter (fun p => alive p = true) (players c)) as [|q l] eqn:Hf.
    + exfalso. apply Exists_exists in Hsome as (p & Hin & Hal).
      assert (p ∈ filter (fun p => alive p = true) (players c))
        by (by apply list_elem_of_filter).
      rewrite Hf in H. by apply not_elem_of_nil in H.
    + rewrite decide_False by lia.
      destruct (console_foldl_wins (print PGameOver c) (q :: l)) as [-> _].
      cbn. by rewrite <- app_assoc.
Qed.

Lemma announce_verdict_follows_survivors_witness :
  console (announce (sample_duel sample_gun [] [])) = [PGameOver; PDrawMaxTurns]
  ∧ console (announce (mkGameController 6 sample_gun [] 0 [])) = [PGameOver; PDrawAllDead].
Proof.
  destruct (announce_verdict_follows_survivors (sample_duel sample_gun [] []))
    as (_ & _ & _ & Halive & _).
  destruct (announce_verdict_follows_survivors (mkGameController 6 sample_gun [] 0 []))
    as (_ & _ & Hdead & _).
  split.
  - apply Halive; [discriminate|repeat constructor].
  - apply Hdead. constructor.
Defined.

(** X18. An accepted negotiation ends the match in its first turn with
    everybody alive, and the verdict [run_game] then prints is the one it
    prints for a match that ran out of turns: after the announcement of
    the negotiated draw the terminal shows "game over" and the draw on
    turns, for the verdict looks at the alive flags only. *)
Theorem accepted_negotiation_gets_the_verdict_of_a_draw_on_turns
    loc agent fuel c player opponent
    (Hp : get_player (current_player_idx c) c = Ok player)
    (Hllm : is_Some (llm_client player))
    (Hopp : players c !! get_opponent (current_player_idx c) c = Some opponent)
    (Hollm : is_Some (llm_client opponent))
    (Hn : chamber_count (game_state c) ≠ 0)
    (Hacc : accepted loc (agent 0%nat) = true)
    (Halive : Forall (fun p => alive p = true) (players c)) :
  ∃ ex,
    run_game loc agent (S fuel) c = Some (Ok ex)
    ∧ game_active ex = false
    ∧ turn_count ex = 0%nat
    ∧ console (ctl ex) = console c ++ [PNegotiationSuccess; PGameOver; PDrawMaxTurns]
    ∧ alive <$> players (ctl ex) = alive <$> players c.
Proof.
  destruct (item_step_Ok loc (agent 0%nat) _ player c Hp Hn) as [c1 Hs].
  destruct (item_step_inv _ _ _ _ _ _ Hp Hs)
    as (Hal & Hnm & Hll & _ & _ & _ & _ & Hco & _).
  destruct (lookup_fmap_eq llm_client _ _ _ _ Hll Hopp) as (o1 & Ho1 & Hl1).
  assert (Hol : is_Some (llm_client o1)) by (by rewrite Hl1).
  destruct (communication_step_Ok loc (agent 0%nat) (current_player_idx c)
              (get_opponent (current_player_idx c) c) player c1) as [c2 Hc];
    [by eauto|].
  rewrite Hacc in Hc. cbn in Hc.
  destruct (communication_step_inv _ _ _ _ _ _ _ _ Hc)
    as (_ & Hpl & _ & _ & _ & Hcon & _).
  specialize (Hcon eq_refl).
  pose proof (process_player_turn_unfold _ _ _ _ _ _ Hp Hllm Hs) as Hturn.
  rewrite Hc in Hturn. cbn in Hturn.
  assert (Hall2 : Forall (fun p => alive p = true) (players c2)).
  { rewrite Hpl. by apply (Forall_alive_fmap _ (players c)). }
  assert (Hne : players c2 ≠ []).
  { rewrite Hpl. intros Hnil. apply (f_equal length) in Hnil.
    rewrite <- (length_fmap name), Hnm, length_fmap in Hnil.
    apply get_player_lookup, lookup_lt_Some in Hp. cbn in Hnil. lia. }
  assert (Hcce : (if contract_active (game_state c2)
                  then snd (check_contract_effect c2) else c2) = c2).
  { destruct (contract_active (game_state c2)) eqn:Ha; [|done].
    unfold check_contract_effect. rewrite Ha. rewrite filter_none; [done|].
    intros p Hin. rewrite Forall_forall in Hall2. by rewrite (Hall2 p Hin). }
  unfold run_game.
  rewrite (game_loop_stops _ _ _ _ _ _ c2); [|unfold max_turns; lia|done].
  rewrite Hcce. eexists. split; [reflexivity|]. cbn.
  destruct (announce_frame c2) as (-> & _ & _).
  split_and!; try done.
  - unfold announce. cbn. rewrite filter_all by done.
    destruct (players c2); [done|]. rewrite decide_True by done.
    cbn. rewrite Hcon, Hco. by rewrite <- !app_assoc.
  - by rewrite Hpl.
Qed.

Lemma accepted_negotiation_gets_the_verdict_of_a_draw_on_turns_witness :
  ∃ ex,
    run_game EN (fun _ => accepted_negotiation) 31 (sample_duel sample_gun [] [])
      = Some (Ok ex)
    ∧ console (ctl ex) = [PNegotiationSuccess; PGameOver; PDrawMaxTurns].
Proof.
  destruct (accepted_negotiation_gets_the_verdict_of_a_draw_on_turns EN
              (fun _ => accepted_negotiation) 30 (sample_duel sample_gun [] [])
              (mkPlayer "Bill" (Some "anthropic") [] true)
              (mkPlayer "Lee" (Some "openai") [] true))
    as (ex & Hrun & _ & _ & Hcon & _).
  - reflexivity.
  - eexists. reflexivity.
  - reflexivity.
  - eexists. reflexivity.
  - discriminate.
  - reflexivity.
  - repeat constructor.
  - exists ex. split; [exact Hrun|exact Hcon].
Defined.

(** ** Who is shot *)

(** X19. A turn that reaches its fire step fires exactly once; it returns
    False exactly when the chamber under the trigger (after the item step)
    is loaded.  A miss leaves the players as the item step left them.  A
    hit kills one player and no other: the acting player when the target
    settled by the Reverse rule is Self, the opponent for every other
    target; and a decision without a target is a shot at the opponent. *)
Theorem turn_shoots_the_settled_target loc inp idx player c
    (Hp : get_player idx c = Ok player)
    (Hllm : is_Some (llm_client player))
    (Hn : chamber_count (game_state c) ≠ 0)
    (Hrs : reset_ok (game_state c))
    (Hopp : p_communication (parsed inp) = Some (comm_negotiate loc) →
            ∃ o, players c !! get_opponent idx c = Some o ∧ is_Some (llm_client o))
    (Hacc : accepted loc inp = false) :
  ∃ c1 c',
    item_step loc inp idx c = Ok c1
    ∧ let hit := bool_decide (current_position (game_state c1) ∈ bullets (game_state c1)) in
      let target := final_target loc inp idx (game_state c1) in
      let victim := if decide (target = target_self loc) then idx else get_opponent idx c in
      process_player_turn loc inp idx c = Ok (negb hit, c')
      ∧ shots (console c') = shots (console c) ++ [(name player, target)]
      ∧ (hit = false → players c' = players c1)
      ∧ (hit = true →
         (∃ p, players c1 !! victim = Some p ∧ players c' !! victim = Some (set_alive false p))
         ∧ ∀ j, j ≠ victim → players c' !! j = players c1 !! j)
      ∧ (reverse_active (game_state c1) = false → p_target (parsed inp) = None →
         target = target_opponent loc).
Proof.
  destruct (turn_reaching_fire loc inp idx player c Hp Hllm Hn Hrs Hopp Hacc)
    as (c1 & c' & hit & Hs & Ht & Hsh & _ & _ & _ & Hhit & Hpl & _ & _ & Hlen).
  exists c1, c'. split; [done|]. cbn zeta. rewrite <- Hhit.
  split_and!; try done.
  - intros Hf. by rewrite Hf in Hpl.
  - intros Hh. rewrite Hh in Hpl. rewrite Hpl.
    set (victim := if decide (final_target loc inp idx (game_state c1) = target_self loc)
                   then idx else get_opponent idx c).
    assert (Hv : (victim < length (players c1))%nat).
    { subst victim. rewrite Hlen. case_decide.
      - by apply get_player_lookup, lookup_lt_Some in Hp.
      - by eapply get_opponent_lt. }
    destruct (lookup_lt_is_Some_2 _ _ Hv) as [p Hpv]. split.
    + exists p. split; [done|]. by rewrite list_lookup_alter_eq, Hpv.
    + intros j Hj. by rewrite list_lookup_alter_ne.
  - intros Hr Hnone. unfold final_target, is_flipped, declared_target.
    by rewrite Hr, Hnone.
Qed.

Lemma turn_shoots_the_settled_target_witness :
  ∃ c1 c',
    item_step EN default_decision 0 (sample_duel sample_gun [] []) = Ok c1
    ∧ process_player_turn EN default_decision 0 (sample_duel sample_gun [] [])
        = Ok (false, c')
    ∧ shots (console c') = [("Bill", "Opponent")]
    ∧ alive <$> players c' !! 1%nat = Some false
    ∧ players c' !! 0%nat = players c1 !! 0%nat.
Proof.
  destruct (turn_shoots_the_settled_target EN default_decision 0
              (mkPlayer "Bill" (Some "anthropic") [] true) (sample_duel sample_gun [] []))
    as (c1 & c' & Hs & Hturn).
  - reflexivity.
  - eexists. reflexivity.
  - discriminate.
  - discriminate.
  - intros Hneg. discriminate Hneg.
  - reflexivity.
  - assert (Hc1 : c1 = sample_duel sample_gun [] []).
    { cbv in Hs. by injection Hs as <-. }
    subst c1. cbn zeta in Hturn.
    destruct Hturn as (Ht & Hsh & _ & Hhit & _).
    destruct Hhit as ((p & Hp1 & Hp2) & Hother); [reflexivity|].
    exists (sample_duel sample_gun [] []), c'. split_and!.
    + reflexivity.
    + exact Ht.
    + exact Hsh.
    + change (players c' !! 1%nat = Some (set_alive false p)) in Hp2.
      rewrite Hp2. reflexivity.
    + apply (Hother 0%nat). discriminate.
Defined.

(** ** Dealing the items *)

Lemma foldl_add_item_items its p :
  items (foldl (fun p item => add_item item p) p its) = items p ++ its.
Proof.
  revert p. induction its as [|it its IH]; intros p; cbn; [by rewrite app_nil_r|].
  rewrite IH. cbn. by rewrite <- app_assoc.
Qed.

Lemma py_slice_elem_of {A} (a b : Z) (l : list A) x : x ∈ py_slice a b l → x ∈ l.
Proof.
  unfold py_slice. intros Hx.
  by apply subseteq_take, subseteq_drop in Hx.
Qed.

Lemma py_slice_length_le {A} (a b : Z) (l : list A) :
  0 <= a → 0 <= b → Z.of_nat (length (py_slice a b l)) <= Z.max 0 (b - a).
Proof.
  intros Ha Hb. unfold py_slice. rewrite length_take, length_drop.
  rewrite !decide_False by lia. lia.
Qed.

Lemma py_slice_length {A} (a b : Z) (l : list A) :
  0 <= a <= b → b <= Z.of_nat (length l) →
  Z.of_nat (length (py_slice a b l)) = b - a.
Proof.
  intros Hab Hb. unfold py_slice. rewrite length_take, length_drop.
  rewrite !decide_False by lia. lia.
Qed.

Lemma length_mjoin_replicate {A} k (l : list A) :
  length (mjoin (replicate k l)) = (k * length l)%nat.
Proof.
  induction k as [|k IH]; [done|].
  change (mjoin (replicate (S k) l)) with (l ++ mjoin (replicate k l)).
  rewrite length_app, IH. done.
Qed.

Lemma elem_of_mjoin_replicate {A} k (l : list A) x : x ∈ mjoin (replicate k l) → x ∈ l.
Proof.
  induction k as [|k IH]; [by intros ?%not_elem_of_nil|].
  change (mjoin (replicate (S k) l)) with (l ++ mjoin (replicate k l)).
  rewrite elem_of_app. intros [?|?]; auto.
Qed.

Lemma initialize_gun_sorted loc r_count r_shuffle r_pos gs gs' :
  initialize_gun loc r_count r_shuffle r_pos gs = Ok gs' → Sorted Z.le (bullets gs').
Proof.
  unfold initialize_gun. destruct (randint 1 _ _); [|done]. cbn.
  destruct (randint 0 _ _); [|done]. cbn. intros [= <-]. cbn. apply sorted_Sorted.
Qed.

(** [setup_game] on a fresh controller, spelled out. *)
Lemma setup_game_eq w loc configs r_count r_shuffle r_pos r_items r_first N gs first :
  backends_created w configs →
  initialize_gun loc r_count r_shuffle r_pos (GameState_init N) = Ok gs →
  randint 0 (Z.of_nat (length configs) - 1) r_first = Ok first →
  setup_game w loc configs r_count r_shuffle r_pos r_items r_first (GameController_init N)
    = Ok (mkGameController N gs
            (imap (fun i p =>
                     foldl (fun p item => add_item item p) p
                       (py_slice (Z.of_nat i * ((N + 2) `div` 3))
                          ((Z.of_nat i + 1) * ((N + 2) `div` 3))
                          (shuffle r_items
                             (mjoin (replicate (length configs + 2) (five_items loc))))))
               (new_player <$> configs))
            (Z.to_nat first) []).
Proof.
  intros Hw Hi Hf. unfold setup_game. rewrite (add_players_Ok _ _ _ Hw).
  cbn -[imap mjoin replicate]. rewrite Hi. cbn -[imap mjoin replicate].
  rewrite length_imap, !length_fmap, Hf. reflexivity.
Qed.

Lemma initialize_gun_Raise loc r_count r_shuffle r_pos gs :
  chamber_count gs `div` bullet_divisor loc < 1 →
  initialize_gun loc r_count r_shuffle r_pos gs = Raise ValueError.
Proof.
  intros Hk. unfold initialize_gun, randint. by rewrite decide_False by lia.
Qed.

(** X20. [setup_game] on a fresh controller.  The backends are created
    first: if creating the backend of some player raises (the
    configuration file is missing, the provider is unknown, its key is not
    set, ...), that exception leaves [setup_game], whatever the chamber
    count is.  If they can all be created, [ValueError] is raised when the
    range of the bullet count is empty (by [initialize_gun]) or there is no
    player (by the draw of who goes first).  Otherwise nothing is raised; the roster is the list of
    configurations, in order, everybody alive; the gun is well formed and
    no modifier is active; the first player is on the roster.  Every player
    is dealt items of the five kinds only, at most
    ceil(N/3) = (N + 2) // 3 of them, and exactly that many as long as the
    shuffled pool of 5 * (players + 2) items lasts up to that share. *)
Theorem setup_game_deals_from_the_pool
    w loc configs r_count r_shuffle r_pos r_items r_first N :
  (∀ pre n provider post e,
     configs = pre ++ (n, Some provider) :: post →
     backends_created w pre → create_llm_client w provider = Raise e →
     setup_game w loc configs r_count r_shuffle r_pos r_items r_first (GameController_init N)
       = Raise e)
  ∧ (backends_created w configs → N `div` bullet_divisor loc < 1 ∨ configs = [] →
     setup_game w loc configs r_count r_shuffle r_pos r_items r_first (GameController_init N)
       = Raise ValueError)
  ∧ (backends_created w configs → 1 <= N `div` bullet_divisor loc → configs ≠ [] →
     ∃ c,
       setup_game w loc configs r_count r_shuffle r_pos r_items r_first
         (GameController_init N) = Ok c
       ∧ name <$> players c = fst <$> configs
       ∧ llm_client <$> players c = snd <$> configs
       ∧ Forall (fun p => alive p = true) (players c)
       ∧ (current_player_idx c < length (players c))%nat
       ∧ chamber_count (game_state c) = N
       ∧ gun_ok (game_state c)
       ∧ contract_active (game_state c) = false
       ∧ reverse_active (game_state c) = false
       ∧ reset_ok (game_state c)
       ∧ ∀ i p, players c !! i = Some p →
           Forall (fun item => item ∈ five_items loc) (items p)
           ∧ Z.of_nat (length (items p)) <= (N + 2) `div` 3
           ∧ ((Z.of_nat i + 1) * ((N + 2) `div` 3) <= 5 * (Z.of_nat (length configs) + 2) →
              Z.of_nat (length (items p)) = (N + 2) `div` 3)).
Proof.
  split; [|split].
  { intros pre n provider post e -> Hw He. unfold setup_game.
    by rewrite (add_players_Raise _ _ _ _ _ _ _ Hw He). }
  { intros Hw Hk. unfold setup_game. rewrite (add_players_Ok _ _ _ Hw).
    cbn -[imap mjoin replicate].
    destruct (decide (N `div` bullet_divisor loc < 1)) as [Hlt|Hge].
    { by rewrite initialize_gun_Raise. }
    destruct Hk as [Hk | ->]; [done|].
    destruct (initialize_gun_bounds loc r_count r_shuffle r_pos (GameState_init N))
      as (gs & -> & _); [cbn; lia|].
    reflexivity. }
  intros Hw Hk Hne.
  destruct (initialize_gun_bounds loc r_count r_shuffle r_pos (GameState_init N) Hk)
    as (gs & Hi & Hc & Hb & Hnd & Hr & Hpos).
  destruct (initialize_gun_modifiers _ _ _ _ _ _ Hi) as (Ha & _ & Hrv & _ & Hrr).
  pose proof (initialize_gun_sorted _ _ _ _ _ _ Hi) as Hsorted.
  cbn in Hc, Hb, Hr, Hpos, Ha, Hrv, Hrr.
  destruct (randint_Ok 0 (Z.of_nat (length configs) - 1) r_first) as (first & Hf & Hfr).
  { destruct configs; [done|]. cbn. lia. }
  rewrite (setup_game_eq _ _ _ _ _ _ _ _ _ _ _ Hw Hi Hf).
  eexists. split; [reflexivity|]. cbn -[imap mjoin replicate].
  set (pool := shuffle r_items (mjoin (replicate (length configs + 2) (five_items loc)))).
  set (ic := (N + 2) `div` 3).
  assert (Hkeep : ∀ (i : nat) (p : Player),
            name (foldl (fun p item => add_item item p) p
                    (py_slice (Z.of_nat i * ic) ((Z.of_nat i + 1) * ic) pool)) = name p
            ∧ alive (foldl (fun p item => add_item item p) p
                       (py_slice (Z.of_nat i * ic) ((Z.of_nat i + 1) * ic) pool)) = alive p
            ∧ llm_client (foldl (fun p item => add_item item p) p
                            (py_slice (Z.of_nat i * ic) ((Z.of_nat i + 1) * ic) pool))
              = llm_client p).
  { intros. apply foldl_add_item_keeps. }
  assert (HN : 2 <= N).
  { assert (2 <= bullet_divisor loc <= 3) by (destruct loc; cbn; lia).
    destruct (decide (2 <= N)); [done|]. exfalso.
    assert (N `div` bullet_divisor loc <= 0); [|lia].
    destruct (decide (0 <= N)).
    - rewrite Z.div_small; lia.
    - apply Z.div_le_upper_bound; lia. }
  assert (Hic : 1 <= ic).
  { subst ic. apply Z.div_le_lower_bound; lia. }
  split_and!.
  - rewrite fmap_imap_same by (intros; apply Hkeep). by rewrite <- list_fmap_compose.
  - rewrite fmap_imap_same by (intros; apply Hkeep). by rewrite <- list_fmap_compose.
  - apply (Forall_fmap_eq alive (fun b => b = true) _ (new_player <$> configs)).
    + apply fmap_imap_same. intros. apply Hkeep.
    + apply Forall_fmap. by apply Forall_true.
  - rewrite length_imap, length_fmap. lia.
  - done.
  - unfold gun_ok. rewrite Hc. split_and!; try done; lia.
  - done.
  - done.
  - unfold reset_ok. by rewrite Hrr.
  - intros i p Hp. rewrite list_lookup_imap, list_lookup_fmap in Hp.
    destruct (configs !! i) as [cfg|]; [|done]. cbn in Hp. injection Hp as <-.
    rewrite foldl_add_item_items. cbn.
    assert (Hpool : length pool = (5 * (length configs + 2))%nat).
    { subst pool.
      rewrite (Permutation_length (shuffle_Permutation r_items _)).
      rewrite length_mjoin_replicate. destruct loc; cbn; lia. }
    split_and!.
    + apply Forall_forall. intros it Hit. apply py_slice_elem_of in Hit.
      subst pool. rewrite shuffle_Permutation in Hit.
      by apply elem_of_mjoin_replicate in Hit.
    + pose proof (py_slice_length_le (Z.of_nat i * ic) ((Z.of_nat i + 1) * ic) pool).
      nia.
    + intros Hfits. rewrite py_slice_length; [lia|nia|]. rewrite Hpool. lia.
Qed.

Lemma setup_game_deals_from_the_pool_witness :
  (∃ c,
     setup_game sample_world EN [("Bill", Some "anthropic"); ("Lee", Some "openai")]
       4 (fun i => (3 * i + 1)%nat) 2 (fun i => (5 * i + 2)%nat) 1 (GameController_init 6)
       = Ok c
     ∧ name <$> players c = ["Bill"; "Lee"]
     ∧ gun_ok (game_state c))
  ∧ setup_game sample_world EN [("Bill", Some "anthropic"); ("Lee", Some "gemini")]
      4 (fun i => (3 * i + 1)%nat) 2 (fun i => (5 * i + 2)%nat) 1 (GameController_init 6)
      = Raise ValueError
  ∧ setup_game bare_world EN [("Bill", None); ("Lee", Some "openai")]
      4 (fun i => (3 * i + 1)%nat) 2 (fun i => (5 * i + 2)%nat) 1 (GameController_init 6)
      = Raise FileNotFoundError.
Proof.
  split; [|split].
  - destruct (setup_game_deals_from_the_pool sample_world EN
                [("Bill", Some "anthropic"); ("Lee", Some "openai")]
                4 (fun i => (3 * i + 1)%nat) 2 (fun i => (5 * i + 2)%nat) 1 6)
      as (_ & _ & Hok).
    destruct Hok as (c & Hs & Hnm & _ & _ & _ & _ & Hg & _).
    + repeat constructor; intros provider [= <-]; reflexivity.
    + vm_compute. discriminate.
    + discriminate.
    + exists c. split; [exact Hs|]. split; [exact Hnm|exact Hg].
  - destruct (setup_game_deals_from_the_pool sample_world EN
                [("Bill", Some "anthropic"); ("Lee", Some "gemini")]
                4 (fun i => (3 * i + 1)%nat) 2 (fun i => (5 * i + 2)%nat) 1 6)
      as (Hraise & _).
    apply (Hraise [("Bill", Some "anthropic")] "Lee" "gemini" []); [reflexivity| |reflexivity].
    repeat constructor; intros provider [= <-]; reflexivity.
  - destruct (setup_game_deals_from_the_pool bare_world EN
                [("Bill", None); ("Lee", Some "openai")]
                4 (fun i => (3 * i + 1)%nat) 2 (fun i => (5 * i + 2)%nat) 1 6)
      as (Hraise & _).
    apply (Hraise [("Bill", None)] "Lee" "openai" []); [reflexivity| |reflexivity].
    repeat constructor; intros provider [=].
Defined.
